(** * feathers-elasticsearch: the query translator and its safety gates

    A shallow embedding of [src/utils/core.ts], [src/utils/parse-query.ts],
    [src/utils/query-handlers/criteria.ts], [src/utils/query-handlers/special.ts]
    and of the sanitizers, validators and complexity calculator of
    [src/utils/security.ts], followed by the properties of the specification
    that concern them and by further properties of the same code.

    Conventions.
    - JavaScript strings are sequences of 8-bit code units (Rocq [string]).
    - JavaScript numbers are covered on the safe integers and on the
      not-a-number value ([VNaN]): [VNum n] stands for the number [n] when
      [n] lies strictly between [-2^53] and [2^53], the range in which every
      integer is a number and is printed as its decimal digits.  Other
      doubles are not represented, and what the definitions do with a
      [VNum] outside that range says nothing about the code.
    - An object is the list of its own enumerable properties in enumeration
      order, without repeated keys. *)

From Stdlib Require Import ZArith Lia Ascii Sorted.
From stdpp Require Import base decidable option list strings pretty.

Set Warnings "-register-all".
Open Scope string_scope.
Open Scope Z_scope.
Open Scope list_scope.

(** ** JavaScript values *)

Inductive value : Type :=
| VUndefined
| VNull
| VBool (b : bool)
| VNum (n : Z)
| VNaN
| VStr (s : string)
| VArr (items : list value)
| VObj (props : list (string * value)).

Definition VTrue : value := VBool true.

(** The induction principle that reaches inside arrays and objects. *)
Section ValueInd.
Variable P : value -> Prop.
Hypothesis Hundef : P VUndefined.
Hypothesis Hnull : P VNull.
Hypothesis Hbool : forall b, P (VBool b).
Hypothesis Hnum : forall n, P (VNum n).
Hypothesis Hnan : P VNaN.
Hypothesis Hstr : forall s, P (VStr s).
Hypothesis Harr : forall items, Forall P items -> P (VArr items).
Hypothesis Hobj : forall props, Forall (fun kv => P kv.2) props -> P (VObj props).

Fixpoint value_ind' (v : value) : P v :=
  match v with
  | VUndefined => Hundef
  | VNull => Hnull
  | VBool b => Hbool b
  | VNum n => Hnum n
  | VNaN => Hnan
  | VStr s => Hstr s
  | VArr items =>
      Harr items
        ((fix go (l : list value) : Forall P l :=
            match l with
            | [] => Forall_nil_2 P
            | x :: l' => Forall_cons_2 P x l' (value_ind' x) (go l')
            end) items)
  | VObj props =>
      Hobj props
        ((fix go (l : list (string * value)) : Forall (fun kv => P kv.2) l :=
            match l with
            | [] => Forall_nil_2 _
            | kv :: l' => Forall_cons_2 _ kv l' (value_ind' kv.2) (go l')
            end) props)
  end.
End ValueInd.

(** Nesting height: the measure on which the translator's recursion descends. *)
Fixpoint height (v : value) : nat :=
  match v with
  | VArr items => S (foldr (fun x m => Nat.max (height x) m) 0%nat items)
  | VObj props => S (foldr (fun kv m => Nat.max (height kv.2) m) 0%nat props)
  | _ => 0%nat
  end.

(** JavaScript truthiness ([!!v]). *)
Definition truthy (v : value) : bool :=
  match v with
  | VUndefined | VNull | VNaN => false
  | VBool b => b
  | VNum n => negb (n =? 0)
  | VStr s => negb (String.eqb s "")
  | VArr _ | VObj _ => true
  end.

(** [o[k]] on own properties; a missing property reads as [undefined]. *)
Fixpoint lookup_prop (k : string) (props : list (string * value)) : value :=
  match props with
  | [] => VUndefined
  | (k', v) :: rest => if String.eqb k k' then v else lookup_prop k rest
  end.

Definition get_prop (k : string) (v : value) : value :=
  match v with
  | VObj props => lookup_prop k props
  | _ => VUndefined
  end.

(** ** [src/utils/core.ts] *)

Inductive ValidatorType : Type :=
| TNumber | TString | TBoolean | TUndefined | TNull | TNaN | TObject | TArray.

Global Instance ValidatorType_eq_dec : EqDecision ValidatorType.
Proof. solve_decision. Defined.

Definition type_name (t : ValidatorType) : string :=
  match t with
  | TNumber => "number"
  | TString => "string"
  | TBoolean => "boolean"
  | TUndefined => "undefined"
  | TNull => "null"
  | TNaN => "NaN"
  | TObject => "object"
  | TArray => "array"
  end.

Definition getType (v : value) : ValidatorType :=
  match v with
  | VArr _ => TArray
  | VNull => TNull
  | VUndefined => TUndefined
  | VBool _ => TBoolean
  | VNum _ => TNumber
  | VNaN => TNaN
  | VStr _ => TString
  | VObj _ => TObject
  end.

(** Errors the modelled code throws.  [BadRequest] is the Feathers error
    class, thrown with a message that the source builds.  [TypeError] is
    thrown by the engine; the text of its message is the engine's own and
    is not represented. *)
Inductive error : Type :=
| BadRequest (message : string)
| TypeError.

(** Outcome of a call.

    [Inherited k] is the outcome of a run that reaches the call of a member
    that the dispatch table inherits from [Object.prototype] under the name
    [k] (see [specialQueryHandlers]).  The code does not stop there: it
    calls the built-in and carries on with what that returns as the
    accumulator (for [constructor], the caller's own object).  A tree of
    values has no place for such an accumulator, so a run over trees ends at
    the call with this outcome, and says nothing about how the run of the
    code goes on.  A run with outcome [Ok] or [Throw] has reached no such
    call.  The module [Store] follows the call of [constructor].

    [OutOfFuel] belongs to the fuelled recursion only and is shown
    unreachable for [parseQuery]. *)
Inductive result (A : Type) : Type :=
| Ok (a : A)
| Throw (e : error)
| Inherited (key : string)
| OutOfFuel.
Arguments Ok {A} a.
Arguments Throw {A} e.
Arguments Inherited {A} key.
Arguments OutOfFuel {A}.

Definition join_names (sep : string) (l : list string) : string :=
  match l with
  | [] => ""
  | x :: rest => foldl (fun acc y => acc +:+ sep +:+ y) x rest
  end.

Definition invalid_type_message (name : string) (validators : list ValidatorType)
    (type : ValidatorType) : string :=
  "Invalid type for '" +:+ name +:+ "': expected "
    +:+ join_names " or " (type_name <$> validators)
    +:+ ", got '" +:+ type_name type +:+ "'".

Definition validateType (v : value) (name : string) (validators : list ValidatorType)
    : result ValidatorType :=
  let type := getType v in
  if bool_decide (type ∈ validators) then Ok type
  else Throw (BadRequest (invalid_type_message name validators type)).

(** [Object.assign({}, object)]: the own properties are assigned to a fresh
    object one by one.  Assigning to the name [__proto__] sets the prototype
    of the fresh object and creates no property. *)
Definition assign_fresh {A} (object : list (string * A)) : list (string * A) :=
  filter (fun kv => kv.1 ≠ "__proto__") object.

(** [removeProps(object, ...props)]: the copy, then the deletions. *)
Definition removeProps (object : list (string * value)) (props : list string)
    : list (string * value) :=
  filter (fun kv => kv.1 ∉ props) (assign_fresh object).

(** ** [src/utils/security.ts]: the query-string sanitizer *)

Fixpoint contains (needle hay : string) : bool :=
  String.prefix needle hay
  || match hay with
     | EmptyString => false
     | String _ rest => contains needle rest
     end.

(** The three denylisted regular expressions are a literal followed by
    one-or-more repetitions of a literal, so [test] succeeds exactly on the
    strings that contain the shortest match: slash-dot-star-dot-star,
    a parenthesised dot-star followed by plus, and a parenthesised dot-plus
    followed by plus. *)
Definition dangerousPatterns : list string := ["/.*.*"; "(.*)+"; "(.+)+"].

Definition sanitizeQueryString (queryString : string) (maxLength : Z) : result string :=
  if Z.of_nat (String.length queryString) >? maxLength then
    Throw (BadRequest ("Query string length (" +:+ pretty (Z.of_nat (String.length queryString))
                         +:+ ") exceeds maximum of " +:+ pretty maxLength))
  else if existsb (fun pattern => contains pattern queryString) dangerousPatterns then
    Throw (BadRequest "Query string contains potentially dangerous regex pattern")
  else Ok queryString.

(** ** The bool query under construction ([ESQuery] of [src/types.ts])

    The record has one optional field per declared key; the order in which
    the JavaScript object acquired its keys is not tracked. *)

Record ESQuery : Type := mkESQuery {
  es_must : option (list value);
  es_filter : option (list value);
  es_should : option (list value);
  es_must_not : option (list value);
  es_minimum_should_match : option Z
}.

(** The literal [{}]. *)
Definition es_empty : ESQuery := mkESQuery None None None None None.

Inductive SectionName : Type := Must | Filter | Should | MustNot.

Definition section_of_name (s : string) : option SectionName :=
  if String.eqb s "must" then Some Must
  else if String.eqb s "filter" then Some Filter
  else if String.eqb s "should" then Some Should
  else if String.eqb s "must_not" then Some MustNot
  else None.

(** [esQuery[section]] *)
Definition get_section (s : SectionName) (q : ESQuery) : option (list value) :=
  match s with
  | Must => es_must q
  | Filter => es_filter q
  | Should => es_should q
  | MustNot => es_must_not q
  end.

(** [esQuery[section] = clauses] *)
Definition set_section (s : SectionName) (clauses : list value) (q : ESQuery) : ESQuery :=
  match s with
  | Must => mkESQuery (Some clauses) (es_filter q) (es_should q) (es_must_not q) (es_minimum_should_match q)
  | Filter => mkESQuery (es_must q) (Some clauses) (es_should q) (es_must_not q) (es_minimum_should_match q)
  | Should => mkESQuery (es_must q) (es_filter q) (Some clauses) (es_must_not q) (es_minimum_should_match q)
  | MustNot => mkESQuery (es_must q) (es_filter q) (es_should q) (Some clauses) (es_minimum_should_match q)
  end.

Definition set_minimum_should_match (n : Z) (q : ESQuery) : ESQuery :=
  mkESQuery (es_must q) (es_filter q) (es_should q) (es_must_not q) (Some n).

(** [esQuery[section] || []] *)
Definition section_or_empty (s : SectionName) (q : ESQuery) : list value :=
  default [] (get_section s q).

(** [esQuery[section] = esQuery[section] || []; esQuery[section].push(...clauses)] *)
Definition push_section (s : SectionName) (clauses : list value) (q : ESQuery) : ESQuery :=
  set_section s (section_or_empty s q ++ clauses) q.

Definition present {A} (o : option A) : nat :=
  match o with
  | Some _ => 1%nat
  | None => 0%nat
  end.

(** [Object.keys(esQuery).length] *)
Definition key_count (q : ESQuery) : nat :=
  (present (es_must q) + present (es_filter q) + present (es_should q)
   + present (es_must_not q) + present (es_minimum_should_match q))%nat.

(** The bool query as a value, for embedding in a clause. *)
Definition section_prop (name : string) (o : option (list value)) : list (string * value) :=
  match o with
  | Some clauses => [(name, VArr clauses)]
  | None => []
  end.

Definition esquery_value (q : ESQuery) : value :=
  VObj (section_prop "must" (es_must q) ++ section_prop "filter" (es_filter q)
        ++ section_prop "should" (es_should q) ++ section_prop "must_not" (es_must_not q)
        ++ match es_minimum_should_match q with
           | Some n => [("minimum_should_match", VNum n)]
           | None => []
           end).

(** ** [src/utils/query-handlers/criteria.ts] *)

Definition queryCriteriaMap : list (string * (SectionName * string * option string)) :=
  [ ("$nin", (MustNot, "terms", None));
    ("$in", (Filter, "terms", None));
    ("$gt", (Filter, "range", Some "gt"));
    ("$gte", (Filter, "range", Some "gte"));
    ("$lt", (Filter, "range", Some "lt"));
    ("$lte", (Filter, "range", Some "lte"));
    ("$ne", (MustNot, "term", None));
    ("$prefix", (Filter, "prefix", None));
    ("$wildcard", (Filter, "wildcard", None));
    ("$regexp", (Filter, "regexp", None));
    ("$match", (Must, "match", None));
    ("$phrase", (Must, "match_phrase", None));
    ("$phrase_prefix", (Must, "match_phrase_prefix", None)) ].

(** Both lookup tables of the translator are object literals, so indexing
    them with one of these names yields a member of [Object.prototype]
    (a function, or the prototype object itself) instead of [undefined]. *)
Definition object_prototype_members : list string :=
  [ "constructor"; "__defineGetter__"; "__defineSetter__"; "hasOwnProperty";
    "__lookupGetter__"; "__lookupSetter__"; "isPrototypeOf";
    "propertyIsEnumerable"; "toString"; "valueOf"; "__proto__"; "toLocaleString" ].

Fixpoint assoc {A} (k : string) (table : list (string * A)) : option A :=
  match table with
  | [] => None
  | (k', a) :: rest => if String.eqb k k' then Some a else assoc k rest
  end.

(** One iteration of the [forEach] of [processCriteria].  A criterion that
    resolves to an inherited member passes the truthiness filter and then
    fails at [.split], which no such member has. *)
Definition criterion_step (key : string) (v : list (string * value))
    (esQuery : ESQuery) (criterion : string) : result ESQuery :=
  match assoc criterion queryCriteriaMap with
  | Some (querySection, term, operand) =>
      let operandValue :=
        match operand with
        | Some op => VObj [(op, lookup_prop criterion v)]
        | None => lookup_prop criterion v
        end in
      Ok (push_section querySection [VObj [(term, VObj [(key, operandValue)])]] esQuery)
  | None =>
      if bool_decide (criterion ∈ object_prototype_members) then
        Throw TypeError
      else Ok esQuery
  end.

Fixpoint fold_result {A B} (f : A -> B -> result A) (a : A) (l : list B) : result A :=
  match l with
  | [] => Ok a
  | x :: rest =>
      match f a x with
      | Ok a' => fold_result f a' rest
      | Throw e => Throw e
      | Inherited k => Inherited k
      | OutOfFuel => OutOfFuel
      end
  end.

Definition processCriteria (key : string) (v : list (string * value)) (esQuery : ESQuery)
    : result ESQuery :=
  fold_result (criterion_step key v) esQuery (fst <$> v).

Definition term_clause (key : string) (val : value) : value :=
  VObj [("term", VObj [(key, val)])].

Definition processTermQuery (key : string) (v : value) (esQuery : ESQuery) : ESQuery :=
  match v with
  | VArr vals => push_section Filter (term_clause key <$> vals) esQuery
  | _ => push_section Filter [term_clause key v] esQuery
  end.

(** ** The query cache and the monad of the translator

    [queryCache] is a module-level [Map]; it is threaded through every call.
    A [Map] iterates in insertion order, so it is a list of bindings. *)

Record CacheEntry (R : Type) : Type := mkCacheEntry {
  entry_result : R;
  entry_timestamp : Z
}.
Arguments mkCacheEntry {R} _ _.
Arguments entry_result {R} _.
Arguments entry_timestamp {R} _.

Definition Cache : Type := list (string * CacheEntry (option ESQuery)).

Definition M (A : Type) : Type := Cache -> result A * Cache.

Definition ret {A} (a : A) : M A := fun c => (Ok a, c).

Definition lift {A} (r : result A) : M A := fun c => (r, c).

Definition throw {A} (e : error) : M A := lift (Throw e).

Definition bind {A B} (m : M A) (k : A -> M B) : M B :=
  fun c =>
    match m c with
    | (Ok a, c') => k a c'
    | (Throw e, c') => (Throw e, c')
    | (Inherited key, c') => (Inherited key, c')
    | (OutOfFuel, c') => (OutOfFuel, c')
    end.

Notation "'let!' x ':=' m 'in' k" := (bind m (fun x => k))
  (at level 10, x pattern, m at level 100, k at level 200).

Definition modify (f : Cache -> Cache) : M unit := fun c => (Ok tt, f c).

(** [array.map(f)] for an effectful [f], left to right. *)
Fixpoint mapM {A B} (f : A -> M B) (l : list A) : M (list B) :=
  match l with
  | [] => ret []
  | x :: rest =>
      let! y := f x in
      let! ys := mapM f rest in
      ret (y :: ys)
  end.

(** [array.reduce(f, init)] for an effectful [f]. *)
Fixpoint foldM {A B} (f : A -> B -> M A) (a : A) (l : list B) : M A :=
  match l with
  | [] => ret a
  | x :: rest =>
      let! a' := f a x in
      foldM f a' rest
  end.

(** ** [src/utils/query-handlers/special.ts] *)

(** The signature of [parseQuery] as the handlers call it. *)
Definition Parser : Type := value -> string -> Z -> nat -> M (option ESQuery).

Definition array_items (v : value) : list value :=
  match v with
  | VArr items => items
  | _ => []
  end.

Definition object_props (v : value) : list (string * value) :=
  match v with
  | VObj props => props
  | _ => []
  end.

Definition is_undefined (v : value) : bool :=
  match v with
  | VUndefined => true
  | _ => false
  end.

Definition is_nullish (v : value) : bool :=
  match v with
  | VNull | VUndefined => true
  | _ => false
  end.

(** [.filter((parsed) => !!parsed)] on results of [parseQuery]. *)
Definition non_null (parsed : list (option ESQuery)) : list ESQuery :=
  omap id parsed.

Definition bool_clause (parsed : ESQuery) : value :=
  VObj [("bool", esquery_value parsed)].

Definition handle_or (parseQuery : Parser) (v : value) (esQuery : ESQuery)
    (idProp : string) (maxDepth : Z) (currentDepth : nat) : M ESQuery :=
  let arrayValue := array_items v in
  let! _ := lift (validateType v "$or" [TArray]) in
  let! parsed := mapM (fun subQuery => parseQuery subQuery idProp maxDepth (S currentDepth))
                      arrayValue in
  ret (set_minimum_should_match 1
         (push_section Should (bool_clause <$> non_null parsed) esQuery)).

(** The body of the [forEach] over [Object.keys(parsed)] in [$and]. *)
Definition merge_section (s : SectionName) (parsed esQuery : ESQuery) : ESQuery :=
  match get_section s parsed with
  | Some clauses => set_section s (section_or_empty s esQuery ++ clauses) esQuery
  | None => esQuery
  end.

Definition merge_parsed (esQuery parsed : ESQuery) : ESQuery :=
  let q := merge_section Must parsed esQuery in
  let q := merge_section Filter parsed q in
  let q := merge_section Should parsed q in
  let q := merge_section MustNot parsed q in
  match es_minimum_should_match parsed with
  | Some n => set_minimum_should_match n q
  | None => q
  end.

Definition handle_and (parseQuery : Parser) (v : value) (esQuery : ESQuery)
    (idProp : string) (maxDepth : Z) (currentDepth : nat) : M ESQuery :=
  let arrayValue := array_items v in
  let! _ := lift (validateType v "$and" [TArray]) in
  let! parsed := mapM (fun subQuery => parseQuery subQuery idProp maxDepth (S currentDepth))
                      arrayValue in
  ret (foldl merge_parsed esQuery (non_null parsed)).

Definition handle_all (v : value) (esQuery : ESQuery) : M ESQuery :=
  if negb (truthy v) then ret esQuery
  else ret (push_section Must [VObj [("match_all", VObj [])]] esQuery).

Definition handle_sqs (v : value) (esQuery : ESQuery) : M ESQuery :=
  if is_nullish v then ret esQuery
  else
    let! _ := lift (validateType v "$sqs" [TObject]) in
    let! _ := lift (validateType (get_prop "$fields" v) "$sqs.$fields" [TArray]) in
    let! _ := lift (validateType (get_prop "$query" v) "$sqs.$query" [TString]) in
    let! _ := (if truthy (get_prop "$operator" v)
               then lift (validateType (get_prop "$operator" v) "$sqs.$operator" [TString])
               else ret TUndefined) in
    let! sanitizedQuery :=
      lift (sanitizeQueryString
              (match get_prop "$query" v with VStr q => q | _ => "" end) 500) in
    ret (push_section Must
           [VObj [("simple_query_string",
                   VObj [("fields", get_prop "$fields" v);
                         ("query", VStr sanitizedQuery);
                         ("default_operator",
                          if truthy (get_prop "$operator" v)
                          then get_prop "$operator" v else VStr "or")])]]
           esQuery).

Definition handle_nested (parseQuery : Parser) (v : value) (esQuery : ESQuery)
    (idProp : string) (maxDepth : Z) (currentDepth : nat) : M ESQuery :=
  if is_nullish v then ret esQuery
  else
    let! _ := lift (validateType v "$nested" [TObject]) in
    let! _ := lift (validateType (get_prop "$path" v) "$nested.$path" [TString]) in
    let! subQuery := parseQuery (VObj (removeProps (object_props v) ["$path"]))
                                idProp maxDepth (S currentDepth) in
    match subQuery with
    | None => ret esQuery
    | Some sub =>
        ret (push_section Must
               [VObj [("nested",
                       VObj [("path", get_prop "$path" v);
                             ("query", bool_clause sub)])]]
               esQuery)
    end.

Inductive JoinKind : Type := Child | Parent.

Definition join_operator (queryType : JoinKind) : string :=
  match queryType with Child => "$child" | Parent => "$parent" end.

Definition handle_childOrParent (queryType : JoinKind) (parseQuery : Parser) (v : value)
    (esQuery : ESQuery) (idProp : string) (maxDepth : Z) (currentDepth : nat) : M ESQuery :=
  let queryName := match queryType with Child => "has_child" | Parent => "has_parent" end in
  let typeName := match queryType with Child => "type" | Parent => "parent_type" end in
  if is_nullish v then ret esQuery
  else
    let! _ := lift (validateType v (join_operator queryType) [TObject]) in
    let! _ := lift (validateType (get_prop "$type" v)
                                 (join_operator queryType +:+ ".$type") [TString]) in
    let! subQuery := parseQuery (VObj (removeProps (object_props v) ["$type"]))
                                idProp maxDepth (S currentDepth) in
    match subQuery with
    | None => ret esQuery
    | Some sub =>
        ret (push_section Must
               [VObj [(queryName,
                       VObj [(typeName, get_prop "$type" v);
                             ("query", bool_clause sub)])]]
               esQuery)
    end.

(** The [map] of [$existsOr$missing], which validates element [i] before
    building its clause. *)
Fixpoint exists_clauses (operatorName : string) (i : nat) (vals : list value)
    : result (list value) :=
  match vals with
  | [] => Ok []
  | val :: rest =>
      match validateType val (operatorName +:+ "[" +:+ pretty i +:+ "]") [TString] with
      | Ok _ =>
          match exists_clauses operatorName (S i) rest with
          | Ok clauses => Ok (VObj [("exists", VObj [("field", val)])] :: clauses)
          | other => other
          end
      | Throw e => Throw e
      | Inherited k => Inherited k
      | OutOfFuel => OutOfFuel
      end
  end.

Definition handle_existsOrMissing (clause : SectionName) (v : value) (esQuery : ESQuery)
    : M ESQuery :=
  if is_nullish v then ret esQuery
  else
    let operatorName := match clause with Must => "$exists" | _ => "$missing" end in
    let! _ := lift (validateType v operatorName [TArray]) in
    let! values := lift (exists_clauses operatorName 0 (array_items v)) in
    ret (set_section clause (section_or_empty clause esQuery ++ values) esQuery).

(** ** Cache keys: [normalizeObject], [JSON.stringify] and [hashQuery] *)

Fixpoint insert_by {A} (le : A -> A -> bool) (x : A) (l : list A) : list A :=
  match l with
  | [] => [x]
  | y :: rest => if le x y then x :: l else y :: insert_by le x rest
  end.

(** [Array.prototype.sort] is stable. *)
Definition stable_sort {A} (le : A -> A -> bool) (l : list A) : list A :=
  foldr (insert_by le) [] l.

Definition char_code (a : ascii) : Z := Z.of_N (Ascii.N_of_ascii a).

Definition is_digit (a : ascii) : bool := (48 <=? char_code a) && (char_code a <=? 57).

Fixpoint digits_value (s : string) (acc : Z) : option Z :=
  match s with
  | EmptyString => Some acc
  | String a rest =>
      if is_digit a then digits_value rest (10 * acc + (char_code a - 48)) else None
  end.

(** A property name is an array index when it is the canonical decimal
    form of an integer below [2^32 - 1]. *)
Definition array_index (s : string) : option Z :=
  match s with
  | EmptyString => None
  | String a rest =>
      if char_code a =? 48 then
        match rest with EmptyString => Some 0 | _ => None end
      else
        match digits_value s 0 with
        | Some n => if n <? 2 ^ 32 - 1 then Some n else None
        | None => None
        end
  end.

(** Enumeration order of an object whose properties were created in the
    order of [props]: array indices ascending, then the other names in
    creation order. *)
Definition own_property_order {A} (props : list (string * A)) : list (string * A) :=
  stable_sort (fun p q => default 0 (array_index p.1) <=? default 0 (array_index q.1))
              (filter (fun p => is_Some (array_index p.1)) props)
  ++ filter (fun p => ¬ is_Some (array_index p.1)) props.

Fixpoint normalizeObject (obj : value) : value :=
  match obj with
  | VNaN => VStr "__NaN__"
  | VArr items => VArr (normalizeObject <$> items)
  | VObj props =>
      VObj (own_property_order
              (assign_fresh
                 (stable_sort (fun p q => String.leb p.1 q.1)
                              ((fun kv => (kv.1, normalizeObject kv.2)) <$> props))))
  | _ => obj
  end.

Definition str1 (code : Z) : string :=
  String (Ascii.ascii_of_N (Z.to_N code)) EmptyString.

Definition hex_digit (n : Z) : string :=
  str1 (if n <? 10 then 48 + n else 87 + n).

(** [QuoteJSONString] on one code unit. *)
Definition json_escape (a : ascii) : string :=
  let n := char_code a in
  if n =? 34 then str1 92 +:+ str1 34
  else if n =? 92 then str1 92 +:+ str1 92
  else if n =? 8 then str1 92 +:+ "b"
  else if n =? 12 then str1 92 +:+ "f"
  else if n =? 10 then str1 92 +:+ "n"
  else if n =? 13 then str1 92 +:+ "r"
  else if n =? 9 then str1 92 +:+ "t"
  else if n <? 32 then str1 92 +:+ "u00" +:+ hex_digit (n / 16) +:+ hex_digit (n mod 16)
  else String a EmptyString.

Fixpoint json_escape_all (s : string) : string :=
  match s with
  | EmptyString => EmptyString
  | String a rest => json_escape a +:+ json_escape_all rest
  end.

Definition json_quote (s : string) : string := str1 34 +:+ json_escape_all s +:+ str1 34.

(** [JSON.stringify(v)] for [v] inside an array or an object.  An
    [undefined] array element prints as [null]; an [undefined] property is
    left out; not-a-number prints as [null]. *)
Fixpoint json_text (v : value) : string :=
  match v with
  | VUndefined | VNull | VNaN => "null"
  | VBool true => "true"
  | VBool false => "false"
  | VNum n => pretty n
  | VStr s => json_quote s
  | VArr items => "[" +:+ join_names "," (json_text <$> items) +:+ "]"
  | VObj props =>
      "{" +:+ join_names ","
                (omap (fun kv => if is_undefined kv.2 then None
                                 else Some (json_quote kv.1 +:+ ":" +:+ json_text kv.2))
                      props)
          +:+ "}"
  end.

(** [crypto.createHash('sha256')]: FIPS 180-4 on 32-bit words. *)
Module SHA256.

Definition w32 (x : Z) : Z := Z.land x 0xffffffff.
Definition add32 (x y : Z) : Z := w32 (x + y).
Definition rotr (n x : Z) : Z := Z.lor (Z.shiftr x n) (w32 (Z.shiftl x (32 - n))).
Definition xor3 (a b c : Z) : Z := Z.lxor (Z.lxor a b) c.
Definition Ch (x y z : Z) : Z := Z.lxor (Z.land x y) (Z.land (Z.lxor x 0xffffffff) z).
Definition Maj (x y z : Z) : Z := xor3 (Z.land x y) (Z.land x z) (Z.land y z).
Definition Sigma0 (x : Z) : Z := xor3 (rotr 2 x) (rotr 13 x) (rotr 22 x).
Definition Sigma1 (x : Z) : Z := xor3 (rotr 6 x) (rotr 11 x) (rotr 25 x).
Definition sigma0 (x : Z) : Z := xor3 (rotr 7 x) (rotr 18 x) (Z.shiftr x 3).
Definition sigma1 (x : Z) : Z := xor3 (rotr 17 x) (rotr 19 x) (Z.shiftr x 10).

(** The round constants are the first 32 bits of the fractional parts of
    the cube roots of the first 64 primes; the initial hash value is made
    of those of the square roots of the first 8. *)
Definition is_prime (n : Z) : bool :=
  forallb (fun d => negb (n mod d =? 0)) (seqZ 2 (n - 2)).

Definition primes : list Z := filter (fun n => is_prime n = true) (seqZ 2 310).

(** The integer cube root, one bit at a time. *)
Definition cube_root (n : Z) : Z :=
  foldl (fun r bit => let r' := r + 2 ^ bit in if r' * r' * r' <=? n then r' else r)
        0 (reverse (seqZ 0 40)).

Definition K : list Z := (fun p => w32 (cube_root (p * 2 ^ 96))) <$> primes.

Definition H0 : list Z := (fun p => w32 (Z.sqrt (p * 2 ^ 64))) <$> take 8 primes.

(** Padding: a one bit, zeros up to 56 modulo 64, the bit length on 8 bytes. *)
Definition pad (msg : list Z) : list Z :=
  let len := Z.of_nat (length msg) in
  let zeros := Z.to_nat ((55 - len) mod 64) in
  msg ++ [0x80] ++ replicate zeros 0
      ++ ((fun i => Z.land (Z.shiftr (8 * len) (8 * (7 - Z.of_nat i))) 0xff) <$> seq 0 8).

Fixpoint words (bytes : list Z) (n : nat) : list Z :=
  match n, bytes with
  | S n', a :: b :: c :: d :: rest =>
      (Z.shiftl a 24 + Z.shiftl b 16 + Z.shiftl c 8 + d) :: words rest n'
  | _, _ => []
  end.

(** The message schedule, most recent word first. *)
Fixpoint extend (n : nat) (rev_w : list Z) : list Z :=
  match n with
  | O => rev_w
  | S n' =>
      let w i := nth i rev_w 0 in
      extend n' (add32 (add32 (sigma1 (w 1%nat)) (w 6%nat))
                       (add32 (sigma0 (w 14%nat)) (w 15%nat)) :: rev_w)
  end.

Definition round (st : list Z) (kw : Z * Z) : list Z :=
  match st with
  | [a; b; c; d; e; f; g; h] =>
      let t1 := add32 (add32 (add32 h (Sigma1 e)) (add32 (Ch e f g) kw.1)) kw.2 in
      let t2 := add32 (Sigma0 a) (Maj a b c) in
      [add32 t1 t2; a; b; c; add32 d t1; e; f; g]
  | _ => st
  end.

Definition compress (h : list Z) (block : list Z) : list Z :=
  let w := rev (extend 48 (rev (words block 16))) in
  zip_with add32 h (foldl round h (zip K w)).

Fixpoint blocks (n : nat) (bytes : list Z) (h : list Z) : list Z :=
  match n with
  | O => h
  | S n' => blocks n' (drop 64 bytes) (compress h (take 64 bytes))
  end.

Definition digest (msg : list Z) : list Z :=
  let padded := pad msg in
  blocks (length padded / 64) padded H0.

Definition hex32 (x : Z) : string :=
  foldr (fun i acc => hex_digit (Z.land (Z.shiftr x (4 * (7 - Z.of_nat i))) 0xf) +:+ acc)
        EmptyString (seq 0 8).

Definition hex (h : list Z) : string := foldr (fun x acc => hex32 x +:+ acc) EmptyString h.

End SHA256.

(** [update(string)] encodes the text as UTF-8. *)
Fixpoint utf8 (s : string) : list Z :=
  match s with
  | EmptyString => []
  | String a rest =>
      let n := char_code a in
      if n <? 128 then n :: utf8 rest
      else Z.lor 0xc0 (Z.shiftr n 6) :: Z.lor 0x80 (Z.land n 0x3f) :: utf8 rest
  end.

Fixpoint string_take (n : nat) (s : string) : string :=
  match n, s with
  | S n', String a rest => String a (string_take n' rest)
  | _, _ => EmptyString
  end.

Definition hashQuery (query : value) (idProp : string) : string :=
  let normalized := json_text (normalizeObject query) in
  string_take 16 (SHA256.hex (SHA256.digest (utf8 (normalized +:+ ":" +:+ idProp)))).

(** ** [src/utils/parse-query.ts] *)

Definition CACHE_MAX_SIZE : Z := 1000.
Definition CACHE_MAX_AGE : Z := 5 * 60 * 1000.

(** [queryCache.get(key)] *)
Definition cache_get {R} (key : string) (queryCache : list (string * CacheEntry R))
    : option (CacheEntry R) :=
  assoc key queryCache.

(** [queryCache.set(key, entry)]: a key already present keeps its place. *)
Fixpoint cache_set {R} (key : string) (entry : CacheEntry R)
    (queryCache : list (string * CacheEntry R)) : list (string * CacheEntry R) :=
  match queryCache with
  | [] => [(key, entry)]
  | (k, e) :: rest =>
      if String.eqb key k then (k, entry) :: rest else (k, e) :: cache_set key entry rest
  end.

(** [queryCache.delete(key)] *)
Definition cache_delete {R} (key : string) (queryCache : list (string * CacheEntry R))
    : list (string * CacheEntry R) :=
  filter (fun kv => kv.1 ≠ key) queryCache.

Definition cleanCache {R} (now : Z) (queryCache : list (string * CacheEntry R))
    : list (string * CacheEntry R) :=
  let toDelete :=
    fst <$> filter (fun kv => CACHE_MAX_AGE < now - entry_timestamp kv.2) queryCache in
  let queryCache := foldl (fun c key => cache_delete key c) queryCache toDelete in
  if Z.of_nat (length queryCache) >? CACHE_MAX_SIZE then
    let entries :=
      stable_sort (fun a b => entry_timestamp a.2 <=? entry_timestamp b.2) queryCache in
    let toRemove := take (Z.to_nat (Z.of_nat (length queryCache) - CACHE_MAX_SIZE)) entries in
    foldl (fun c kv => cache_delete kv.1 c) queryCache toRemove
  else queryCache.

(** [JSON.parse(JSON.stringify(v))] for [v] inside an array or an object. *)
Fixpoint json_clone (v : value) : value :=
  match v with
  | VUndefined | VNaN => VNull
  | VArr items => VArr (json_clone <$> items)
  | VObj props =>
      VObj (omap (fun kv => if is_undefined kv.2 then None
                            else Some (kv.1, json_clone kv.2)) props)
  | _ => v
  end.

Definition clone_section (o : option (list value)) : option (list value) :=
  match o with
  | Some clauses => Some (json_clone <$> clauses)
  | None => None
  end.

(** [JSON.parse(JSON.stringify(cached.result))] *)
Definition clone_esquery (q : ESQuery) : ESQuery :=
  mkESQuery (clone_section (es_must q)) (clone_section (es_filter q))
            (clone_section (es_should q)) (clone_section (es_must_not q))
            (es_minimum_should_match q).

(** What one top-level call reads from its environment: whether
    [Math.random() < 0.01], and the two values of [Date.now()]. *)
Record Env : Type := mkEnv {
  random_below : bool;
  clean_time : Z;
  store_time : Z
}.

Definition HandlerFn : Type :=
  Parser -> value -> ESQuery -> string -> Z -> nat -> M ESQuery.

Definition handlerTable : list (string * HandlerFn) :=
  [ ("$or", handle_or);
    ("$and", handle_and);
    ("$all", fun _ v esQuery _ _ _ => handle_all v esQuery);
    ("$sqs", fun _ v esQuery _ _ _ => handle_sqs v esQuery);
    ("$nested", handle_nested);
    ("$exists", fun _ v esQuery _ _ _ => handle_existsOrMissing Must v esQuery);
    ("$missing", fun _ v esQuery _ _ _ => handle_existsOrMissing MustNot v esQuery);
    ("$child", handle_childOrParent Child);
    ("$parent", handle_childOrParent Parent) ].

Inductive Lookup : Type :=
| Own (handler : HandlerFn)
| InheritedMember
| Absent.

(** [specialQueryHandlers[key]] *)
Definition specialQueryHandlers (key : string) : Lookup :=
  match assoc key handlerTable with
  | Some handler => Own handler
  | None => if bool_decide (key ∈ object_prototype_members) then InheritedMember else Absent
  end.

Definition depth_message (maxDepth : Z) : string :=
  "Query nesting exceeds maximum depth of " +:+ pretty maxDepth.

(** The callback of the [reduce] over [Object.entries(query)].  At a key
    that resolves to an inherited member the run over trees ends with
    [Inherited key]; see [result]. *)
Definition reduce_step (parseQuery : Parser) (idProp : string) (maxDepth : Z)
    (currentDepth : nat) (esQuery : ESQuery) (entry : string * value) : M ESQuery :=
  let v := entry.2 in
  let type := getType v in
  let key := if String.eqb entry.1 idProp then "_id" else entry.1 in
  match specialQueryHandlers key with
  | Own handler => handler parseQuery v esQuery idProp maxDepth currentDepth
  | InheritedMember => lift (Inherited key)
  | Absent =>
      let! _ := lift (validateType v key [TNumber; TString; TBoolean; TUndefined; TObject; TArray]) in
      if bool_decide (type ≠ TObject) then ret (processTermQuery key v esQuery)
      else lift (processCriteria key (object_props v) esQuery)
  end.

(** The body of [parseQuery], with the function it calls on sub-filters as
    a parameter. *)
Definition parseQuery_body (parseQuery : Parser) (env : Env) (query : value)
    (idProp : string) (maxDepth : Z) (currentDepth : nat) : M (option ESQuery) :=
  let! _ := lift (validateType query "query" [TObject; TNull; TUndefined]) in
  if is_nullish query then ret None
  else fun queryCache =>
    match (if Nat.eqb currentDepth 0 then cache_get (hashQuery query idProp) queryCache
           else None) with
    | Some cached => (Ok (clone_esquery <$> entry_result cached), queryCache)
    | None =>
        (if Z.of_nat currentDepth >? maxDepth then throw (BadRequest (depth_message maxDepth))
         else
           let! _ := (if Nat.eqb currentDepth 0 && random_below env
                      then modify (cleanCache (clean_time env)) else ret tt) in
           let! bool := foldM (reduce_step parseQuery idProp maxDepth currentDepth)
                              es_empty (object_props query) in
           let queryResult := if Nat.eqb (key_count bool) 0 then None else Some bool in
           let! _ := (if Nat.eqb currentDepth 0
                      then modify (cache_set (hashQuery query idProp)
                                             (mkCacheEntry queryResult (store_time env)))
                      else ret tt) in
           ret queryResult) queryCache
    end.

Fixpoint parseQuery_fuel (fuel : nat) (env : Env) (query : value)
    (idProp : string) (maxDepth : Z) (currentDepth : nat) : M (option ESQuery) :=
  match fuel with
  | O => lift OutOfFuel
  | S fuel' => parseQuery_body (parseQuery_fuel fuel' env) env query idProp maxDepth currentDepth
  end.

(** [parseQuery(query, idProp, maxDepth, currentDepth)] in environment [env],
    started from cache state [queryCache]. *)
Definition parseQuery (env : Env) (query : value) (idProp : string) (maxDepth : Z)
    (currentDepth : nat) : M (option ESQuery) :=
  parseQuery_fuel (S (height query)) env query idProp maxDepth currentDepth.

(** ** [src/utils/security.ts]: the complexity calculator *)

Definition is_object_type (v : value) : bool :=
  match v with
  | VNull | VArr _ | VObj _ => true
  | _ => false
  end.

Definition sumZ (l : list Z) : Z := foldr Z.add 0 l.

(** What one key of the loop adds beyond its base cost of 1, with the
    recursive call as a parameter. *)
Definition key_surcharge (calc : value -> Z) (key : string) (v : value) : Z :=
  if String.eqb key "$wildcard" then 5
  else if String.eqb key "$regexp" then 8
  else if String.eqb key "$fuzzy" then 6
  else if String.eqb key "$prefix" then 3
  else if String.eqb key "$script" then 15
  else if String.eqb key "$or" || String.eqb key "$and" then
    match v with
    | VArr items => sumZ ((fun item => calc item * 2) <$> items)
    | _ => 0
    end
  else if String.eqb key "$nested" then
    if is_object_type v then calc v * 10 else 0
  else if String.eqb key "$child" || String.eqb key "$parent" then
    if is_object_type v then calc v * 3 else 0
  else
    match v with
    | VNull | VObj _ => calc v
    | VArr items => Z.min (Z.of_nat (length items)) 100
    | _ => 0
    end.

(** The keys of an array are its indices, none of which names an operator,
    so an element is charged as the value of a plain key. *)
Fixpoint calculateQueryComplexity (query : value) : Z :=
  match query with
  | VObj props =>
      sumZ ((fun kv => 1 + key_surcharge calculateQueryComplexity kv.1 kv.2) <$> props)
  | VArr items =>
      sumZ ((fun item => 1 + match item with
                             | VNull | VObj _ => calculateQueryComplexity item
                             | VArr sub => Z.min (Z.of_nat (length sub)) 100
                             | _ => 0
                             end) <$> items)
  | _ => 0
  end.

(** ** [src/utils/security.ts]: sanitizing and the other validators *)

Definition DANGEROUS_KEYS : list string := ["__proto__"; "constructor"; "prototype"].

(** [sanitizeObject(obj)].  No value of this development is a [Date].  The
    copy is filled in the enumeration order of the keys, which it keeps. *)
Fixpoint sanitizeObject (obj : value) : value :=
  match obj with
  | VArr items => VArr (sanitizeObject <$> items)
  | VObj props =>
      VObj (omap (fun kv => if bool_decide (kv.1 ∈ DANGEROUS_KEYS) then None
                            else Some (kv.1, sanitizeObject kv.2)) props)
  | _ => obj
  end.

Definition nestedOperators : list string := ["$or"; "$and"; "$nested"; "$child"; "$parent"].

(** A sequence of checks, stopped by the first that fails. *)
Fixpoint all_ok (checks : list (result unit)) : result unit :=
  match checks with
  | [] => Ok tt
  | Ok _ :: rest => all_ok rest
  | other :: _ => other
  end.

(** What the loop of [validateQueryDepth] does with one key, with the
    recursive call as a parameter. *)
Definition visit_key (validate : value -> result unit) (key : string) (v : value)
    : result unit :=
  if bool_decide (key ∈ nestedOperators) then
    match v with
    | VArr items => all_ok (validate <$> items)
    | VObj _ => validate v
    | _ => Ok tt
    end
  else
    match v with
    | VObj _ => validate v
    | _ => Ok tt
    end.

(** [validateQueryDepth(query, maxDepth, currentDepth)].  The keys of an
    array are its indices, none of which names a nested operator. *)
Fixpoint validateQueryDepth (query : value) (maxDepth : Z) (currentDepth : nat) : result unit :=
  match query with
  | VObj props =>
      if Z.of_nat currentDepth >? maxDepth then Throw (BadRequest (depth_message maxDepth))
      else
        all_ok ((fun kv => visit_key (fun sub => validateQueryDepth sub maxDepth (S currentDepth))
                                     kv.1 kv.2) <$> props)
  | VArr items =>
      if Z.of_nat currentDepth >? maxDepth then Throw (BadRequest (depth_message maxDepth))
      else
        all_ok ((fun item =>
                   match item with
                   | VObj _ => validateQueryDepth item maxDepth (S currentDepth)
                   | _ => Ok tt
                   end) <$> items)
  | _ => Ok tt
  end.

Definition validateQueryComplexity (query : value) (maxComplexity : Z) : result unit :=
  let complexity := calculateQueryComplexity query in
  if complexity >? maxComplexity then
    Throw (BadRequest ("Query complexity (" +:+ pretty complexity
                         +:+ ") exceeds maximum allowed (" +:+ pretty maxComplexity +:+ "). "
                         +:+ "Simplify your query by reducing nested conditions, wildcard searches, or array sizes."))
  else Ok tt.

Definition is_line_terminator (a : ascii) : bool :=
  (char_code a =? 10) || (char_code a =? 13).

Fixpoint has_line_terminator (s : string) : bool :=
  match s with
  | EmptyString => false
  | String a rest => is_line_terminator a || has_line_terminator rest
  end.

(** The replacement of the boost notation in [validateSearchableFields]:
    the expression is a caret, any run of characters other than line
    terminators, and the end of the string, so it matches from the first
    caret that no line terminator follows. *)
Fixpoint strip_boost (field : string) : string :=
  match field with
  | EmptyString => EmptyString
  | String a rest =>
      if (char_code a =? 94) && negb (has_line_terminator rest) then EmptyString
      else String a (strip_boost rest)
  end.

(** The loop of [validateSearchableFields]. *)
Fixpoint check_fields (requestedFields allowedFields : list string) : result unit :=
  match requestedFields with
  | [] => Ok tt
  | field :: rest =>
      if bool_decide (strip_boost field ∈ allowedFields) then check_fields rest allowedFields
      else Throw (BadRequest ("Field '" +:+ field +:+ "' is not searchable. Allowed fields: "
                                +:+ join_names ", " allowedFields))
  end.

Definition validateSearchableFields (requestedFields allowedFields : list string) : result unit :=
  if Nat.eqb (length allowedFields) 0 then Ok tt
  else check_fields requestedFields allowedFields.

(** ** [src/utils/core.ts]: query length and document descriptors *)

(** The fields of [ElasticAdapterInterface] that name properties of a
    document.  An optional field that is not set is [None]. *)
Record Service : Type := mkService {
  service_id : string;
  service_parent : option string;
  service_routing : option string;
  service_join : option string;
  service_meta : string
}.

(** [name || ''] *)
Definition or_empty (name : option string) : string := default "" name.

(** [getQueryLength(service, query)] *)
Definition getQueryLength (service : Service) (query : list (string * value)) : nat :=
  length (removeProps query [or_empty (service_routing service);
                             or_empty (service_parent service)]).

(** [object[k]] on an object whose prototype is [Object.prototype].  A name
    that is no own property and that the prototype defines reads a built-in
    member, which no value of this development stands for; the outcome is
    then [Inherited k]. *)
Definition read_member (k : string) (object : list (string * value)) : result value :=
  match assoc k object with
  | Some v => Ok v
  | None => if bool_decide (k ∈ object_prototype_members) then Inherited k else Ok VUndefined
  end.

Fixpoint replace_prop (k : string) (v : value) (object : list (string * value))
    : list (string * value) :=
  match object with
  | [] => []
  | (k', v') :: rest =>
      if String.eqb k k' then (k', v) :: rest else (k', v') :: replace_prop k v rest
  end.

(** [object[k] = v] on an object whose prototype is [Object.prototype]: an
    own property is overwritten in place, a new one is created last, and
    the name [__proto__], when it is no own property, reaches the accessor
    of the prototype. *)
Definition write_member (k : string) (v : value) (object : list (string * value))
    : result (list (string * value)) :=
  match assoc k object with
  | Some _ => Ok (replace_prop k v object)
  | None => if String.eqb k "__proto__" then Inherited k else Ok (object ++ [(k, v)])
  end.

(** [Object.assign(target, source)] for an object [source]. *)
Definition object_assign (target source : list (string * value))
    : result (list (string * value)) :=
  match fold_result (fun acc kv => write_member kv.1 kv.2 acc) target source with
  | Ok merged => Ok (own_property_order merged)
  | Throw e => Throw e
  | Inherited k => Inherited k
  | OutOfFuel => OutOfFuel
  end.

(** [String(v)].  An array prints its elements separated by commas, with
    nothing for [null] and [undefined]; an object prints through
    [Object.prototype.toString] unless an own property hides that method,
    in which case no primitive can be had. *)
Fixpoint to_string (v : value) : result string :=
  match v with
  | VUndefined => Ok "undefined"
  | VNull => Ok "null"
  | VBool true => Ok "true"
  | VBool false => Ok "false"
  | VNum n => Ok (pretty n)
  | VNaN => Ok "NaN"
  | VStr s => Ok s
  | VArr items =>
      (fix join (first : bool) (l : list value) : result string :=
         match l with
         | [] => Ok ""
         | x :: rest =>
             match (if is_nullish x then Ok "" else to_string x) with
             | Ok s =>
                 match join false rest with
                 | Ok tail => Ok ((if first then "" else ",") +:+ s +:+ tail)
                 | other => other
                 end
             | other => other
             end
         end) true items
  | VObj props =>
      match assoc "toString" props with
      | Some _ => Throw TypeError
      | None => Ok "[object Object]"
      end
  end.

Record DocDescriptor : Type := mkDocDescriptor {
  dd_id : option string;
  dd_parent : option string;
  dd_routing : option string;
  dd_join : option value;
  dd_doc : list (string * value)
}.

(** Sequencing of calls that can fail. *)
Definition and_then {A B} (r : result A) (k : A -> result B) : result B :=
  match r with
  | Ok a => k a
  | Throw e => Throw e
  | Inherited key => Inherited key
  | OutOfFuel => OutOfFuel
  end.

Notation "'let?' x ':=' r 'in' k" := (and_then r (fun x => k))
  (at level 10, x pattern, r at level 100, k at level 200).

(** [name && mergedData[name] ? String(mergedData[name]) : fallback] *)
Definition named_string (name : option string) (mergedData : list (string * value))
    (fallback : option string) : result (option string) :=
  match name with
  | Some field =>
      if String.eqb field "" then Ok fallback
      else
        let? v := read_member field mergedData in
        if truthy v then (let? s := to_string v in Ok (Some s)) else Ok fallback
  | None => Ok fallback
  end.

(** [getDocDescriptor(service, data, ...supplementaryData)].  The spread
    copy of [data] keeps every own property; each supplement is then
    assigned onto it. *)
Definition getDocDescriptor (service : Service) (data : list (string * value))
    (supplementaryData : list (list (string * value))) : result DocDescriptor :=
  let? mergedData := fold_result object_assign data supplementaryData in
  let? idValue := read_member (service_id service) mergedData in
  let? id := (if is_undefined idValue then Ok None
              else let? s := to_string idValue in Ok (Some s)) in
  let? parent := named_string (service_parent service) mergedData None in
  let? routing := named_string (service_routing service) mergedData parent in
  let? join := (match service_join service with
                | Some field =>
                    if String.eqb field "" then Ok None
                    else
                      let? v := read_member field mergedData in
                      Ok (if truthy v then Some v else None)
                | None => Ok None
                end) in
  let doc := removeProps data [ service_meta service;
                                service_id service;
                                or_empty (service_parent service);
                                or_empty (service_routing service);
                                or_empty (service_join service) ] in
  Ok (mkDocDescriptor id parent routing join doc).

(** * The translator over a store of objects

    The development above treats a filter as a tree.  To speak of what a
    call does to the caller's objects, this module runs the same code on a
    store: objects and arrays are cells at locations, values refer to them,
    and property assignment and [push] update cells in place. *)
Module Store.

Definition loc : Type := nat.

Inductive sval : Type :=
| SUndefined
| SNull
| SBool (b : bool)
| SNum (n : Z)
| SNaN
| SStr (s : string)
| SRef (l : loc).

Inductive cell : Type :=
| CArr (items : list sval)
| CObj (props : list (string * sval)).

Record state : Type := mkState {
  cells : list cell;
  queryCache : list (string * CacheEntry sval)
}.

Definition SM (A : Type) : Type := state -> result A * state.

Definition ret {A} (a : A) : SM A := fun st => (Ok a, st).

Definition lift {A} (r : result A) : SM A := fun st => (r, st).

Definition throw {A} (e : error) : SM A := lift (Throw e).

Definition bind {A B} (m : SM A) (k : A -> SM B) : SM B :=
  fun st =>
    match m st with
    | (Ok a, st') => k a st'
    | (Throw e, st') => (Throw e, st')
    | (Inherited key, st') => (Inherited key, st')
    | (OutOfFuel, st') => (OutOfFuel, st')
    end.

Notation "'let*' x ':=' m 'in' k" := (bind m (fun x => k))
  (at level 10, x pattern, m at level 100, k at level 200).

Fixpoint mapM {A B} (f : A -> SM B) (l : list A) : SM (list B) :=
  match l with
  | [] => ret []
  | x :: rest =>
      let* y := f x in
      let* ys := mapM f rest in
      ret (y :: ys)
  end.

Fixpoint foldM {A B} (f : A -> B -> SM A) (a : A) (l : list B) : SM A :=
  match l with
  | [] => ret a
  | x :: rest =>
      let* a' := f a x in
      foldM f a' rest
  end.

(** *** Cells *)

Definition read (l : loc) : SM (option cell) := fun st => (Ok (cells st !! l), st).

Definition alloc (c : cell) : SM sval :=
  fun st => (Ok (SRef (length (cells st))), mkState (cells st ++ [c]) (queryCache st)).

Definition write (l : loc) (c : cell) : SM unit :=
  fun st => (Ok tt, mkState (<[l := c]> (cells st)) (queryCache st)).

Definition new_object (props : list (string * sval)) : SM sval := alloc (CObj props).

Definition new_array (items : list sval) : SM sval := alloc (CArr items).

(** [Object.entries(v)] *)
Definition props_of (v : sval) : SM (list (string * sval)) :=
  match v with
  | SRef l =>
      let* c := read l in
      match c with
      | Some (CObj props) => ret props
      | _ => ret []
      end
  | _ => ret []
  end.

(** The elements of [v] when it is an array. *)
Definition items_of (v : sval) : SM (list sval) :=
  match v with
  | SRef l =>
      let* c := read l in
      match c with
      | Some (CArr items) => ret items
      | _ => ret []
      end
  | _ => ret []
  end.

(** [Array.isArray(v)] *)
Definition is_array (v : sval) : SM bool :=
  match v with
  | SRef l =>
      let* c := read l in
      match c with
      | Some (CArr _) => ret true
      | _ => ret false
      end
  | _ => ret false
  end.

Fixpoint lookup_field (k : string) (props : list (string * sval)) : sval :=
  match props with
  | [] => SUndefined
  | (k', x) :: rest => if String.eqb k k' then x else lookup_field k rest
  end.

Fixpoint assign (k : string) (x : sval) (props : list (string * sval))
    : list (string * sval) :=
  match props with
  | [] => [(k, x)]
  | (k', y) :: rest =>
      if String.eqb k k' then (k', x) :: rest else (k', y) :: assign k x rest
  end.

(** [v[k]] *)
Definition get_field (v : sval) (k : string) : SM sval :=
  let* props := props_of v in
  ret (lookup_field k props).

(** [v[k] = x].  In this module the target is always an object cell. *)
Definition set_field (v : sval) (k : string) (x : sval) : SM unit :=
  match v with
  | SRef l =>
      let* c := read l in
      match c with
      | Some (CObj props) => write l (CObj (assign k x props))
      | _ => ret tt
      end
  | _ => ret tt
  end.

(** [arr.push(...xs)] *)
Definition push (arr : sval) (xs : list sval) : SM unit :=
  match arr with
  | SRef a =>
      let* c := read a in
      match c with
      | Some (CArr items) => write a (CArr (items ++ xs))
      | _ => throw TypeError
      end
  | _ => throw TypeError
  end.

Definition truthy (v : sval) : bool :=
  match v with
  | SUndefined | SNull | SNaN => false
  | SBool b => b
  | SNum n => negb (n =? 0)
  | SStr s => negb (String.eqb s EmptyString)
  | SRef _ => true
  end.

Definition is_nullish (v : sval) : bool :=
  match v with
  | SNull | SUndefined => true
  | _ => false
  end.

(** *** [src/utils/core.ts] *)

Definition getType (v : sval) : SM ValidatorType :=
  match v with
  | SRef _ =>
      let* arr := is_array v in
      ret (if arr then TArray else TObject)
  | SNull => ret TNull
  | SUndefined => ret TUndefined
  | SBool _ => ret TBoolean
  | SNum _ => ret TNumber
  | SNaN => ret TNaN
  | SStr _ => ret TString
  end.

Definition validateType (v : sval) (name : string) (validators : list ValidatorType)
    : SM ValidatorType :=
  let* type := getType v in
  if bool_decide (type ∈ validators) then ret type
  else throw (BadRequest (invalid_type_message name validators type)).

(** [removeProps(object, ...props)]: [Object.assign({}, object)], then the
    deletions, on the fresh object. *)
Definition removeProps (object : sval) (props : list string) : SM sval :=
  let* own := props_of object in
  new_object (filter (fun kv => kv.1 ∉ props) (assign_fresh own)).

(** *** [src/utils/query-handlers/criteria.ts] *)

Definition section_key (s : SectionName) : string :=
  match s with
  | Must => "must"
  | Filter => "filter"
  | Should => "should"
  | MustNot => "must_not"
  end.

(** [esQuery[name] = esQuery[name] || []], returning the section. *)
Definition section_or_new (esQuery : sval) (name : string) : SM sval :=
  let* current := get_field esQuery name in
  if truthy current then ret current
  else
    let* fresh := new_array [] in
    let* _ := set_field esQuery name fresh in
    ret fresh.

(** [esQuery[name].push(...clauses)] *)
Definition push_field (esQuery : sval) (name : string) (clauses : list sval) : SM unit :=
  let* section := get_field esQuery name in
  push section clauses.

Definition criterion_step (key : string) (v esQuery : sval) (criterion : string) : SM unit :=
  match assoc criterion queryCriteriaMap with
  | Some (querySection, term, operand) =>
      let* current := get_field esQuery (section_key querySection) in
      let* arr := is_array current in
      let* _ := (if arr then ret tt
                 else let* fresh := new_array [] in
                      set_field esQuery (section_key querySection) fresh) in
      let* x := get_field v criterion in
      let* operandValue := (match operand with
                            | Some op => new_object [(op, x)]
                            | None => ret x
                            end) in
      let* inner := new_object [(key, operandValue)] in
      let* clause := new_object [(term, inner)] in
      push_field esQuery (section_key querySection) [clause]
  | None =>
      if bool_decide (criterion ∈ object_prototype_members) then
        throw TypeError
      else ret tt
  end.

Definition processCriteria (key : string) (v esQuery : sval) : SM sval :=
  let* own := props_of v in
  let* _ := foldM (fun _ criterion => criterion_step key v esQuery criterion) tt (fst <$> own) in
  ret esQuery.

Definition push_term (key : string) (esQuery : sval) (val : sval) : SM unit :=
  let* inner := new_object [(key, val)] in
  let* clause := new_object [("term", inner)] in
  push_field esQuery "filter" [clause].

Definition processTermQuery (key : string) (v esQuery : sval) : SM sval :=
  let* _ := section_or_new esQuery "filter" in
  let* arr := is_array v in
  let* _ := (if arr
             then let* vals := items_of v in
                  foldM (fun _ val => push_term key esQuery val) tt vals
             else push_term key esQuery v) in
  ret esQuery.

(** *** [src/utils/query-handlers/special.ts] *)

Definition Parser : Type := sval -> string -> Z -> nat -> SM sval.

Fixpoint chars (s : string) : list sval :=
  match s with
  | EmptyString => []
  | String a rest => SStr (String a EmptyString) :: chars rest
  end.

(** The elements that [...(current || [])] spreads. *)
Definition spread_or_empty (current : sval) : SM (list sval) :=
  if truthy current then
    match current with
    | SRef _ =>
        let* arr := is_array current in
        if arr then items_of current else throw TypeError
    | SStr s => ret (chars s)
    | _ => throw TypeError
    end
  else ret [].

Definition handle_or (parseQuery : Parser) (v esQuery : sval)
    (idProp : string) (maxDepth : Z) (currentDepth : nat) : SM sval :=
  let* _ := validateType v "$or" [TArray] in
  let* should := section_or_new esQuery "should" in
  let* arrayValue := items_of v in
  let* parsed := mapM (fun subQuery => parseQuery subQuery idProp maxDepth (S currentDepth))
                      arrayValue in
  let* clauses := mapM (fun p => new_object [("bool", p)]) (filter (fun p => truthy p) parsed) in
  let* _ := push should clauses in
  let* _ := set_field esQuery "minimum_should_match" (SNum 1) in
  ret esQuery.

(** The body of the [forEach] over [Object.keys(parsed)] in [$and]. *)
Definition merge_key (esQuery parsed : sval) (key : string) : SM unit :=
  if String.eqb key "minimum_should_match" then
    let* x := get_field parsed key in
    set_field esQuery key x
  else
    let* clauses := get_field parsed key in
    let* arr := is_array clauses in
    if arr then
      let* current := get_field esQuery key in
      let* old := spread_or_empty current in
      let* new := items_of clauses in
      let* merged := new_array (old ++ new) in
      set_field esQuery key merged
    else ret tt.

Definition handle_and (parseQuery : Parser) (v esQuery : sval)
    (idProp : string) (maxDepth : Z) (currentDepth : nat) : SM sval :=
  let* _ := validateType v "$and" [TArray] in
  let* arrayValue := items_of v in
  let* parsed := mapM (fun subQuery => parseQuery subQuery idProp maxDepth (S currentDepth))
                      arrayValue in
  let* _ := foldM (fun _ p =>
                     let* own := props_of p in
                     foldM (fun _ key => merge_key esQuery p key) tt (fst <$> own))
                  tt (filter (fun p => truthy p) parsed) in
  ret esQuery.

Definition handle_all (v esQuery : sval) : SM sval :=
  if negb (truthy v) then ret esQuery
  else
    let* _ := section_or_new esQuery "must" in
    let* inner := new_object [] in
    let* clause := new_object [("match_all", inner)] in
    let* _ := push_field esQuery "must" [clause] in
    ret esQuery.

Definition handle_sqs (v esQuery : sval) : SM sval :=
  if is_nullish v then ret esQuery
  else
    let* _ := validateType v "$sqs" [TObject] in
    let* fields := get_field v "$fields" in
    let* _ := validateType fields "$sqs.$fields" [TArray] in
    let* query := get_field v "$query" in
    let* _ := validateType query "$sqs.$query" [TString] in
    let* operator := get_field v "$operator" in
    let* _ := (if truthy operator then validateType operator "$sqs.$operator" [TString]
               else ret TUndefined) in
    let* sanitizedQuery :=
      lift (sanitizeQueryString (match query with SStr q => q | _ => EmptyString end) 500) in
    let* _ := section_or_new esQuery "must" in
    let* inner := new_object [("fields", fields);
                              ("query", SStr sanitizedQuery);
                              ("default_operator",
                               if truthy operator then operator else SStr "or")] in
    let* clause := new_object [("simple_query_string", inner)] in
    let* _ := push_field esQuery "must" [clause] in
    ret esQuery.

(** The clause that [$nested], [$child] and [$parent] push onto [must]. *)
Definition push_scoped (esQuery : sval) (queryName typeName : string)
    (scope subQuery : sval) : SM sval :=
  let* _ := section_or_new esQuery "must" in
  let* wrapped := new_object [("bool", subQuery)] in
  let* inner := new_object [(typeName, scope); ("query", wrapped)] in
  let* clause := new_object [(queryName, inner)] in
  let* _ := push_field esQuery "must" [clause] in
  ret esQuery.

Definition handle_nested (parseQuery : Parser) (v esQuery : sval)
    (idProp : string) (maxDepth : Z) (currentDepth : nat) : SM sval :=
  if is_nullish v then ret esQuery
  else
    let* _ := validateType v "$nested" [TObject] in
    let* path := get_field v "$path" in
    let* _ := validateType path "$nested.$path" [TString] in
    let* rest := removeProps v ["$path"] in
    let* subQuery := parseQuery rest idProp maxDepth (S currentDepth) in
    if negb (truthy subQuery) then ret esQuery
    else push_scoped esQuery "nested" "path" path subQuery.

Definition handle_childOrParent (queryType : JoinKind) (parseQuery : Parser) (v esQuery : sval)
    (idProp : string) (maxDepth : Z) (currentDepth : nat) : SM sval :=
  let queryName := match queryType with Child => "has_child" | Parent => "has_parent" end in
  let typeName := match queryType with Child => "type" | Parent => "parent_type" end in
  if is_nullish v then ret esQuery
  else
    let* _ := validateType v (join_operator queryType) [TObject] in
    let* type := get_field v "$type" in
    let* _ := validateType type (join_operator queryType +:+ ".$type") [TString] in
    let* rest := removeProps v ["$type"] in
    let* subQuery := parseQuery rest idProp maxDepth (S currentDepth) in
    if negb (truthy subQuery) then ret esQuery
    else push_scoped esQuery queryName typeName type subQuery.

Fixpoint exists_clauses (operatorName : string) (i : nat) (vals : list sval)
    : SM (list sval) :=
  match vals with
  | [] => ret []
  | val :: rest =>
      let* _ := validateType val (operatorName +:+ "[" +:+ pretty i +:+ "]") [TString] in
      let* inner := new_object [("field", val)] in
      let* clause := new_object [("exists", inner)] in
      let* clauses := exists_clauses operatorName (S i) rest in
      ret (clause :: clauses)
  end.

Definition handle_existsOrMissing (clause : SectionName) (v esQuery : sval) : SM sval :=
  if is_nullish v then ret esQuery
  else
    let operatorName := match clause with Must => "$exists" | _ => "$missing" end in
    let* _ := validateType v operatorName [TArray] in
    let* vals := items_of v in
    let* values := exists_clauses operatorName 0 vals in
    let* current := get_field esQuery (section_key clause) in
    let* old := spread_or_empty current in
    let* merged := new_array (old ++ values) in
    let* _ := set_field esQuery (section_key clause) merged in
    ret esQuery.

(** *** [src/utils/parse-query.ts] *)

Definition HandlerFn : Type := Parser -> sval -> sval -> string -> Z -> nat -> SM sval.

Definition handlerTable : list (string * HandlerFn) :=
  [ ("$or", handle_or);
    ("$and", handle_and);
    ("$all", fun _ v esQuery _ _ _ => handle_all v esQuery);
    ("$sqs", fun _ v esQuery _ _ _ => handle_sqs v esQuery);
    ("$nested", handle_nested);
    ("$exists", fun _ v esQuery _ _ _ => handle_existsOrMissing Must v esQuery);
    ("$missing", fun _ v esQuery _ _ _ => handle_existsOrMissing MustNot v esQuery);
    ("$child", handle_childOrParent Child);
    ("$parent", handle_childOrParent Parent) ].

(** [specialQueryHandlers.constructor] is the function [Object], which
    returns its first argument when that is an object.  That one inherited
    member is followed here, on plain objects, because its result aliases
    the accumulator of the reduction with an object of the caller. *)
Definition inherited_call (key : string) (v : sval) : SM sval :=
  if String.eqb key "constructor" then
    match v with
    | SRef l =>
        let* c := read l in
        match c with
        | Some (CObj _) => ret v
        | _ => lift (Inherited key)
        end
    | _ => lift (Inherited key)
    end
  else lift (Inherited key).

Definition reduce_step (parseQuery : Parser) (idProp : string) (maxDepth : Z)
    (currentDepth : nat) (esQuery : sval) (entry : string * sval) : SM sval :=
  let v := entry.2 in
  let* type := getType v in
  let key := if String.eqb entry.1 idProp then "_id" else entry.1 in
  match assoc key handlerTable with
  | Some handler => handler parseQuery v esQuery idProp maxDepth currentDepth
  | None =>
      if bool_decide (key ∈ object_prototype_members) then inherited_call key v
      else
        let* _ := validateType v key [TNumber; TString; TBoolean; TUndefined; TObject; TArray] in
        if bool_decide (type <> TObject) then processTermQuery key v esQuery
        else processCriteria key v esQuery
  end.

Definition traverse {A B} (f : A -> result B) (l : list A) : result (list B) :=
  foldr (fun x acc =>
           match f x, acc with
           | Ok y, Ok ys => Ok (y :: ys)
           | Ok _, other => other
           | Throw e, _ => Throw e
           | Inherited k, _ => Inherited k
           | OutOfFuel, _ => OutOfFuel
           end) (Ok []) l.

(** The tree that [JSON.stringify] and [normalizeObject] see from [v].
    A store with a cycle exhausts any fuel. *)
Fixpoint readback (fuel : nat) (cs : list cell) (v : sval) : result value :=
  match v with
  | SUndefined => Ok VUndefined
  | SNull => Ok VNull
  | SBool b => Ok (VBool b)
  | SNum n => Ok (VNum n)
  | SNaN => Ok VNaN
  | SStr s => Ok (VStr s)
  | SRef l =>
      match fuel with
      | O => OutOfFuel
      | S fuel' =>
          match cs !! l with
          | Some (CArr items) =>
              match traverse (readback fuel' cs) items with
              | Ok xs => Ok (VArr xs)
              | Throw e => Throw e
              | Inherited k => Inherited k
              | OutOfFuel => OutOfFuel
              end
          | Some (CObj props) =>
              match traverse (fun kv => match readback fuel' cs kv.2 with
                                        | Ok x => Ok (kv.1, x)
                                        | Throw e => Throw e
                                        | Inherited k => Inherited k
                                        | OutOfFuel => OutOfFuel
                                        end) props with
              | Ok xs => Ok (VObj xs)
              | Throw e => Throw e
              | Inherited k => Inherited k
              | OutOfFuel => OutOfFuel
              end
          | None => Ok VUndefined
          end
      end
  end.

Definition snapshot (v : sval) : SM value :=
  fun st => (readback (S (length (cells st))) (cells st) v, st).

(** [JSON.parse]: the tree built from fresh cells. *)
Fixpoint build (v : value) : SM sval :=
  match v with
  | VUndefined => ret SUndefined
  | VNull => ret SNull
  | VBool b => ret (SBool b)
  | VNum n => ret (SNum n)
  | VNaN => ret SNaN
  | VStr s => ret (SStr s)
  | VArr items =>
      let* xs := (fix go (l : list value) : SM (list sval) :=
                    match l with
                    | [] => ret []
                    | x :: rest =>
                        let* y := build x in
                        let* ys := go rest in
                        ret (y :: ys)
                    end) items in
      new_array xs
  | VObj props =>
      let* xs := (fix go (l : list (string * value)) : SM (list (string * sval)) :=
                    match l with
                    | [] => ret []
                    | kv :: rest =>
                        let* y := build kv.2 in
                        let* ys := go rest in
                        ret ((kv.1, y) :: ys)
                    end) props in
      new_object xs
  end.

Definition cache_key (query : sval) (idProp : string) : SM string :=
  let* tree := snapshot query in
  ret (hashQuery tree idProp).

Definition modify_cache (f : list (string * CacheEntry sval) -> list (string * CacheEntry sval))
    : SM unit :=
  fun st => (Ok tt, mkState (cells st) (f (queryCache st))).

Definition lookup_cache (key : string) : SM (option (CacheEntry sval)) :=
  fun st => (Ok (cache_get key (queryCache st)), st).

(** The part of [parseQuery] that follows the depth check: the optional
    cleaning, the reduction over the entries from a fresh accumulator, and
    the cache write. *)
Definition translate (parseQuery : Parser) (env : Env) (query : sval)
    (idProp : string) (maxDepth : Z) (currentDepth : nat) : SM sval :=
  let* _ := (if Nat.eqb currentDepth 0 && random_below env
             then modify_cache (cleanCache (clean_time env)) else ret tt) in
  let* entries := props_of query in
  let* initial := new_object [] in
  let* bool := foldM (reduce_step parseQuery idProp maxDepth currentDepth) initial entries in
  let* keys := props_of bool in
  let queryResult := if Nat.eqb (length keys) 0 then SNull else bool in
  let* _ := (if Nat.eqb currentDepth 0
             then let* cacheKey := cache_key query idProp in
                  modify_cache (cache_set cacheKey (mkCacheEntry queryResult (store_time env)))
             else ret tt) in
  ret queryResult.

Definition parseQuery_body (parseQuery : Parser) (env : Env) (query : sval)
    (idProp : string) (maxDepth : Z) (currentDepth : nat) : SM sval :=
  let* _ := validateType query "query" [TObject; TNull; TUndefined] in
  if is_nullish query then ret SNull
  else
    let* cached := (if Nat.eqb currentDepth 0
                    then let* cacheKey := cache_key query idProp in lookup_cache cacheKey
                    else ret None) in
    match cached with
    | Some entry =>
        if truthy (entry_result entry)
        then let* tree := snapshot (entry_result entry) in build (json_clone tree)
        else ret SNull
    | None =>
        if Z.of_nat currentDepth >? maxDepth then throw (BadRequest (depth_message maxDepth))
        else translate parseQuery env query idProp maxDepth currentDepth
    end.

Fixpoint parseQuery_fuel (fuel : nat) (env : Env) (query : sval)
    (idProp : string) (maxDepth : Z) (currentDepth : nat) : SM sval :=
  match fuel with
  | O => lift OutOfFuel
  | S fuel' => parseQuery_body (parseQuery_fuel fuel' env) env query idProp maxDepth currentDepth
  end.

(** One unit of fuel per nested call, and one to spare: a call nested deeper
    than [maxDepth] fails its depth check before it calls itself. *)
Definition parseQuery (env : Env) (query : sval) (idProp : string) (maxDepth : Z)
    (currentDepth : nat) : SM sval :=
  parseQuery_fuel (Z.to_nat (maxDepth - Z.of_nat currentDepth) + 2) env query idProp
                  maxDepth currentDepth.

(** *** What a call may write

    The vocabulary of the frame property: the cells below a boundary [B]
    are left as they are, and the accumulator lives above it. *)

Definition no_constructor (cs : list cell) : Prop :=
  forall l props, cs !! l = Some (CObj props) -> "constructor" ∉ (fst <$> props).

Definition section_names : list string := ["must"; "filter"; "should"; "must_not"].

(** [x] is no reference to a cell below [B]. *)
Definition fresh_ref (B : nat) (x : sval) : Prop :=
  forall b, x = SRef b -> (B <= b)%nat.

Definition sections_fresh (B : nat) (props : list (string * sval)) : Prop :=
  forall name, name ∈ section_names -> fresh_ref B (lookup_field name props).

Definition acc_inv (B : nat) (acc : sval) (cs : list cell) : Prop :=
  exists a props, acc = SRef a /\ (B <= a)%nat /\ cs !! a = Some (CObj props)
                  /\ sections_fresh B props.

Definition frame (B : nat) (st st' : state) : Prop :=
  (length (cells st) <= length (cells st'))%nat
  /\ forall l, (l < B)%nat -> cells st' !! l = cells st !! l.

Definition hoare {A} (I : list cell -> Prop) (B : nat) (m : SM A) (Q : A -> Prop) : Prop :=
  forall st, I (cells st) -> forall r st', m st = (r, st') ->
    frame B st st' /\ I (cells st') /\ forall a, r = Ok a -> Q a.

Definition reads {A} (m : SM A) : Prop := forall st, exists r, m st = (r, st).

Definition inv (B : nat) (acc : sval) (cs : list cell) : Prop :=
  acc_inv B acc cs /\ no_constructor cs.

Definition cell_ok (c : cell) : Prop :=
  match c with
  | CObj props => "constructor" ∉ (fst <$> props)
  | CArr _ => True
  end.

(** What the handlers need of the function they call on sub-filters: it
    leaves every cell that exists when it is called as it is. *)
Definition parse_ok (parse : Parser) : Prop :=
  forall sub idProp maxDepth d st r st',
    no_constructor (cells st) ->
    parse sub idProp maxDepth (S d) st = (r, st') ->
    frame (length (cells st)) st st' /\ no_constructor (cells st').

Definition extends {A} (m : SM A) : Prop :=
  forall st r st', m st = (r, st') -> exists extra, cells st' = cells st ++ extra.

End Store.

(** * The vocabulary of the properties *)

(** Two parsers are related by [R] on every sub-filter no higher than [v],
    at the depth the handlers call them. *)
Definition related_below (R : forall A : Type, M A -> M A -> Prop) (P1 P2 : Parser)
    (idProp : string) (maxDepth : Z) (currentDepth : nat) (v : value) : Prop :=
  forall sub, (height sub <= height v)%nat ->
    R (option ESQuery) (P1 sub idProp maxDepth (S currentDepth))
                       (P2 sub idProp maxDepth (S currentDepth)).

(** Two computations agree when they do the same from every cache state and
    do not run out of fuel. *)
Definition agree (A : Type) (m1 m2 : M A) : Prop :=
  forall c, m1 c = m2 c /\ (m1 c).1 <> OutOfFuel.

Definition pure_same (A : Type) (m1 m2 : M A) : Prop :=
  forall c1 c2, (m1 c1).1 = (m2 c2).1 /\ (m1 c1).2 = c1 /\ (m2 c2).2 = c2.

(** An environment in which the random draw does not trigger cleaning. *)
Definition quiet : Env := mkEnv false 0 0.

(** The result of a call made by a handler one level below [currentDepth],
    which depends on neither cache nor environment. *)
Definition nested_result (query : value) (idProp : string) (maxDepth : Z)
    (currentDepth : nat) : result (option ESQuery) :=
  (parseQuery quiet query idProp maxDepth (S currentDepth) []).1.

(** The cache as the reduction finds it: cleaned when the call is top-level
    and the random draw says so. *)
Definition after_clean (env : Env) (currentDepth : nat) (c : Cache) : Cache :=
  if Nat.eqb currentDepth 0 && random_below env then cleanCache (clean_time env) c else c.

(** The [reduce] of [parseQuery]. *)
Definition reduce_entries (env : Env) (query : value) (idProp : string) (maxDepth : Z)
    (currentDepth : nat) : M ESQuery :=
  foldM (reduce_step (parseQuery env) idProp maxDepth currentDepth) es_empty (object_props query).

(** [Object.keys(bool).length ? bool : null] *)
Definition sentinel_or (bool : ESQuery) : option ESQuery :=
  if Nat.eqb (key_count bool) 0 then None else Some bool.

(** The cache after the write that ends a top-level call. *)
Definition after_store (env : Env) (query : value) (idProp : string) (currentDepth : nat)
    (queryResult : option ESQuery) (c : Cache) : Cache :=
  if Nat.eqb currentDepth 0
  then cache_set (hashQuery query idProp) (mkCacheEntry queryResult (store_time env)) c
  else c.

(** No entry under the key of [query] and [idProp], when the call is
    top-level; nested calls do not read the cache. *)
Definition cache_miss (query : value) (idProp : string) (currentDepth : nat) (c : Cache) : Prop :=
  currentDepth = 0%nat -> cache_get (hashQuery query idProp) c = None.

(** Number of sections that hold at least one clause. *)
Definition nonempty_sections (q : ESQuery) : nat :=
  length (filter (fun s => section_or_empty s q <> []) [Must; Filter; Should; MustNot]).

(** The claim as the specification words it, for one call. *)
Definition sentinel_when_no_clauses (env : Env) (query : value) (idProp : string)
    (maxDepth : Z) (currentDepth : nat) (c : Cache) : Prop :=
  forall acc c',
    reduce_entries env query idProp maxDepth currentDepth (after_clean env currentDepth c)
      = (Ok acc, c') ->
    ((parseQuery env query idProp maxDepth currentDepth c).1 = Ok None
     <-> nonempty_sections acc = 0%nat).

(** [n] levels of [{$and: [ . ]}] around [leaf]. *)
Fixpoint nest_and (n : nat) (leaf : value) : value :=
  match n with
  | O => leaf
  | S n' => VObj [("$and", VArr [nest_and n' leaf])]
  end.

(** The claim as the specification words it, for one call. *)
Definition depth_rejection_claim (env : Env) (leaf : value) (idProp : string)
    (maxDepth : Z) (n : nat) (c : Cache) : Prop :=
  (maxDepth < Z.of_nat n ->
   (parseQuery env (nest_and n leaf) idProp maxDepth 0 c).1
   = Throw (BadRequest (depth_message maxDepth)))
  /\ (Z.of_nat n <= maxDepth ->
      exists r, (parseQuery env (nest_and n leaf) idProp maxDepth 0 c).1 = Ok r).

(** Values that [JSON.stringify] renders without loss: no [undefined] and
    no not-a-number anywhere. *)
Fixpoint json_safe (v : value) : bool :=
  match v with
  | VUndefined | VNaN => false
  | VArr items => forallb json_safe items
  | VObj props => forallb (fun kv => json_safe kv.2) props
  | _ => true
  end.

Definition section_safe (o : option (list value)) : bool :=
  forallb json_safe (default [] o).

Definition esquery_safe (q : ESQuery) : bool :=
  section_safe (es_must q) && section_safe (es_filter q)
  && section_safe (es_should q) && section_safe (es_must_not q).

(** Structural equality of values: same kind, same elements in order for
    arrays, same keys with equal values for objects, in any key order. *)
Fixpoint deep_equal (a b : value) : bool :=
  match a, b with
  | VUndefined, VUndefined | VNull, VNull | VNaN, VNaN => true
  | VBool x, VBool y => Bool.eqb x y
  | VNum x, VNum y => x =? y
  | VStr x, VStr y => String.eqb x y
  | VArr xs, VArr ys =>
      (fix all2 (xs ys : list value) : bool :=
         match xs, ys with
         | [], [] => true
         | x :: xs', y :: ys' => deep_equal x y && all2 xs' ys'
         | _, _ => false
         end) xs ys
  | VObj ps, VObj qs =>
      Nat.eqb (length ps) (length qs)
      && forallb (fun kv => match assoc kv.1 qs with
                            | Some v' => deep_equal kv.2 v'
                            | None => false
                            end) ps
  | _, _ => false
  end.

Definition results_deep_equal (r1 r2 : option ESQuery) : bool :=
  match r1, r2 with
  | None, None => true
  | Some q1, Some q2 => deep_equal (esquery_value q1) (esquery_value q2)
  | _, _ => false
  end.

(** What the reduction does with a key that is not dispatched. *)
Definition plain_key_step (key : string) (v : value) (esQuery : ESQuery) : M ESQuery :=
  let! _ := lift (validateType v key [TNumber; TString; TBoolean; TUndefined; TObject; TArray]) in
  if bool_decide (getType v <> TObject) then ret (processTermQuery key v esQuery)
  else lift (processCriteria key (object_props v) esQuery).

(** The claim as the specification words it: the operator check is made on
    the key as written in the filter. *)
Definition dispatch_on_original_key (P : Parser) (idProp : string) (maxDepth : Z)
    (currentDepth : nat) (esQuery : ESQuery) (key : string) (v : value) : Prop :=
  forall handler, assoc key handlerTable = Some handler ->
    reduce_step P idProp maxDepth currentDepth esQuery (key, v)
    = handler P v esQuery idProp maxDepth currentDepth.





(** The caller's store for the filter [{constructor: {x: 1}, a: 2}]: the
    filter at location 0, its nested object at location 1. *)
Definition caller_store : Store.state :=
  Store.mkState
    [ Store.CObj [("constructor", Store.SRef 1%nat); ("a", Store.SNum 2)];
      Store.CObj [("x", Store.SNum 1)] ]
    [].

(** The same filter under one level of [$and]: the wrapping filter at
    location 0, its array at 1, the inner filter at 2, the nested object
    at 3. *)
Definition wrapped_store : Store.state :=
  Store.mkState
    [ Store.CObj [("$and", Store.SRef 1%nat)];
      Store.CArr [Store.SRef 2%nat];
      Store.CObj [("constructor", Store.SRef 3%nat); ("a", Store.SNum 2)];
      Store.CObj [("x", Store.SNum 1)] ]
    [].

(** The filter [{a: 2, constructor: {x: 1}}], with the key [constructor]
    last. *)
Definition late_constructor_store : Store.state :=
  Store.mkState
    [ Store.CObj [("a", Store.SNum 2); ("constructor", Store.SRef 1%nat)];
      Store.CObj [("x", Store.SNum 1)] ]
    [].

(** ** Vocabulary of the further properties *)

(** [reordered a b]: [b] is [a] with the properties of its objects, at any
    depth, listed in another order. *)
Inductive reordered : value -> value -> Prop :=
| reordered_same v : reordered v v
| reordered_array xs ys : Forall2 reordered xs ys -> reordered (VArr xs) (VArr ys)
| reordered_object ps qs qs' :
    Forall2 (fun p q => p.1 = q.1 /\ reordered p.2 q.2) ps qs -> qs ≡ₚ qs' ->
    reordered (VObj ps) (VObj qs').

(** No object, at any depth, lists a key twice. *)
Fixpoint distinct_keys (v : value) : bool :=
  match v with
  | VArr items => forallb distinct_keys items
  | VObj props =>
      bool_decide (NoDup (fst <$> props)) && forallb (fun kv => distinct_keys kv.2) props
  | _ => true
  end.

(** The test of the first loop of [cleanCache]. *)
Definition expired {R} (now : Z) (kv : string * CacheEntry R) : Prop :=
  CACHE_MAX_AGE < now - entry_timestamp kv.2.

(** A cache of 1001 entries, entry [i] stored at time [i]. *)
Definition full_cache : list (string * CacheEntry (option ESQuery)) :=
  (fun i => (pretty i, mkCacheEntry None (Z.of_nat i))) <$> seq 0 1001.

Global Instance SectionName_eq_dec : EqDecision SectionName.
Proof. solve_decision. Defined.

(** [grows q q']: every section of [q] is a prefix of the same section of
    [q'], and no key of [q] is missing from [q']. *)
Definition grows (q q' : ESQuery) : Prop :=
  (forall s, section_or_empty s q `prefix_of` section_or_empty s q'
             /\ (is_Some (get_section s q) -> is_Some (get_section s q')))
  /\ (is_Some (es_minimum_should_match q) -> is_Some (es_minimum_should_match q')).

(** [post m Q]: whenever [m] returns a value, the value satisfies [Q]. *)
Definition post {A} (m : M A) (Q : A -> Prop) : Prop :=
  forall c a c', m c = (Ok a, c') -> Q a.

(** The computation never fails with the depth error of [maxDepth]. *)
Definition no_depth_error {A} (maxDepth : Z) (m : M A) : Prop :=
  forall c, (m c).1 <> Throw (BadRequest (depth_message maxDepth)).

(** One of [DANGEROUS_KEYS] names a property somewhere in the value. *)
Fixpoint has_dangerous_key (v : value) : bool :=
  match v with
  | VArr items => existsb has_dangerous_key items
  | VObj props =>
      existsb (fun kv => bool_decide (kv.1 ∈ DANGEROUS_KEYS) || has_dangerous_key kv.2) props
  | _ => false
  end.

Fixpoint has_caret (s : string) : bool :=
  match s with
  | EmptyString => false
  | String a rest => (char_code a =? 94) || has_caret rest
  end.

(** The operator name that [$existsOr$missing] puts in its messages. *)
Definition exists_operator (clause : SectionName) : string :=
  match clause with Must => "$exists" | _ => "$missing" end.

Definition exists_clause (field : string) : value :=
  VObj [("exists", VObj [("field", VStr field)])].

(** Number of clauses over the four sections. *)
Definition clause_count (q : ESQuery) : nat :=
  (length (section_or_empty Must q) + length (section_or_empty Filter q)
   + length (section_or_empty Should q) + length (section_or_empty MustNot q))%nat.

(** The criteria of a field that [queryCriteriaMap] lists. *)
Definition known_criteria (v : list (string * value)) : list string :=
  filter (fun criterion => is_Some (assoc criterion queryCriteriaMap)) (fst <$> v).

(** The key as the reduction looks it up. *)
Definition alias_key (idProp key : string) : string :=
  if String.eqb key idProp then "_id" else key.

(** The clauses of [processTermQuery]. *)
Definition term_clauses (key : string) (v : value) : list value :=
  match v with
  | VArr vals => term_clause key <$> vals
  | _ => [term_clause key v]
  end.

(** A key that no handler takes, with a value that is no object. *)
Definition plain_entry (idProp : string) (kv : string * value) : Prop :=
  specialQueryHandlers (alias_key idProp kv.1) = Absent
  /\ getType kv.2 ∈ [TNumber; TString; TBoolean; TUndefined; TArray].

(** A service with every optional field set. *)
Definition people : Service :=
  mkService "id" (Some "parent") (Some "routing") (Some "aka") "_meta".

(** * Properties *)

(** ** Heights of the values the translator descends into *)

Lemma height_item (items : list value) (x : value) :
  x ∈ items -> (height x < height (VArr items))%nat.
Proof.
  induction 1 as [x l | x y l _ IH]; simpl in *; lia.
Qed.

Lemma height_prop (props : list (string * value)) (k : string) (v : value) :
  (k, v) ∈ props -> (height v < height (VObj props))%nat.
Proof.
  remember (k, v) as kv eqn:E.
  induction 1 as [kv l | kv y l _ IH]; subst; simpl in *; [lia | specialize (IH eq_refl); lia].
Qed.

Lemma height_filter (P : string * value -> Prop) `{forall kv, Decision (P kv)}
    (props : list (string * value)) :
  (height (VObj (filter P props)) <= height (VObj props))%nat.
Proof.
  induction props as [|kv props IH]; simpl in *; [lia|].
  rewrite filter_cons. destruct (decide (P kv)); simpl; lia.
Qed.

Lemma height_removeProps (props : list (string * value)) (names : list string) :
  (height (VObj (removeProps props names)) <= height (VObj props))%nat.
Proof.
  unfold removeProps, assign_fresh.
  etransitivity; [apply height_filter | apply height_filter].
Qed.

Lemma omap_cons_eq {A B} (f : A -> option B) (x : A) (l : list A) :
  omap f (x :: l) = match f x with Some y => y :: omap f l | None => omap f l end.
Proof. reflexivity. Qed.

(** ** Results that the pure helpers cannot produce *)

Lemma validateType_fuel v name validators : validateType v name validators <> OutOfFuel.
Proof. unfold validateType. case_bool_decide; discriminate. Qed.

Lemma sanitizeQueryString_fuel q n : sanitizeQueryString q n <> OutOfFuel.
Proof. unfold sanitizeQueryString. repeat case_match; discriminate. Qed.

Lemma exists_clauses_fuel op i vals : exists_clauses op i vals <> OutOfFuel.
Proof.
  revert i. induction vals as [|val vals IH]; intros i; simpl; [discriminate|].
  unfold validateType. case_bool_decide; [|discriminate].
  specialize (IH (S i)). destruct (exists_clauses op (S i) vals); congruence.
Qed.

Lemma processCriteria_fuel key v esQuery : processCriteria key v esQuery <> OutOfFuel.
Proof.
  unfold processCriteria. generalize (fst <$> v) as cs. intros cs. revert esQuery.
  induction cs as [|c cs IH]; intros esQuery; simpl; [discriminate|].
  unfold criterion_step at 1.
  destruct (assoc c queryCriteriaMap) as [[[sec term] operand]|]; [apply IH|].
  case_bool_decide; [discriminate | apply IH].
Qed.

(** ** A relational reading of the translator

    [R] relates two runs of a computation.  Whatever [R] is preserved by
    [lift] and [bind] is preserved by the whole reduction over the keys of
    a filter, as long as it holds of the two parsers on the sub-filters
    that the handlers pass to them. *)
Section Relational.

Variable R : forall A : Type, M A -> M A -> Prop.
Hypothesis R_lift : forall A (r : result A), r <> OutOfFuel -> R A (lift r) (lift r).
Hypothesis R_bind : forall A B (m1 m2 : M A) (k1 k2 : A -> M B),
  R A m1 m2 -> (forall a, R B (k1 a) (k2 a)) -> R B (bind m1 k1) (bind m2 k2).

Lemma R_ret A (a : A) : R A (ret a) (ret a).
Proof. apply (R_lift A (Ok a)). discriminate. Qed.

Lemma R_mapM A B (f1 f2 : A -> M B) (l : list A) :
  Forall (fun x => R B (f1 x) (f2 x)) l -> R (list B) (mapM f1 l) (mapM f2 l).
Proof.
  induction 1 as [|x l Hx _ IH]; simpl; [apply R_ret|].
  apply R_bind; [exact Hx|]. intros y. apply R_bind; [exact IH|]. intros ys. apply R_ret.
Qed.

Lemma R_foldM A B (f1 f2 : A -> B -> M A) (l : list B) (a : A) :
  Forall (fun x => forall a', R A (f1 a' x) (f2 a' x)) l -> R A (foldM f1 a l) (foldM f2 a l).
Proof.
  intros H. revert a. induction H as [|x l Hx _ IH]; intros a; simpl; [apply R_ret|].
  apply R_bind; [apply Hx|]. intros a'. apply IH.
Qed.

Variables (P1 P2 : Parser) (idProp : string) (maxDepth : Z) (currentDepth : nat).

Local Abbreviation related_below := (related_below R P1 P2 idProp maxDepth currentDepth).

Lemma R_sub_items (v : value) :
  related_below v ->
  R (list (option ESQuery))
    (mapM (fun subQuery => P1 subQuery idProp maxDepth (S currentDepth)) (array_items v))
    (mapM (fun subQuery => P2 subQuery idProp maxDepth (S currentDepth)) (array_items v)).
Proof.
  intros H. apply R_mapM, Forall_forall. intros x Hx. apply H.
  destruct v; simpl in Hx; try (by apply elem_of_nil in Hx).
  apply height_item in Hx. lia.
Qed.

Lemma R_sub_object (v : value) (names : list string) :
  getType v = TObject -> related_below v ->
  R (option ESQuery)
    (P1 (VObj (removeProps (object_props v) names)) idProp maxDepth (S currentDepth))
    (P2 (VObj (removeProps (object_props v) names)) idProp maxDepth (S currentDepth)).
Proof.
  intros Ht H. apply H. destruct v; try discriminate. apply height_removeProps.
Qed.

Lemma validateType_object v name : 
  validateType v name [TObject] = Ok (getType v) /\ getType v = TObject
  \/ exists e, validateType v name [TObject] = Throw e.
Proof.
  unfold validateType. case_bool_decide as H; [left|right; eauto].
  split; [done|]. by apply list_elem_of_singleton in H.
Qed.

Ltac rel_step :=
  first
    [ apply R_ret
    | apply R_lift;
      first [ apply validateType_fuel | apply sanitizeQueryString_fuel
            | apply exists_clauses_fuel | apply processCriteria_fuel | discriminate ]
    | apply R_bind; [| intros ?] ].

Lemma R_join (queryType : JoinKind) (v : value) (esQuery : ESQuery) :
  related_below v ->
  R ESQuery (handle_childOrParent queryType P1 v esQuery idProp maxDepth currentDepth)
            (handle_childOrParent queryType P2 v esQuery idProp maxDepth currentDepth).
Proof.
  intros Hv. unfold handle_childOrParent. case_match; [rel_step|].
  destruct (validateType_object v (join_operator queryType)) as [[E Ht]|[e E]]; rewrite E.
  - do 2 (rel_step; [rel_step|]). rel_step; [by apply R_sub_object|].
    case_match; rel_step.
  - apply (R_lift _ (Throw e)). discriminate.
Qed.

Lemma R_handler (key : string) (handler : HandlerFn) (v : value) (esQuery : ESQuery) :
  assoc key handlerTable = Some handler -> related_below v ->
  R ESQuery (handler P1 v esQuery idProp maxDepth currentDepth)
            (handler P2 v esQuery idProp maxDepth currentDepth).
Proof.
  intros Hk Hv. unfold handlerTable in Hk. simpl in Hk.
  repeat (case_match; [injection Hk as <- | ]); try discriminate.
  - unfold handle_or. rel_step; [rel_step|]. rel_step; [by apply R_sub_items|]. rel_step.
  - unfold handle_and. rel_step; [rel_step|]. rel_step; [by apply R_sub_items|]. rel_step.
  - unfold handle_all. case_match; rel_step.
  - unfold handle_sqs. case_match; [rel_step|].
    do 3 (rel_step; [rel_step|]). rel_step; [case_match; rel_step|].
    rel_step; [rel_step|]. rel_step.
  - unfold handle_nested. case_match; [rel_step|].
    destruct (validateType_object v "$nested") as [[E Ht]|[e E]]; rewrite E.
    + do 2 (rel_step; [rel_step|]). rel_step; [by apply R_sub_object|].
      case_match; rel_step.
    + apply (R_lift _ (Throw e)). discriminate.
  - unfold handle_existsOrMissing. case_match; [rel_step|].
    do 2 (rel_step; [rel_step|]). rel_step.
  - unfold handle_existsOrMissing. case_match; [rel_step|].
    do 2 (rel_step; [rel_step|]). rel_step.
  - by apply R_join.
  - by apply R_join.
Qed.

Lemma R_reduce_step (esQuery : ESQuery) (entry : string * value) :
  related_below entry.2 ->
  R ESQuery (reduce_step P1 idProp maxDepth currentDepth esQuery entry)
            (reduce_step P2 idProp maxDepth currentDepth esQuery entry).
Proof.
  intros Hv. unfold reduce_step, specialQueryHandlers.
  destruct (assoc _ handlerTable) as [handler|] eqn:Hk.
  - by eapply R_handler.
  - case_bool_decide; [rel_step|].
    rel_step; [rel_step|]. case_bool_decide; rel_step.
Qed.

Lemma R_reduce (query : value) (esQuery : ESQuery) :
  (forall sub, (height sub < height query)%nat ->
     R (option ESQuery) (P1 sub idProp maxDepth (S currentDepth))
                        (P2 sub idProp maxDepth (S currentDepth))) ->
  R ESQuery
    (foldM (reduce_step P1 idProp maxDepth currentDepth) esQuery (object_props query))
    (foldM (reduce_step P2 idProp maxDepth currentDepth) esQuery (object_props query)).
Proof.
  intros H. apply R_foldM, Forall_forall. intros [k v] Hin a'.
  apply R_reduce_step. intros sub Hsub. apply H. simpl in Hsub.
  destruct query; simpl in Hin; try (by apply elem_of_nil in Hin).
  apply height_prop in Hin. lia.
Qed.

End Relational.

(** ** Fuel: the recursion of [parseQuery] is well founded *)

Lemma agree_lift A (r : result A) : r <> OutOfFuel -> agree A (lift r) (lift r).
Proof. intros H c. split; [done | exact H]. Qed.

Lemma agree_bind A B (m1 m2 : M A) (k1 k2 : A -> M B) :
  agree A m1 m2 -> (forall a, agree B (k1 a) (k2 a)) -> agree B (bind m1 k1) (bind m2 k2).
Proof.
  intros Hm Hk c. unfold bind. destruct (Hm c) as [E Hf]. rewrite <- E.
  destruct (m1 c) as [[a| e | k |] c']; simpl in *; try done. apply Hk.
Qed.

Lemma agree_modify (f : Cache -> Cache) : agree unit (modify f) (modify f).
Proof. intros c. split; [done | discriminate]. Qed.

Lemma body_agree (P1 P2 : Parser) env query idProp maxDepth currentDepth :
  (forall sub, (height sub < height query)%nat ->
     agree _ (P1 sub idProp maxDepth (S currentDepth)) (P2 sub idProp maxDepth (S currentDepth))) ->
  agree _ (parseQuery_body P1 env query idProp maxDepth currentDepth)
          (parseQuery_body P2 env query idProp maxDepth currentDepth).
Proof.
  intros H. unfold parseQuery_body.
  apply agree_bind; [apply agree_lift, validateType_fuel|]. intros _.
  destruct (is_nullish query); [apply agree_lift; discriminate|].
  intros c. destruct (if Nat.eqb currentDepth 0 then _ else _) as [cached|].
  { split; [done | discriminate]. }
  revert c. destruct (Z.of_nat currentDepth >? maxDepth).
  { apply agree_lift. discriminate. }
  apply agree_bind.
  { destruct (_ && _); [apply agree_modify | apply agree_lift; discriminate]. }
  intros _. apply agree_bind.
  { apply (R_reduce agree agree_lift agree_bind). exact H. }
  intros bool. apply agree_bind.
  { destruct (Nat.eqb currentDepth 0); [apply agree_modify | apply agree_lift; discriminate]. }
  intros _. apply agree_lift. discriminate.
Qed.

Lemma fuel_agree (f1 f2 : nat) env query idProp maxDepth currentDepth :
  (height query < f1)%nat -> (height query < f2)%nat ->
  agree _ (parseQuery_fuel f1 env query idProp maxDepth currentDepth)
          (parseQuery_fuel f2 env query idProp maxDepth currentDepth).
Proof.
  revert f2 query currentDepth.
  induction f1 as [|f1 IH]; intros [|f2] query currentDepth H1 H2; try lia.
  simpl. apply body_agree. intros sub Hsub. apply IH; lia.
Qed.

(** The fixpoint equation: [parseQuery] calls itself on sub-filters. *)
Lemma parseQuery_unfold env query idProp maxDepth currentDepth c :
  parseQuery env query idProp maxDepth currentDepth c
  = parseQuery_body (parseQuery env) env query idProp maxDepth currentDepth c.
Proof.
  unfold parseQuery at 1. simpl.
  apply body_agree. intros sub Hsub. unfold parseQuery. apply fuel_agree; lia.
Qed.

(** [parseQuery] always has enough fuel. *)
Lemma parseQuery_total env query idProp maxDepth currentDepth c :
  (parseQuery env query idProp maxDepth currentDepth c).1 <> OutOfFuel.
Proof.
  unfold parseQuery.
  assert (height query < S (height query))%nat as H by lia.
  exact (proj2 (fuel_agree _ _ env query idProp maxDepth currentDepth H H c)).
Qed.

(** ** Below the top level the cache is neither read nor written *)

Lemma pure_lift A (r : result A) : pure_same A (lift r) (lift r).
Proof. intros c1 c2. done. Qed.

Lemma pure_bind A B (m1 m2 : M A) (k1 k2 : A -> M B) :
  pure_same A m1 m2 -> (forall a, pure_same B (k1 a) (k2 a)) ->
  pure_same B (bind m1 k1) (bind m2 k2).
Proof.
  intros Hm Hk c1 c2. unfold bind. destruct (Hm c1 c2) as (E & E1 & E2).
  destruct (m1 c1) as [r1 c1'], (m2 c2) as [r2 c2']. simpl in *. subst.
  destruct r2; try done. apply Hk.
Qed.

Lemma nested_pure (fuel : nat) env1 env2 query idProp maxDepth currentDepth :
  pure_same _ (parseQuery_fuel fuel env1 query idProp maxDepth (S currentDepth))
              (parseQuery_fuel fuel env2 query idProp maxDepth (S currentDepth)).
Proof.
  revert query currentDepth. induction fuel as [|fuel IH]; intros query currentDepth.
  { apply pure_lift. }
  simpl. unfold parseQuery_body.
  apply pure_bind; [apply pure_lift|]. intros _.
  destruct (is_nullish query); [apply pure_lift|]. simpl.
  destruct (Z.of_nat (S currentDepth) >? maxDepth); [apply pure_lift|].
  apply pure_bind; [apply pure_lift|]. intros _.
  apply pure_bind.
  { apply (R_reduce pure_same (fun A r _ => pure_lift A r) pure_bind). intros sub _. apply IH. }
  intros bool. apply pure_bind; [apply pure_lift|]. intros _. apply pure_lift.
Qed.

Lemma parseQuery_nested env query idProp maxDepth currentDepth c :
  parseQuery env query idProp maxDepth (S currentDepth) c
  = (nested_result query idProp maxDepth currentDepth, c).
Proof.
  unfold nested_result, parseQuery.
  destruct (nested_pure (S (height query)) env quiet query idProp maxDepth
              currentDepth c []) as (E & E1 & _).
  destruct (parseQuery_fuel _ env _ _ _ _ c) as [r c']. simpl in *. by subst.
Qed.

(** ** The top-level call on a cache miss *)

Lemma validateType_ok v name validators :
  getType v ∈ validators -> validateType v name validators = Ok (getType v).
Proof. intros H. unfold validateType. by rewrite bool_decide_eq_true_2. Qed.

Lemma validateType_bad v name validators :
  getType v ∉ validators ->
  validateType v name validators
  = Throw (BadRequest (invalid_type_message name validators (getType v))).
Proof. intros H. unfold validateType. by rewrite bool_decide_eq_false_2. Qed.

Lemma parseQuery_miss env props idProp maxDepth currentDepth c :
  cache_miss (VObj props) idProp currentDepth c ->
  Z.of_nat currentDepth <= maxDepth ->
  parseQuery env (VObj props) idProp maxDepth currentDepth c
  = match reduce_entries env (VObj props) idProp maxDepth currentDepth
            (after_clean env currentDepth c) with
    | (Ok bool, c') =>
        (Ok (sentinel_or bool),
         after_store env (VObj props) idProp currentDepth (sentinel_or bool) c')
    | (Throw e, c') => (Throw e, c')
    | (Inherited k, c') => (Inherited k, c')
    | (OutOfFuel, c') => (OutOfFuel, c')
    end.
Proof.
  intros Hmiss Hdepth. rewrite parseQuery_unfold. unfold parseQuery_body.
  rewrite validateType_ok by (simpl; repeat constructor). unfold bind at 1, lift at 1.
  change (is_nullish (VObj props)) with false. cbv beta iota.
  assert ((if Nat.eqb currentDepth 0 then cache_get (hashQuery (VObj props) idProp) c else None)
          = None) as ->.
  { destruct currentDepth; [by apply Hmiss | done]. }
  assert ((Z.of_nat currentDepth >? maxDepth) = false) as -> by lia.
  unfold after_clean, reduce_entries, after_store, sentinel_or, bind, modify, ret, lift.
  destruct (Nat.eqb currentDepth 0 && random_below env); simpl;
    destruct (foldM _ _ _ _) as [[bool|e|k|] c']; try done;
    destruct (Nat.eqb currentDepth 0); done.
Qed.

(** A translation that is not the sentinel has at least one key. *)
Lemma parseQuery_some_keys env query idProp maxDepth currentDepth c q c' :
  cache_miss query idProp currentDepth c ->
  parseQuery env query idProp maxDepth currentDepth c = (Ok (Some q), c') ->
  key_count q <> 0%nat.
Proof.
  intros Hmiss. rewrite parseQuery_unfold. unfold parseQuery_body, bind at 1, lift at 1.
  unfold validateType. case_bool_decide; [|discriminate].
  destruct (is_nullish query); [discriminate|].
  assert ((if Nat.eqb currentDepth 0 then cache_get (hashQuery query idProp) c else None)
          = None) as ->.
  { destruct currentDepth; [by apply Hmiss | done]. }
  destruct (Z.of_nat currentDepth >? maxDepth); [discriminate|].
  unfold bind, modify, ret, lift.
  destruct (Nat.eqb currentDepth 0 && random_below env); simpl;
    destruct (foldM _ _ _ _) as [[bool|e|k|] c1]; try discriminate;
    destruct (Nat.eqb currentDepth 0); simpl;
    destruct (Nat.eqb (key_count bool) 0) eqn:E; try discriminate;
    intros [= <- _]; by apply Nat.eqb_neq.
Qed.

Lemma nested_result_some_keys query idProp maxDepth currentDepth q :
  nested_result query idProp maxDepth currentDepth = Ok (Some q) -> key_count q <> 0%nat.
Proof.
  unfold nested_result. intros H.
  destruct (parseQuery _ _ _ _ _ []) as [r c'] eqn:E. simpl in H. subst r.
  eapply parseQuery_some_keys; [|exact E]. intros ?; discriminate.
Qed.

(** ** C1: when the translator answers with the sentinel *)

(** C1, counterexample: the filter [{a: []}] reduces to the accumulator
    [{filter: []}], which has no clause in any section, and the translator
    returns that accumulator instead of the sentinel. *)
Lemma sentinel_when_no_clauses_fails :
  ~ sentinel_when_no_clauses quiet (VObj [("a", VArr [])]) "id" 50 0 [].
Proof.
  intros H.
  specialize (H (mkESQuery None (Some []) None None None) [] eq_refl).
  destruct H as [_ H]. specialize (H eq_refl). vm_compute in H. discriminate.
Qed.

(** C1, as the code has it: after a reduction that yields accumulator
    [acc], the translator returns the sentinel if and only if [acc] has no
    key at all, and otherwise returns [acc] itself, empty arrays included. *)
Theorem sentinel_iff_no_keys env props idProp maxDepth currentDepth c acc c' :
  cache_miss (VObj props) idProp currentDepth c ->
  Z.of_nat currentDepth <= maxDepth ->
  reduce_entries env (VObj props) idProp maxDepth currentDepth (after_clean env currentDepth c)
    = (Ok acc, c') ->
  exists r,
    (parseQuery env (VObj props) idProp maxDepth currentDepth c).1 = Ok r
    /\ (r = None <-> key_count acc = 0%nat)
    /\ (r <> None -> r = Some acc).
Proof.
  intros Hmiss Hdepth Hred. rewrite parseQuery_miss by done. rewrite Hred. simpl.
  exists (sentinel_or acc). split; [done|]. unfold sentinel_or.
  destruct (Nat.eqb (key_count acc) 0) eqn:E.
  - apply Nat.eqb_eq in E. split; [done|]. intros H. by destruct H.
  - apply Nat.eqb_neq in E. split; [|done]. split; [discriminate | done].
Qed.

Lemma sentinel_iff_no_keys_witness :
  exists r,
    (parseQuery quiet (VObj [("$or", VArr [VObj []])]) "id" 50 0 []).1 = Ok r
    /\ (r = None <-> key_count (mkESQuery None None (Some []) None (Some 1)) = 0%nat)
    /\ (r <> None -> r = Some (mkESQuery None None (Some []) None (Some 1))).
Proof.
  apply (sentinel_iff_no_keys quiet [("$or", VArr [VObj []])] "id" 50 0 [] _ []).
  - intros _. reflexivity.
  - lia.
  - vm_compute. reflexivity.
Defined.

(** ** C3 and C4: the logical combinators *)

Lemma mapM_nested env (items : list value) (parsed : list (option ESQuery))
    idProp maxDepth currentDepth c :
  Forall2 (fun sub r => nested_result sub idProp maxDepth currentDepth = Ok r) items parsed ->
  mapM (fun subQuery => parseQuery env subQuery idProp maxDepth (S currentDepth)) items c
  = (Ok parsed, c).
Proof.
  induction 1 as [|sub r items parsed Hr _ IH]; [done|].
  simpl. unfold bind at 1. rewrite parseQuery_nested, Hr.
  unfold bind at 1. by rewrite IH.
Qed.



Lemma merge_parsed_section (s : SectionName) (q r : ESQuery) :
  get_section s (merge_parsed q r)
  = match get_section s r with
    | Some clauses => Some (section_or_empty s q ++ clauses)
    | None => get_section s q
    end.
Proof.
  destruct q as [m f sh mn msm], r as [m' f' sh' mn' msm'].
  destruct s, m', f', sh', mn', msm'; reflexivity.
Qed.

Lemma merge_parsed_minimum (q r : ESQuery) :
  es_minimum_should_match (merge_parsed q r)
  = match es_minimum_should_match r with
    | Some n => Some n
    | None => es_minimum_should_match q
    end.
Proof.
  destruct q as [m f sh mn msm], r as [m' f' sh' mn' msm'].
  destruct m', f', sh', mn', msm'; reflexivity.
Qed.

Lemma merge_parsed_clauses (s : SectionName) (q r : ESQuery) :
  section_or_empty s (merge_parsed q r) = section_or_empty s q ++ section_or_empty s r.
Proof.
  unfold section_or_empty. rewrite merge_parsed_section.
  destruct (get_section s r); simpl; [done | by rewrite app_nil_r].
Qed.

Lemma merge_all_section (s : SectionName) (rs : list ESQuery) (q : ESQuery) :
  section_or_empty s (foldl merge_parsed q rs)
  = section_or_empty s q ++ concat (section_or_empty s <$> rs).
Proof.
  revert q. induction rs as [|r rs IH]; intros q.
  { simpl. by rewrite app_nil_r. }
  change (foldl merge_parsed q (r :: rs)) with (foldl merge_parsed (merge_parsed q r) rs).
  rewrite IH, merge_parsed_clauses, fmap_cons. simpl concat. by rewrite app_assoc.
Qed.

Lemma merge_all_present (s : SectionName) (rs : list ESQuery) (q : ESQuery) :
  is_Some (get_section s (foldl merge_parsed q rs))
  <-> is_Some (get_section s q) \/ Exists (fun r => is_Some (get_section s r)) rs.
Proof.
  revert q. induction rs as [|r rs IH]; intros q; simpl.
  { rewrite Exists_nil. tauto. }
  rewrite IH, Exists_cons, merge_parsed_section.
  destruct (get_section s r) as [clauses|].
  - split; [intros _; right; left; eauto | intros _; left; eauto].
  - split; [intros [H|H]; [by left | by right; right] |].
    intros [H|[H|H]]; [by left | by destruct H | by right].
Qed.

Lemma merge_all_minimum (rs : list ESQuery) (q : ESQuery) :
  es_minimum_should_match (foldl merge_parsed q rs)
  = match last (omap es_minimum_should_match rs) with
    | Some n => Some n
    | None => es_minimum_should_match q
    end.
Proof.
  revert q. induction rs as [|r rs IH]; intros q; [done|].
  change (foldl merge_parsed q (r :: rs)) with (foldl merge_parsed (merge_parsed q r) rs).
  rewrite IH, merge_parsed_minimum, omap_cons_eq.
  destruct (es_minimum_should_match r) as [n|]; [|done].
  rewrite last_cons. by destruct (last _).
Qed.

(** C4: [$and] translates every element of its array one level deeper and
    merges the translations that are not the sentinel into the accumulator:
    each of the four sections becomes the accumulator's clauses followed by
    those of the sub-results in element order, and
    [minimum_should_match] is that of the last sub-result that carries one. *)
Theorem and_concatenates_sections env (items : list value) (parsed : list (option ESQuery))
    esQuery idProp maxDepth currentDepth c :
  Forall2 (fun sub r => nested_result sub idProp maxDepth currentDepth = Ok r) items parsed ->
  exists merged,
    handle_and (parseQuery env) (VArr items) esQuery idProp maxDepth currentDepth c
      = (Ok merged, c)
    /\ (forall s, section_or_empty s merged
                  = section_or_empty s esQuery
                    ++ concat (section_or_empty s <$> omap id parsed))
    /\ (forall s, is_Some (get_section s merged)
                  <-> is_Some (get_section s esQuery)
                      \/ Exists (fun r => is_Some (get_section s r)) (omap id parsed))
    /\ es_minimum_should_match merged
       = match last (omap es_minimum_should_match (omap id parsed)) with
         | Some n => Some n
         | None => es_minimum_should_match esQuery
         end.
Proof.
  intros H. exists (foldl merge_parsed esQuery (non_null parsed)). split.
  - unfold handle_and. rewrite validateType_ok by (simpl; repeat constructor).
    unfold bind at 1, lift at 1. simpl array_items.
    unfold bind. by rewrite (mapM_nested _ _ _ _ _ _ _ H).
  - unfold non_null.
    split; [intros s; apply merge_all_section|].
    split; [intros s; apply merge_all_present | apply merge_all_minimum].
Qed.

Lemma and_concatenates_sections_witness :
  exists merged,
    handle_and (parseQuery quiet)
      (VArr [VObj [("$or", VArr [VObj [("a", VNum 1)]])]; VObj [];
             VObj [("$or", VArr [VObj [("b", VNum 2)]])]])
      es_empty "id" 50 0 []
      = (Ok merged, [])
    /\ (forall s, section_or_empty s merged
                  = section_or_empty s es_empty
                    ++ concat (section_or_empty s <$>
                         [mkESQuery None None (Some [bool_clause (mkESQuery None (Some [term_clause "a" (VNum 1)]) None None None)]) None (Some 1);
                          mkESQuery None None (Some [bool_clause (mkESQuery None (Some [term_clause "b" (VNum 2)]) None None None)]) None (Some 1)]))
    /\ (forall s, is_Some (get_section s merged)
                  <-> is_Some (get_section s es_empty)
                      \/ Exists (fun r => is_Some (get_section s r))
                         [mkESQuery None None (Some [bool_clause (mkESQuery None (Some [term_clause "a" (VNum 1)]) None None None)]) None (Some 1);
                          mkESQuery None None (Some [bool_clause (mkESQuery None (Some [term_clause "b" (VNum 2)]) None None None)]) None (Some 1)])
    /\ es_minimum_should_match merged = Some 1.
Proof.
  apply (and_concatenates_sections quiet
           [VObj [("$or", VArr [VObj [("a", VNum 1)]])]; VObj [];
            VObj [("$or", VArr [VObj [("b", VNum 2)]])]]
           [Some (mkESQuery None None (Some [bool_clause (mkESQuery None (Some [term_clause "a" (VNum 1)]) None None None)]) None (Some 1));
            None;
            Some (mkESQuery None None (Some [bool_clause (mkESQuery None (Some [term_clause "b" (VNum 2)]) None None None)]) None (Some 1))]).
  repeat constructor.
Defined.

(** ** C2: depth rejection *)

Lemma parseQuery_too_deep env props idProp maxDepth currentDepth c :
  cache_miss (VObj props) idProp currentDepth c ->
  maxDepth < Z.of_nat currentDepth ->
  parseQuery env (VObj props) idProp maxDepth currentDepth c
  = (Throw (BadRequest (depth_message maxDepth)), c).
Proof.
  intros Hmiss Hdepth. rewrite parseQuery_unfold. unfold parseQuery_body.
  rewrite validateType_ok by (simpl; repeat constructor). unfold bind at 1, lift at 1.
  change (is_nullish (VObj props)) with false. cbv beta iota.
  assert ((if Nat.eqb currentDepth 0 then cache_get (hashQuery (VObj props) idProp) c else None)
          = None) as ->.
  { destruct currentDepth; [by apply Hmiss | done]. }
  by assert ((Z.of_nat currentDepth >? maxDepth) = true) as -> by lia.
Qed.

Lemma reduce_step_and (P : Parser) idProp maxDepth currentDepth esQuery v :
  idProp <> "$and" ->
  reduce_step P idProp maxDepth currentDepth esQuery ("$and", v)
  = handle_and P v esQuery idProp maxDepth currentDepth.
Proof.
  intros Hid. unfold reduce_step. simpl fst. simpl snd.
  assert (String.eqb "$and" idProp = false) as -> by (apply String.eqb_neq; congruence).
  reflexivity.
Qed.

Lemma merge_into_empty (q : ESQuery) : merge_parsed es_empty q = q.
Proof. destruct q as [[m|] [f|] [s|] [mn|] [msm|]]; reflexivity. Qed.

(** One [$and] level around [sub] translates to what [sub] translates to. *)
Lemma parseQuery_single_and env sub idProp maxDepth currentDepth c :
  idProp <> "$and" ->
  cache_miss (VObj [("$and", VArr [sub])]) idProp currentDepth c ->
  Z.of_nat currentDepth <= maxDepth ->
  (parseQuery env (VObj [("$and", VArr [sub])]) idProp maxDepth currentDepth c).1
  = nested_result sub idProp maxDepth currentDepth.
Proof.
  intros Hid Hmiss Hdepth. rewrite parseQuery_miss by done.
  unfold reduce_entries. simpl object_props. simpl foldM. rewrite reduce_step_and by done.
  unfold handle_and. rewrite validateType_ok by (simpl; repeat constructor).
  unfold bind at 2, lift at 1. simpl array_items. simpl mapM.
  unfold bind, ret. rewrite parseQuery_nested.
  destruct (nested_result sub idProp maxDepth currentDepth) as [[q|]|e|k|] eqn:E; try done.
  simpl. rewrite merge_into_empty. unfold sentinel_or.
  apply nested_result_some_keys, Nat.eqb_neq in E. by rewrite E.
Qed.

Lemma nest_and_nested (props : list (string * value)) idProp maxDepth (n : nat) :
  idProp <> "$and" ->
  forall d,
    (maxDepth < Z.of_nat (S d + n) ->
     nested_result (nest_and n (VObj props)) idProp maxDepth d
     = Throw (BadRequest (depth_message maxDepth)))
    /\ (Z.of_nat (S d + n) <= maxDepth ->
        nested_result (nest_and n (VObj props)) idProp maxDepth d
        = nested_result (VObj props) idProp maxDepth (d + n)).
Proof.
  intros Hid. induction n as [|n IH]; intros d.
  - rewrite !Nat.add_0_r. simpl. split; [|done].
    intros H. unfold nested_result. rewrite parseQuery_too_deep; [done | intros ?; lia | lia].
  - simpl nest_and.
    destruct (decide (maxDepth < Z.of_nat (S d))) as [Hd|Hd].
    + split; [|lia]. intros _. unfold nested_result.
      rewrite parseQuery_too_deep; [done | intros ?; lia | lia].
    + unfold nested_result at 1 2.
      rewrite !parseQuery_single_and by (first [done | intros ?; lia | lia]).
      destruct (IH (S d)) as [IH1 IH2].
      replace (S (S d) + n)%nat with (S d + S n)%nat in * by lia.
      replace (S d + n)%nat with (d + S n)%nat in IH2 by lia. done.
Qed.

(** C2, counterexample: with [maxDepth = 0], one [$and] level around
    [{a: 1}] is accepted when an earlier call with a larger limit left its
    translation in the cache: the cache is consulted before the depth
    check, and its key does not include the limit. *)
Lemma depth_rejection_fails_on_cache_hit :
  ~ depth_rejection_claim quiet (VObj [("a", VNum 1)]) "id" 0 1
      (parseQuery quiet (nest_and 1 (VObj [("a", VNum 1)])) "id" 50 0 []).2.
Proof.
  intros [H _]. specialize (H ltac:(lia)). vm_compute in H. discriminate.
Qed.

(** C2, as the code has it: on a cache miss, and for an alias other than
    [$and], [n] levels of [$and] around a leaf filter fail with the
    depth-exceeded [BadRequest] naming [maxDepth] when [n > maxDepth],
    whatever the leaf is.  When [n <= maxDepth], and the translation of the
    leaf at depth [n] reaches no call of a member inherited from
    [Object.prototype], they translate to exactly what the leaf translates
    to at depth [n], the leaf's own error included: each level adds one to
    the depth. *)
Theorem depth_rejection env (props : list (string * value)) idProp maxDepth (n : nat) c :
  idProp <> "$and" ->
  cache_get (hashQuery (nest_and n (VObj props)) idProp) c = None ->
  (maxDepth < Z.of_nat n ->
   (parseQuery env (nest_and n (VObj props)) idProp maxDepth 0 c).1
   = Throw (BadRequest (depth_message maxDepth)))
  /\ (Z.of_nat n <= maxDepth ->
      (forall k, (parseQuery env (VObj props) idProp maxDepth n c).1 <> Inherited k) ->
      (parseQuery env (nest_and n (VObj props)) idProp maxDepth 0 c).1
      = (parseQuery env (VObj props) idProp maxDepth n c).1).
Proof.
  intros Hid Hmiss. destruct n as [|n].
  { simpl in *. split; [|done]. intros H.
    rewrite parseQuery_too_deep; [done | by intros _ | lia]. }
  simpl nest_and in *.
  destruct (decide (maxDepth < 0)) as [Hd|Hd].
  { split; [|lia]. intros _. rewrite parseQuery_too_deep; [done | by intros _ | lia]. }
  rewrite parseQuery_single_and; [| done | by intros _ | lia].
  destruct (nest_and_nested props idProp maxDepth n Hid 0%nat) as [H1 H2].
  split.
  - intros H. apply H1. lia.
  - intros H _. rewrite H2 by lia. by rewrite parseQuery_nested.
Qed.

(** The limits 0, 1 and 50, each with one level too many and with as many
    levels as it allows, around the leaf [{a: 1}]. *)
Lemma depth_rejection_witness :
  let leaf := VObj [("a", VNum 1)] in
  let translated := Ok (Some (mkESQuery None (Some [term_clause "a" (VNum 1)]) None None None)) in
  ((parseQuery quiet (nest_and 1 leaf) "id" 0 0 []).1 = Throw (BadRequest (depth_message 0))
   /\ (parseQuery quiet (nest_and 0 leaf) "id" 0 0 []).1 = translated)
  /\ ((parseQuery quiet (nest_and 2 leaf) "id" 1 0 []).1 = Throw (BadRequest (depth_message 1))
      /\ (parseQuery quiet (nest_and 1 leaf) "id" 1 0 []).1 = translated)
  /\ ((parseQuery quiet (nest_and 51 leaf) "id" 50 0 []).1 = Throw (BadRequest (depth_message 50))
      /\ (parseQuery quiet (nest_and 50 leaf) "id" 50 0 []).1 = translated).
Proof.
  cbv zeta.
  pose proof (fun maxDepth n =>
                depth_rejection quiet [("a", VNum 1)] "id" maxDepth n []
                  ltac:(discriminate) eq_refl) as H.
  split; [|split]; split.
  - apply (proj1 (H 0 1%nat)). lia.
  - etrans; [apply (proj2 (H 0 0%nat)); [lia | intros k; vm_compute; discriminate]|].
    vm_compute. reflexivity.
  - apply (proj1 (H 1 2%nat)). lia.
  - etrans; [apply (proj2 (H 1 1%nat)); [lia | intros k; vm_compute; discriminate]|].
    vm_compute. reflexivity.
  - apply (proj1 (H 50 51%nat)). lia.
  - etrans; [apply (proj2 (H 50 50%nat)); [lia | intros k; vm_compute; discriminate]|].
    vm_compute. reflexivity.
Defined.

(** ** C5 and C6: the cache read path *)

Lemma parseQuery_hit env props idProp maxDepth c cached :
  cache_get (hashQuery (VObj props) idProp) c = Some cached ->
  parseQuery env (VObj props) idProp maxDepth 0 c
  = (Ok (clone_esquery <$> entry_result cached), c).
Proof.
  intros Hhit. rewrite parseQuery_unfold. unfold parseQuery_body.
  rewrite validateType_ok by (simpl; repeat constructor). unfold bind at 1, lift at 1.
  change (is_nullish (VObj props)) with false. cbv beta iota. simpl Nat.eqb. cbv iota.
  by rewrite Hhit.
Qed.

Lemma cache_get_set {R} key (entry : CacheEntry R) c :
  cache_get key (cache_set key entry c) = Some entry.
Proof.
  unfold cache_get. induction c as [|[k e] c IH]; simpl.
  - by rewrite String.eqb_refl.
  - destruct (String.eqb key k) eqn:E; simpl; rewrite E; [done | exact IH].
Qed.

(** After a top-level call that missed the cache and returned [r], the next
    call for the same filter and alias returns the JSON round trip of [r],
    whatever its depth limit and environment. *)
Lemma second_call_is_clone env1 env2 props idProp maxDepth1 maxDepth2 c r c1 :
  cache_get (hashQuery (VObj props) idProp) c = None ->
  parseQuery env1 (VObj props) idProp maxDepth1 0 c = (Ok r, c1) ->
  parseQuery env2 (VObj props) idProp maxDepth2 0 c1 = (Ok (clone_esquery <$> r), c1).
Proof.
  intros Hmiss Hfirst.
  destruct (decide (maxDepth1 < 0)) as [Hd|Hd].
  { rewrite parseQuery_too_deep in Hfirst; [discriminate | by intros _ | lia]. }
  rewrite parseQuery_miss in Hfirst; [| by intros _ | lia].
  destruct (reduce_entries _ _ _ _ _ _) as [[bool|e|k|] c'']; try discriminate.
  injection Hfirst as <- <-. unfold after_store. simpl Nat.eqb. cbv iota.
  by rewrite (parseQuery_hit _ _ _ _ _ _ (cache_get_set _ _ _)).
Qed.

Lemma json_clone_safe (v : value) : json_safe v = true -> json_clone v = v.
Proof.
  induction v as [| | | | | |items IH|props IH] using value_ind'; try done.
  - simpl. intros H. f_equal. induction IH as [|x l Hx _ IHl]; [done|].
    simpl in H. apply andb_prop in H as [H1 H2]. simpl. f_equal; [by apply Hx | by apply IHl].
  - simpl. intros H. f_equal. induction IH as [|[k x] l Hx _ IHl]; [done|].
    simpl in H. apply andb_prop in H as [H1 H2]. rewrite omap_cons_eq. simpl in *.
    assert (is_undefined x = false) as -> by by destruct x.
    by rewrite (Hx H1), (IHl H2).
Qed.

Lemma clone_esquery_safe (q : ESQuery) : esquery_safe q = true -> clone_esquery q = q.
Proof.
  assert (forall o, section_safe o = true -> clone_section o = o) as Hsec.
  { intros [clauses|] H; [|done]. simpl. f_equal. unfold section_safe in H. simpl in H.
    induction clauses as [|x l IH]; [done|]. simpl in H. apply andb_prop in H as [H1 H2].
    rewrite fmap_cons. f_equal; [by apply json_clone_safe | by apply IH]. }
  destruct q as [m f s mn msm]. unfold esquery_safe, clone_esquery. simpl. intros H.
  apply andb_prop in H as [H H4]. apply andb_prop in H as [H H3].
  apply andb_prop in H as [H1 H2]. by rewrite !Hsec.
Qed.

(** When the first result holds neither [undefined] nor not-a-number, the
    second call returns it unchanged. *)
Lemma second_call_equal_when_safe env1 env2 props idProp maxDepth1 maxDepth2 c q c1 :
  cache_get (hashQuery (VObj props) idProp) c = None ->
  parseQuery env1 (VObj props) idProp maxDepth1 0 c = (Ok (Some q), c1) ->
  esquery_safe q = true ->
  parseQuery env2 (VObj props) idProp maxDepth2 0 c1 = (Ok (Some q), c1).
Proof.
  intros Hmiss Hfirst Hsafe.
  rewrite (second_call_is_clone _ _ _ _ _ _ _ _ _ Hmiss Hfirst). simpl.
  by rewrite clone_esquery_safe.
Qed.

(** C5 at the filter [{a: undefined}] with alias [id]: the first call
    returns the clause [{term: {a: undefined}}]; the second call is served
    from the cache through a JSON round trip, which drops the undefined
    property and returns [{term: {}}]. The two results are not deep-equal. *)
Theorem repeated_call_loses_undefined :
  let F := VObj [("a", VUndefined)] in
  let first := parseQuery quiet F "id" 50 0 [] in
  let second := parseQuery quiet F "id" 50 0 first.2 in
  first.1 = Ok (Some (mkESQuery None (Some [VObj [("term", VObj [("a", VUndefined)])]])
                                None None None))
  /\ second.1 = Ok (Some (mkESQuery None (Some [VObj [("term", VObj [])]]) None None None))
  /\ match first.1, second.1 with
     | Ok r1, Ok r2 => results_deep_equal r1 r2 = false
     | _, _ => False
     end.
Proof.
  cbv zeta. split; [vm_compute; reflexivity|].
  split; vm_compute; reflexivity.
Qed.

(** C6: an entry found under the key is returned whatever its age; the
    read path compares no timestamp with the clock. *)
Theorem stale_entry_is_served env props idProp maxDepth c cached :
  cache_get (hashQuery (VObj props) idProp) c = Some cached ->
  CACHE_MAX_AGE < clean_time env - entry_timestamp cached ->
  CACHE_MAX_AGE < store_time env - entry_timestamp cached ->
  parseQuery env (VObj props) idProp maxDepth 0 c
  = (Ok (clone_esquery <$> entry_result cached), c).
Proof. intros Hhit _ _. by apply parseQuery_hit. Qed.

(** A call at time 0 caches the translation of [{a: 1}]; a call at time
    400000 ms, past the five minutes, still receives it, even with the
    random draw in favour of cleaning. *)
Lemma stale_entry_is_served_witness :
  let c := (parseQuery (mkEnv false 0 0) (VObj [("a", VNum 1)]) "id" 50 0 []).2 in
  parseQuery (mkEnv true 400000 400000) (VObj [("a", VNum 1)]) "id" 50 0 c
  = (Ok (Some (mkESQuery None (Some [term_clause "a" (VNum 1)]) None None None)), c).
Proof.
  cbv zeta.
  apply (stale_entry_is_served (mkEnv true 400000 400000) [("a", VNum 1)] "id" 50 _
           (mkCacheEntry (Some (mkESQuery None (Some [term_clause "a" (VNum 1)]) None None None)) 0)).
  - vm_compute. reflexivity.
  - vm_compute. reflexivity.
  - vm_compute. reflexivity.
Defined.

(** ** C7: alias rewrite and operator dispatch *)

(** C7, counterexample: with the alias set to [$or], the key [$or] is
    rewritten to [_id] before the table is consulted, and its array is
    translated as term clauses on [_id] instead of going to the handler. *)
Lemma dispatch_on_original_key_fails :
  ~ dispatch_on_original_key (parseQuery quiet) "$or" 50 0 es_empty
      "$or" (VArr [VObj [("a", VNum 1)]]).
Proof.
  intros H. specialize (H handle_or eq_refl).
  apply (f_equal (fun m => (m []).1)) in H. vm_compute in H. discriminate.
Qed.

(** C7, as the code has it: the table is consulted with the rewritten key.
    A key equal to the alias is never dispatched: it is handled as the
    plain field [_id].  A key that differs from the alias and names a
    special operator is dispatched to that operator's handler. *)
Theorem dispatch_on_rewritten_key (P : Parser) idProp maxDepth currentDepth esQuery key v :
  (key = idProp ->
   reduce_step P idProp maxDepth currentDepth esQuery (key, v) = plain_key_step "_id" v esQuery)
  /\ (key <> idProp ->
      forall handler, assoc key handlerTable = Some handler ->
        reduce_step P idProp maxDepth currentDepth esQuery (key, v)
        = handler P v esQuery idProp maxDepth currentDepth).
Proof.
  split.
  - intros ->. unfold reduce_step. simpl fst. by rewrite String.eqb_refl.
  - intros Hne handler Hk. unfold reduce_step. simpl fst. simpl snd.
    assert (String.eqb key idProp = false) as -> by by apply String.eqb_neq.
    unfold specialQueryHandlers. by rewrite Hk.
Qed.

Lemma dispatch_on_rewritten_key_witness :
  reduce_step (parseQuery quiet) "$or" 50 0 es_empty ("$or", VArr [VNum 1])
  = plain_key_step "_id" (VArr [VNum 1]) es_empty
  /\ reduce_step (parseQuery quiet) "id" 50 0 es_empty ("$or", VArr [VNum 1])
     = handle_or (parseQuery quiet) (VArr [VNum 1]) es_empty "id" 50 0.
Proof.
  split.
  - apply (dispatch_on_rewritten_key (parseQuery quiet) "$or" 50 0 es_empty "$or" (VArr [VNum 1])).
    reflexivity.
  - apply (dispatch_on_rewritten_key (parseQuery quiet) "id" 50 0 es_empty "$or" (VArr [VNum 1])).
    + discriminate.
    + reflexivity.
Defined.

(** ** C9: null and undefined payloads *)

(** C9: given [null] or [undefined], the handlers of [$sqs], [$nested],
    [$child], [$parent], [$exists] and [$missing] return the accumulator
    unchanged and raise nothing, whereas [$or] and [$and] raise the
    [BadRequest] of their array assertion. *)
Theorem nullish_payloads (P : Parser) v esQuery idProp maxDepth currentDepth c :
  is_nullish v = true ->
  (forall key handler,
     key ∈ ["$sqs"; "$nested"; "$child"; "$parent"; "$exists"; "$missing"] ->
     assoc key handlerTable = Some handler ->
     handler P v esQuery idProp maxDepth currentDepth c = (Ok esQuery, c))
  /\ handle_or P v esQuery idProp maxDepth currentDepth c
     = (Throw (BadRequest ("Invalid type for '$or': expected array, got '"
                           +:+ type_name (getType v) +:+ "'")), c)
  /\ handle_and P v esQuery idProp maxDepth currentDepth c
     = (Throw (BadRequest ("Invalid type for '$and': expected array, got '"
                           +:+ type_name (getType v) +:+ "'")), c).
Proof.
  intros Hv. split; [|split].
  - intros key handler Hin Hk.
    repeat (apply elem_of_cons in Hin as [->|Hin]); [..| by apply elem_of_nil in Hin];
      injection Hk as <-; destruct v; try discriminate; reflexivity.
  - destruct v; try discriminate; reflexivity.
  - destruct v; try discriminate; reflexivity.
Qed.

Lemma nullish_payloads_witness :
  (forall key handler,
     key ∈ ["$sqs"; "$nested"; "$child"; "$parent"; "$exists"; "$missing"] ->
     assoc key handlerTable = Some handler ->
     handler (parseQuery quiet) VNull es_empty "id" 50 0%nat [] = (Ok es_empty, []))
  /\ handle_or (parseQuery quiet) VNull es_empty "id" 50 0 []
     = (Throw (BadRequest "Invalid type for '$or': expected array, got 'null'"), [])
  /\ handle_and (parseQuery quiet) VNull es_empty "id" 50 0 []
     = (Throw (BadRequest "Invalid type for '$and': expected array, got 'null'"), []).
Proof.
  apply (nullish_payloads (parseQuery quiet) VNull es_empty "id" 50 0 []). reflexivity.
Defined.

(** ** C8: the complexity score *)









Lemma complexity_object (props : list (string * value)) :
  calculateQueryComplexity (VObj props)
  = sumZ ((fun kv => 1 + key_surcharge calculateQueryComplexity kv.1 kv.2) <$> props).
Proof. reflexivity. Qed.

Lemma complexity_array (items : list value) :
  calculateQueryComplexity (VArr items)
  = sumZ ((fun item => 1 + match item with
                            | VNull | VObj _ => calculateQueryComplexity item
                            | VArr sub => Z.min (Z.of_nat (length sub)) 100
                            | _ => 0
                            end) <$> items).
Proof. reflexivity. Qed.



(** ** The frame of a call on the store *)

Module StoreFacts.

Import Store.

(** *** Frame reasoning *)

Lemma frame_refl B st : frame B st st.
Proof. by split. Qed.

Lemma frame_trans B st1 st2 st3 : frame B st1 st2 -> frame B st2 st3 -> frame B st1 st3.
Proof.
  intros [H1 H2] [H3 H4]. split; [lia|]. intros l Hl. by rewrite H4, H2.
Qed.

Section Rules.
Context (I : list cell -> Prop) (B : nat).

Lemma hoare_lift {A} (r : result A) (Q : A -> Prop) :
  (forall a, r = Ok a -> Q a) -> hoare I B (lift r) Q.
Proof. intros HQ st HI r' st' [= <- <-]. split; [apply frame_refl|]. by split. Qed.

Lemma hoare_ret {A} (a : A) (Q : A -> Prop) : Q a -> hoare I B (ret a) Q.
Proof. intros HQ. apply (hoare_lift (Ok a)). by intros ? [= <-]. Qed.

Lemma hoare_throw {A} (e : error) (Q : A -> Prop) : hoare I B (throw e) Q.
Proof. by apply hoare_lift. Qed.

Lemma hoare_bind {A C} (m : SM A) (k : A -> SM C) (Q1 : A -> Prop) (Q2 : C -> Prop) :
  hoare I B m Q1 -> (forall a, Q1 a -> hoare I B (k a) Q2) -> hoare I B (bind m k) Q2.
Proof.
  intros Hm Hk st HI r st'. unfold bind.
  destruct (m st) as [r1 st1] eqn:E. destruct (Hm st HI r1 st1 E) as (Hf & HI1 & HQ).
  destruct r1 as [a|e|key|]; try (intros [= <- <-]; split; [done|]; by split).
  intros E2. destruct (Hk a (HQ a eq_refl) st1 HI1 r st' E2) as (Hf2 & HI2 & HQ2).
  split; [by eapply frame_trans|]. by split.
Qed.

Lemma hoare_weaken {A} (m : SM A) (Q Q' : A -> Prop) :
  hoare I B m Q -> (forall a, Q a -> Q' a) -> hoare I B m Q'.
Proof.
  intros Hm HQ st HI r st' E. destruct (Hm st HI r st' E) as (Hf & HI' & H).
  split; [done|]. split; [done|]. intros a Ha. by apply HQ, H.
Qed.

End Rules.

(** *** Computations that do not change the state *)

Lemma reads_lift {A} (r : result A) : reads (lift r).
Proof. intros st. by exists r. Qed.

Lemma reads_ret {A} (a : A) : reads (ret a).
Proof. apply (reads_lift (Ok a)). Qed.

Lemma reads_bind {A C} (m : SM A) (k : A -> SM C) :
  reads m -> (forall a, reads (k a)) -> reads (bind m k).
Proof.
  intros Hm Hk st. unfold bind. destruct (Hm st) as [r ->].
  destruct r as [a|e|key|]; eauto. apply Hk.
Qed.

Lemma reads_read l : reads (read l).
Proof. intros st. by eexists. Qed.

Ltac reads_tac :=
  repeat first
    [ apply reads_ret | apply reads_lift | apply reads_read
    | apply reads_bind; [| intros ?]
    | match goal with
      | |- reads (match ?x with _ => _ end) => destruct x
      | |- reads (if ?x then _ else _) => destruct x
      end ].

Lemma reads_props_of v : reads (props_of v).
Proof. unfold props_of. reads_tac. Qed.

Lemma reads_items_of v : reads (items_of v).
Proof. unfold items_of. reads_tac. Qed.

Lemma reads_is_array v : reads (is_array v).
Proof. unfold is_array. reads_tac. Qed.

Lemma reads_get_field v k : reads (get_field v k).
Proof. unfold get_field. apply reads_bind; [apply reads_props_of|]. intros. apply reads_ret. Qed.

Lemma reads_getType v : reads (getType v).
Proof.
  unfold getType. destruct v; try apply reads_ret.
  apply reads_bind; [apply reads_is_array|]. intros. apply reads_ret.
Qed.

Lemma reads_validateType v name validators : reads (validateType v name validators).
Proof.
  unfold validateType. apply reads_bind; [apply reads_getType|]. intros.
  case_bool_decide; [apply reads_ret | apply reads_lift].
Qed.

Lemma reads_spread_or_empty v : reads (spread_or_empty v).
Proof.
  unfold spread_or_empty. destruct (truthy v); [|apply reads_ret].
  destruct v; try apply reads_lift; try apply reads_ret.
  apply reads_bind; [apply reads_is_array|]. intros [|]; [apply reads_items_of | apply reads_lift].
Qed.

Lemma reads_snapshot v : reads (snapshot v).
Proof. intros st. by eexists. Qed.

Lemma reads_cache_key v idProp : reads (cache_key v idProp).
Proof. unfold cache_key. apply reads_bind; [apply reads_snapshot|]. intros. apply reads_ret. Qed.

Lemma reads_lookup_cache k : reads (lookup_cache k).
Proof. intros st. by eexists. Qed.

Lemma hoare_reads {A} (I : list cell -> Prop) (B : nat) (m : SM A) :
  reads m -> hoare I B m (fun _ => True).
Proof.
  intros Hm st HI r st' E. destruct (Hm st) as [r0 E0]. rewrite E0 in E.
  injection E as <- <-. split; [apply frame_refl|]. by split.
Qed.

Lemma hoare_modify_cache (I : list cell -> Prop) (B : nat) f :
  hoare I B (modify_cache f) (fun _ => True).
Proof. intros st HI r st' [= <- <-]. split; [by split|]. by split. Qed.

(** *** The accumulator and what the handlers write *)

Lemma no_constructor_app cs c : no_constructor cs -> cell_ok c -> no_constructor (cs ++ [c]).
Proof.
  intros Hcs Hc l props Hl. destruct (decide (l < length cs)%nat) as [Hlt|Hge].
  - rewrite lookup_app_l in Hl by done. by eapply Hcs.
  - rewrite lookup_app_r in Hl by lia. destruct (l - length cs)%nat; [|done].
    simpl in Hl. injection Hl as ->. exact Hc.
Qed.

Lemma no_constructor_insert cs l c :
  no_constructor cs -> cell_ok c -> no_constructor (<[l := c]> cs).
Proof.
  intros Hcs Hc l' props Hl. destruct (decide (l = l')) as [->|Hne].
  - destruct (decide (l' < length cs)%nat) as [Hlt|Hge].
    + rewrite list_lookup_insert_eq in Hl by done. injection Hl as ->. exact Hc.
    + rewrite list_insert_ge in Hl by lia. by eapply Hcs.
  - rewrite list_lookup_insert_ne in Hl by done. by eapply Hcs.
Qed.

Lemma hoare_alloc B acc c :
  cell_ok c -> hoare (inv B acc) B (alloc c) (fresh_ref B).
Proof.
  intros Hc st [(a & props & -> & Ha & Hcell & Hfresh) Hnc] r st' [= <- <-]. simpl.
  pose proof (lookup_lt_Some _ _ _ Hcell) as Hlt.
  split; [|split].
  - split; simpl; [rewrite length_app; lia|]. intros l Hl. apply lookup_app_l. lia.
  - split; [|by apply no_constructor_app].
    exists a, props. rewrite lookup_app_l by done. done.
  - intros x [= <-] b [= <-]. lia.
Qed.

Lemma lookup_assign k x name props :
  lookup_field name (assign k x props)
  = if String.eqb name k then x else lookup_field name props.
Proof.
  induction props as [|[k' y] props IH]; simpl.
  - destruct (String.eqb name k); done.
  - destruct (String.eqb k k') eqn:E; simpl.
    + apply String.eqb_eq in E as ->. destruct (String.eqb name k'); done.
    + destruct (String.eqb name k') eqn:E'; [|exact IH].
      apply String.eqb_eq in E' as ->. rewrite String.eqb_sym, E. done.
Qed.

Lemma keys_assign k x props :
  forall key, key ∈ (fst <$> assign k x props) -> key = k \/ key ∈ (fst <$> props).
Proof.
  induction props as [|[k' y] props IH]; simpl; intros key Hkey.
  - apply list_elem_of_singleton in Hkey. by left.
  - destruct (String.eqb k k') eqn:E; simpl in Hkey.
    + by right.
    + apply elem_of_cons in Hkey as [->|Hkey]; [right; left|].
      destruct (IH _ Hkey); [by left | right; by right].
Qed.

Lemma hoare_set_field B acc k x :
  k <> "constructor" -> (k ∈ section_names -> fresh_ref B x) ->
  hoare (inv B acc) B (set_field acc k x) (fun _ => True).
Proof.
  intros Hk Hx st [(a & props & -> & Ha & Hcell & Hfresh) Hnc] r st'.
  unfold set_field, bind, read. rewrite Hcell. intros [= <- <-]. simpl.
  pose proof (lookup_lt_Some _ _ _ Hcell) as Hlt.
  split; [|split; [|done]].
  - split; simpl; [by rewrite length_insert|]. intros l Hl.
    apply list_lookup_insert_ne. lia.
  - split.
    + exists a, (assign k x props). rewrite list_lookup_insert_eq by done.
      split; [done|]. split; [done|]. split; [done|].
      intros name Hname. rewrite lookup_assign.
      destruct (String.eqb name k) eqn:E; [|by apply Hfresh].
      apply String.eqb_eq in E as ->. by apply Hx.
    + apply no_constructor_insert; [done|]. simpl. intros Hin.
      apply keys_assign in Hin as [Hin|Hin]; [done|]. by eapply Hnc.
Qed.

Lemma hoare_push B acc arr xs :
  fresh_ref B arr -> hoare (inv B acc) B (push arr xs) (fun _ => True).
Proof.
  intros Harr st [(a & props & -> & Ha & Hcell & Hfresh) Hnc] r st'.
  unfold push. destruct arr as [| | | | | |b]; try (intros [= <- <-]; split; [apply frame_refl|]; split; [|done]; split; [by exists a, props | done]).
  unfold bind, read. specialize (Harr b eq_refl).
  destruct (cells st !! b) as [[items|props']|] eqn:Hb;
    try (intros [= <- <-]; split; [apply frame_refl|]; split; [|done]; split; [by exists a, props | done]).
  intros [= <- <-]. simpl.
  assert (a <> b) as Hne by (intros ->; congruence).
  split; [|split; [|done]].
  - split; simpl; [by rewrite length_insert|]. intros l Hl.
    apply list_lookup_insert_ne. lia.
  - split; [|by apply no_constructor_insert].
    exists a, props. rewrite list_lookup_insert_ne by done. done.
Qed.

Lemma hoare_get_section B acc name :
  name ∈ section_names -> hoare (inv B acc) B (get_field acc name) (fresh_ref B).
Proof.
  intros Hname st HI r st'. pose proof HI as [(a & props & -> & Ha & Hcell & Hfresh) Hnc].
  unfold get_field, props_of, bind, read, ret. rewrite Hcell. intros [= <- <-].
  split; [apply frame_refl|]. split; [done|]. intros x [= <-]. by apply Hfresh.
Qed.

Lemma hoare_props_of B acc v :
  hoare (inv B acc) B (props_of v) (fun props => "constructor" ∉ (fst <$> props)).
Proof.
  intros st HI r st'. pose proof HI as [_ Hnc].
  unfold props_of. destruct v as [| | | | | |l];
    try (intros [= <- <-]; split; [apply frame_refl|]; split; [done|];
         intros ? [= <-]; apply not_elem_of_nil).
  unfold bind, read, ret.
  destruct (cells st !! l) as [[items|props]|] eqn:Hl; intros [= <- <-];
    (split; [apply frame_refl|]; split; [done|]); intros ? [= <-];
    first [apply not_elem_of_nil | by eapply Hnc].
Qed.

Lemma hoare_mapM {A C} (I : list cell -> Prop) B (f : A -> SM C) (l : list A) :
  (forall x, hoare I B (f x) (fun _ => True)) -> hoare I B (mapM f l) (fun _ => True).
Proof.
  intros Hf. induction l as [|x l IH]; simpl; [by apply hoare_ret|].
  eapply hoare_bind; [apply Hf|]. intros y _.
  eapply hoare_bind; [apply IH|]. intros ys _. by apply hoare_ret.
Qed.

Lemma hoare_foldM {A C} (I : list cell -> Prop) B (f : A -> C -> SM A) (l : list C)
    (Q : A -> Prop) (a : A) :
  (forall a' x, x ∈ l -> Q a' -> hoare I B (f a' x) Q) -> Q a -> hoare I B (foldM f a l) Q.
Proof.
  revert a. induction l as [|x l IH]; intros a Hf Ha; simpl; [by apply hoare_ret|].
  eapply hoare_bind; [apply Hf; [by left | done]|]. intros a' Ha'.
  apply IH; [|done]. intros a'' y Hy. apply Hf. by right.
Qed.

Lemma hoare_parse B acc (parse : Parser) sub idProp maxDepth d :
  parse_ok parse ->
  hoare (inv B acc) B (parse sub idProp maxDepth (S d)) (fun _ => True).
Proof.
  intros Hp st [(a & props & -> & Ha & Hcell & Hfresh) Hnc] r st' E.
  destruct (Hp _ _ _ _ _ _ _ Hnc E) as [[Hlen Hsame] Hnc'].
  pose proof (lookup_lt_Some _ _ _ Hcell) as Hlt.
  split; [|split; [|done]].
  - split; [done|]. intros l Hl. apply Hsame. lia.
  - split; [|done]. exists a, props. rewrite Hsame by done. done.
Qed.

Ltac keys_tac :=
  simpl;
  let H := fresh in
  intros H;
  repeat (apply elem_of_cons in H as [H|H]; [first [discriminate | congruence]|]);
  by apply elem_of_nil in H.

Ltac in_sections := unfold section_names; repeat constructor.

Ltac hread x :=
  eapply hoare_bind;
  [ apply hoare_reads;
    first [ apply reads_validateType | apply reads_get_field | apply reads_items_of
          | apply reads_is_array | apply reads_props_of | apply reads_getType
          | apply reads_spread_or_empty | apply reads_lift ]
  | intros x _ ].

Ltac hnew x :=
  eapply hoare_bind; [ apply hoare_alloc; keys_tac | intros x _ ].

Lemma hoare_section_or_new B acc name :
  name ∈ section_names ->
  hoare (inv B acc) B (section_or_new acc name) (fresh_ref B).
Proof.
  intros Hname. unfold section_or_new.
  eapply hoare_bind; [by apply hoare_get_section|]. intros current Hcur.
  destruct (truthy current); [by apply hoare_ret|].
  eapply hoare_bind; [by apply hoare_alloc|]. intros fresh Hfresh.
  eapply hoare_bind; [apply hoare_set_field|].
  - intros ->. unfold section_names in Hname.
    repeat (apply elem_of_cons in Hname as [Hname|Hname]; [discriminate|]).
    by apply elem_of_nil in Hname.
  - done.
  - intros _ _. by apply hoare_ret.
Qed.

Lemma hoare_push_field B acc name clauses :
  name ∈ section_names ->
  hoare (inv B acc) B (push_field acc name clauses) (fun _ => True).
Proof.
  intros Hname. unfold push_field.
  eapply hoare_bind; [by apply hoare_get_section|]. intros section Hsec.
  by apply hoare_push.
Qed.

Lemma section_key_in s : section_key s ∈ section_names.
Proof. destruct s; in_sections. Qed.

Lemma section_key_plain s : section_key s <> "constructor".
Proof. by destruct s. Qed.

Lemma criteria_plain criterion querySection term operand :
  assoc criterion queryCriteriaMap = Some (querySection, term, operand) ->
  term <> "constructor" /\ forall op, operand = Some op -> op <> "constructor".
Proof.
  unfold queryCriteriaMap. simpl.
  repeat (case_match; [intros [= <- <- <-]; split; [done | by intros ? [= <-]]|]).
  discriminate.
Qed.

Lemma hoare_criterion_step B acc key v criterion :
  key <> "constructor" ->
  hoare (inv B acc) B (criterion_step key v acc criterion) (fun _ => True).
Proof.
  intros Hkey. unfold criterion_step.
  destruct (assoc criterion queryCriteriaMap) as [[[querySection term] operand]|] eqn:E.
  - destruct (criteria_plain _ _ _ _ E) as [Hterm Hop].
    hread current. hread arr.
    eapply hoare_bind with (Q1 := fun _ => True).
    { destruct arr; [by apply hoare_ret|].
      eapply hoare_bind; [by apply hoare_alloc|]. intros fresh Hfresh.
      apply hoare_set_field; [apply section_key_plain | done]. }
    intros _ _. hread x.
    eapply hoare_bind with (Q1 := fun _ => True).
    { destruct operand as [op|]; [|by apply hoare_ret].
      eapply hoare_weaken; [apply hoare_alloc|done].
      simpl. intros H. apply list_elem_of_singleton in H. by eapply Hop. }
    intros operandValue _.
    eapply hoare_bind; [apply hoare_alloc|].
    { simpl. intros H. by apply list_elem_of_singleton in H. }
    intros inner _.
    eapply hoare_bind; [apply hoare_alloc|].
    { simpl. intros H. by apply list_elem_of_singleton in H. }
    intros clause _. apply hoare_push_field, section_key_in.
  - case_bool_decide; [apply hoare_throw | by apply hoare_ret].
Qed.

Lemma hoare_processCriteria B acc key v :
  key <> "constructor" ->
  hoare (inv B acc) B (processCriteria key v acc) (fun r => r = acc).
Proof.
  intros Hkey. unfold processCriteria. hread own.
  eapply hoare_bind.
  { apply (hoare_foldM _ _ _ _ (fun _ => True)); [|done].
    intros _ criterion _ _. by apply hoare_criterion_step. }
  intros _ _. by apply hoare_ret.
Qed.

Lemma hoare_push_term B acc key val :
  key <> "constructor" ->
  hoare (inv B acc) B (push_term key acc val) (fun _ => True).
Proof.
  intros Hkey. unfold push_term.
  eapply hoare_bind; [apply hoare_alloc|].
  { simpl. intros H. by apply list_elem_of_singleton in H. }
  intros inner _. hnew clause. apply hoare_push_field. in_sections.
Qed.

Lemma hoare_processTermQuery B acc key v :
  key <> "constructor" ->
  hoare (inv B acc) B (processTermQuery key v acc) (fun r => r = acc).
Proof.
  intros Hkey. unfold processTermQuery.
  eapply hoare_bind; [apply hoare_section_or_new; in_sections|]. intros _ _.
  hread arr.
  eapply hoare_bind with (Q1 := fun _ => True).
  { destruct arr; [|by apply hoare_push_term].
    hread vals. apply (hoare_foldM _ _ _ _ (fun _ => True)); [|done].
    intros _ val _ _. by apply hoare_push_term. }
  intros _ _. by apply hoare_ret.
Qed.

Lemma fresh_ref_num B n : fresh_ref B (SNum n).
Proof. by intros b. Qed.

Lemma hoare_sub_items B acc (parse : Parser) idProp maxDepth d items :
  parse_ok parse ->
  hoare (inv B acc) B
    (mapM (fun subQuery => parse subQuery idProp maxDepth (S d)) items) (fun _ => True).
Proof. intros Hp. apply hoare_mapM. intros x. by apply hoare_parse. Qed.

Lemma hoare_handle_or B acc parse v idProp maxDepth d :
  parse_ok parse ->
  hoare (inv B acc) B (handle_or parse v acc idProp maxDepth d) (fun r => r = acc).
Proof.
  intros Hp. unfold handle_or. hread type.
  eapply hoare_bind; [apply hoare_section_or_new; in_sections|]. intros should Hshould.
  hread arrayValue.
  eapply hoare_bind; [by apply hoare_sub_items|]. intros parsed _.
  eapply hoare_bind.
  { apply hoare_mapM. intros p. eapply hoare_weaken; [apply hoare_alloc; keys_tac | done]. }
  intros clauses _.
  eapply hoare_bind; [by apply hoare_push|]. intros _ _.
  eapply hoare_bind.
  { apply hoare_set_field; [done | intros _; apply fresh_ref_num]. }
  intros _ _. by apply hoare_ret.
Qed.

Lemma hoare_merge_key B acc parsed key :
  key <> "constructor" ->
  hoare (inv B acc) B (merge_key acc parsed key) (fun _ => True).
Proof.
  intros Hkey. unfold merge_key. destruct (String.eqb key "minimum_should_match") eqn:E.
  - apply String.eqb_eq in E as ->. hread x. apply hoare_set_field; [done|].
    unfold section_names. intros H.
    repeat (apply elem_of_cons in H as [H|H]; [discriminate|]). by apply elem_of_nil in H.
  - hread clauses. hread arr. destruct arr; [|by apply hoare_ret].
    hread current. hread old. hread new.
    eapply hoare_bind; [by apply hoare_alloc|]. intros merged Hmerged.
    by apply hoare_set_field.
Qed.

Lemma hoare_handle_and B acc parse v idProp maxDepth d :
  parse_ok parse ->
  hoare (inv B acc) B (handle_and parse v acc idProp maxDepth d) (fun r => r = acc).
Proof.
  intros Hp. unfold handle_and. hread type. hread arrayValue.
  eapply hoare_bind; [by apply hoare_sub_items|]. intros parsed _.
  eapply hoare_bind with (Q1 := fun _ => True).
  { apply hoare_foldM; [|done]. intros _ p _ _.
    eapply hoare_bind; [apply hoare_props_of|]. intros own Hown.
    apply hoare_foldM; [|done]. intros _ key Hin _.
    apply hoare_merge_key. by intros ->. }
  intros _ _. by apply hoare_ret.
Qed.

Lemma hoare_handle_all B acc v :
  hoare (inv B acc) B (handle_all v acc) (fun r => r = acc).
Proof.
  unfold handle_all. destruct (negb (truthy v)); [by apply hoare_ret|].
  eapply hoare_bind; [apply hoare_section_or_new; in_sections|]. intros _ _.
  hnew inner. hnew clause.
  eapply hoare_bind; [apply hoare_push_field; in_sections|]. intros _ _. by apply hoare_ret.
Qed.

Lemma hoare_handle_sqs B acc v :
  hoare (inv B acc) B (handle_sqs v acc) (fun r => r = acc).
Proof.
  unfold handle_sqs. destruct (is_nullish v); [by apply hoare_ret|].
  hread t1. hread fields. hread t2. hread query. hread t3. hread operator.
  eapply hoare_bind with (Q1 := fun _ => True).
  { destruct (truthy operator); [apply hoare_reads, reads_validateType | by apply hoare_ret]. }
  intros _ _. hread sanitizedQuery.
  eapply hoare_bind; [apply hoare_section_or_new; in_sections|]. intros _ _.
  hnew inner. hnew clause.
  eapply hoare_bind; [apply hoare_push_field; in_sections|]. intros _ _. by apply hoare_ret.
Qed.

Lemma hoare_push_scoped B acc queryName typeName scope subQuery :
  queryName <> "constructor" -> typeName <> "constructor" ->
  hoare (inv B acc) B (push_scoped acc queryName typeName scope subQuery) (fun r => r = acc).
Proof.
  intros Hq Ht. unfold push_scoped.
  eapply hoare_bind; [apply hoare_section_or_new; in_sections|]. intros _ _.
  hnew wrapped. hnew inner. hnew clause.
  eapply hoare_bind; [apply hoare_push_field; in_sections|]. intros _ _. by apply hoare_ret.
Qed.

Lemma hoare_removeProps B acc v names :
  hoare (inv B acc) B (removeProps v names) (fun _ => True).
Proof.
  unfold removeProps.
  eapply hoare_bind; [apply hoare_props_of|]. intros own Hown.
  eapply hoare_weaken; [apply hoare_alloc | done].
  simpl. intros Hin. apply Hown.
  apply list_elem_of_fmap in Hin as (kv & -> & Hkv).
  apply list_elem_of_fmap. exists kv. split; [done|].
  unfold assign_fresh in Hkv.
  apply list_elem_of_filter in Hkv as [_ Hkv]. by apply list_elem_of_filter in Hkv as [_ Hkv].
Qed.

Lemma hoare_handle_nested B acc parse v idProp maxDepth d :
  parse_ok parse ->
  hoare (inv B acc) B (handle_nested parse v acc idProp maxDepth d) (fun r => r = acc).
Proof.
  intros Hp. unfold handle_nested. destruct (is_nullish v); [by apply hoare_ret|].
  hread t1. hread path. hread t2.
  eapply hoare_bind; [apply hoare_removeProps|]. intros rest _.
  eapply hoare_bind; [by apply hoare_parse|]. intros subQuery _.
  destruct (negb (truthy subQuery)); [by apply hoare_ret|]. by apply hoare_push_scoped.
Qed.

Lemma hoare_handle_childOrParent B acc queryType parse v idProp maxDepth d :
  parse_ok parse ->
  hoare (inv B acc) B (handle_childOrParent queryType parse v acc idProp maxDepth d)
        (fun r => r = acc).
Proof.
  intros Hp. unfold handle_childOrParent. destruct (is_nullish v); [by apply hoare_ret|].
  hread t1. hread type. hread t2.
  eapply hoare_bind; [apply hoare_removeProps|]. intros rest _.
  eapply hoare_bind; [by apply hoare_parse|]. intros subQuery _.
  destruct (negb (truthy subQuery)); [by apply hoare_ret|].
  by destruct queryType; apply hoare_push_scoped.
Qed.

Lemma hoare_exists_clauses B acc operatorName i vals :
  hoare (inv B acc) B (exists_clauses operatorName i vals) (fun _ => True).
Proof.
  revert i. induction vals as [|val vals IH]; intros i; simpl; [by apply hoare_ret|].
  hread t. hnew inner. hnew clause.
  eapply hoare_bind; [apply IH|]. intros clauses _. by apply hoare_ret.
Qed.

Lemma hoare_handle_existsOrMissing B acc clause v :
  hoare (inv B acc) B (handle_existsOrMissing clause v acc) (fun r => r = acc).
Proof.
  unfold handle_existsOrMissing. destruct (is_nullish v); [by apply hoare_ret|].
  hread t. hread vals.
  eapply hoare_bind; [apply hoare_exists_clauses|]. intros values _.
  hread current. hread old.
  eapply hoare_bind; [by apply hoare_alloc|]. intros merged Hmerged.
  eapply hoare_bind; [apply hoare_set_field; [apply section_key_plain | done]|].
  intros _ _. by apply hoare_ret.
Qed.

Lemma hoare_handler B acc key (handler : HandlerFn) parse v idProp maxDepth d :
  assoc key handlerTable = Some handler -> parse_ok parse ->
  hoare (inv B acc) B (handler parse v acc idProp maxDepth d) (fun r => r = acc).
Proof.
  intros Hk Hp. unfold handlerTable in Hk. simpl in Hk.
  repeat (case_match; [injection Hk as <- | ]); try discriminate.
  - by apply hoare_handle_or.
  - by apply hoare_handle_and.
  - apply hoare_handle_all.
  - apply hoare_handle_sqs.
  - by apply hoare_handle_nested.
  - apply hoare_handle_existsOrMissing.
  - apply hoare_handle_existsOrMissing.
  - by apply hoare_handle_childOrParent.
  - by apply hoare_handle_childOrParent.
Qed.

Lemma hoare_reduce_step B acc parse idProp maxDepth d entry :
  parse_ok parse -> entry.1 <> "constructor" ->
  hoare (inv B acc) B (reduce_step parse idProp maxDepth d acc entry) (fun r => r = acc).
Proof.
  intros Hp Hentry. unfold reduce_step. hread type.
  set (key := if String.eqb entry.1 idProp then "_id" else entry.1).
  assert (key <> "constructor") as Hkey by (unfold key; by destruct (String.eqb _ _)).
  destruct (assoc key handlerTable) as [handler|] eqn:Hk; [by eapply hoare_handler|].
  case_bool_decide.
  - unfold inherited_call.
    assert (String.eqb key "constructor" = false) as -> by by apply String.eqb_neq.
    by apply hoare_lift.
  - hread t. case_bool_decide; [by apply hoare_processTermQuery | by apply hoare_processCriteria].
Qed.

(** *** Computations that only allocate *)

Lemma extends_lift {A} (r : result A) : extends (lift r).
Proof. intros st r' st' [= <- <-]. exists []. by rewrite app_nil_r. Qed.

Lemma extends_bind {A C} (m : SM A) (k : A -> SM C) :
  extends m -> (forall a, extends (k a)) -> extends (bind m k).
Proof.
  intros Hm Hk st r st'. unfold bind. destruct (m st) as [r1 st1] eqn:E.
  destruct (Hm _ _ _ E) as [extra1 E1].
  destruct r1 as [a|e|key|]; try (intros [= <- <-]; eauto).
  intros E2. destruct (Hk a _ _ _ E2) as [extra2 E2']. exists (extra1 ++ extra2).
  by rewrite E2', E1, app_assoc.
Qed.

Lemma extends_alloc c : extends (alloc c).
Proof. intros st r st' [= <- <-]. by exists [c]. Qed.

Lemma extends_build v : extends (build v).
Proof.
  induction v as [| | | | | |items IH|props IH] using value_ind';
    try apply (extends_lift (Ok _)).
  - simpl. apply extends_bind; [|intros; apply extends_alloc].
    induction IH as [|x l Hx _ IHl]; [apply (extends_lift (Ok _))|].
    apply extends_bind; [exact Hx|]. intros y.
    apply extends_bind; [exact IHl|]. intros ys. apply (extends_lift (Ok _)).
  - simpl. apply extends_bind; [|intros; apply extends_alloc].
    induction IH as [|kv l Hx _ IHl]; [apply (extends_lift (Ok _))|].
    apply extends_bind; [exact Hx|]. intros y.
    apply extends_bind; [exact IHl|]. intros ys. apply (extends_lift (Ok _)).
Qed.

Lemma extends_frame st st' extra :
  cells st' = cells st ++ extra -> frame (length (cells st)) st st'.
Proof.
  intros E. split; rewrite E; [rewrite length_app; lia|].
  intros l Hl. by apply lookup_app_l.
Qed.

(** *** The frame of a call *)

Lemma props_of_plain v st r st' :
  no_constructor (cells st) -> props_of v st = (r, st') ->
  st' = st /\ forall entries, r = Ok entries -> "constructor" ∉ (fst <$> entries).
Proof.
  intros Hnc. unfold props_of. destruct v as [| | | | | |l];
    try (intros [= <- <-]; split; [done|]; intros ? [= <-]; apply not_elem_of_nil).
  unfold bind, read, ret.
  destruct (cells st !! l) as [[items|props]|] eqn:Hl; intros [= <- <-];
    (split; [done|]); intros ? [= <-]; first [apply not_elem_of_nil | by eapply Hnc].
Qed.

Lemma translate_frame (parse : Parser) env query idProp maxDepth d st r st' :
  parse_ok parse -> no_constructor (cells st) ->
  translate parse env query idProp maxDepth d st = (r, st') ->
  frame (length (cells st)) st st' /\ no_constructor (cells st').
Proof.
  intros Hp Hnc. unfold translate. unfold bind at 1.
  set (st1 := ((if Nat.eqb d 0 && random_below env
                then modify_cache (cleanCache (clean_time env)) else ret ()) st)).
  assert (exists s1, st1 = (Ok (), s1) /\ cells s1 = cells st) as (s1 & -> & Hs1).
  { unfold st1. destruct (_ && _); eexists; (split; [reflexivity | done]). }
  unfold bind at 1. destruct (props_of query s1) as [r1 s1'] eqn:E1.
  apply props_of_plain in E1 as [-> Hkeys]; [|by rewrite Hs1].
  destruct r1 as [entries|e|key|]; try (intros [= <- <-]; split; [by split; rewrite Hs1 | by rewrite Hs1]).
  assert (Forall (fun entry => entry.1 <> "constructor") entries) as Hentries.
  { apply Forall_forall. intros entry Hin Heq. apply (Hkeys entries eq_refl).
    apply list_elem_of_fmap. by exists entry. }
  unfold bind at 1. simpl.
  set (B := length (cells st)). set (acc := SRef (length (cells s1))).
  set (s2 := {| cells := cells s1 ++ [CObj []]; queryCache := queryCache s1 |}).
  intros E.
  assert (inv B acc (cells s2)) as Hinv.
  { split.
    - exists (length (cells s1)), []. split; [done|]. split; [unfold B; by rewrite Hs1|].
      split; [simpl; by rewrite lookup_app_r, Nat.sub_diag by lia|].
      intros name _ b. discriminate.
    - simpl. rewrite Hs1. apply no_constructor_app; [done | apply not_elem_of_nil]. }
  assert (hoare (inv B acc) B
            (let* bool := foldM (reduce_step parse idProp maxDepth d) acc entries in
             let* keys := props_of bool in
             let* _ := (if Nat.eqb d 0
                        then let* cacheKey := cache_key query idProp in
                             modify_cache (cache_set cacheKey
                               (mkCacheEntry (if Nat.eqb (length keys) 0 then SNull else bool)
                                             (store_time env)))
                        else ret tt) in
             ret (if Nat.eqb (length keys) 0 then SNull else bool)) (fun _ => True)) as Hh.
  { eapply hoare_bind.
    { apply hoare_foldM with (Q := fun r => r = acc); [|done].
      intros a' entry Hin ->. apply hoare_reduce_step; [done|].
      by eapply Forall_forall in Hentries. }
    intros bool ->. hread keys.
    eapply hoare_bind with (Q1 := fun _ => True).
    { destruct (Nat.eqb d 0); [|by apply hoare_ret].
      eapply hoare_bind; [apply hoare_reads, reads_cache_key|]. intros cacheKey _.
      apply hoare_modify_cache. }
    intros _ _. by apply hoare_ret. }
  destruct (Hh s2 Hinv r st' E) as ([Hlen Hsame] & [_ Hnc'] & _).
  split; [|done]. split.
  - simpl in Hlen. rewrite length_app, Hs1 in Hlen. lia.
  - intros l Hl. rewrite Hsame by done. simpl. rewrite lookup_app_l by (rewrite Hs1; done).
    by rewrite Hs1.
Qed.

Lemma parseQuery_fuel_frame (fuel : nat) env query idProp maxDepth d st r st' :
  no_constructor (cells st) ->
  parseQuery_fuel fuel env query idProp maxDepth d st = (r, st') ->
  frame (length (cells st)) st st' /\ (d <> 0%nat -> no_constructor (cells st')).
Proof.
  revert query idProp maxDepth d st r st'.
  induction fuel as [|fuel IH]; intros query idProp maxDepth d st r st' Hnc.
  { intros [= <- <-]. split; [apply frame_refl | done]. }
  assert (parse_ok (parseQuery_fuel fuel env)) as Hp.
  { intros sub idProp' maxDepth' d' s r' s' Hs E.
    destruct (IH _ _ _ _ _ _ _ Hs E) as [Hf Hn]. split; [done|]. by apply Hn. }
  simpl. unfold parseQuery_body. unfold bind at 1.
  destruct (reads_validateType query "query" [TObject; TNull; TUndefined] st) as [r0 ->].
  destruct r0 as [t|e|key|]; try (intros [= <- <-]; split; [apply frame_refl | done]).
  destruct (is_nullish query); [intros [= <- <-]; split; [apply frame_refl | done]|].
  destruct d as [|d].
  - simpl Nat.eqb. cbv iota. unfold bind at 1.
    assert (reads (let* cacheKey := cache_key query idProp in lookup_cache cacheKey)) as Hr.
    { apply reads_bind; [apply reads_cache_key | intros; apply reads_lookup_cache]. }
    destruct (Hr st) as [r1 ->].
    destruct r1 as [[entry|]|e|key|]; try (intros [= <- <-]; split; [apply frame_refl | done]).
    + destruct (truthy (entry_result entry));
        [|intros [= <- <-]; split; [apply frame_refl | done]].
      unfold bind. destruct (reads_snapshot (entry_result entry) st) as [r2 ->].
      destruct r2 as [tree|e|key|]; try (intros [= <- <-]; split; [apply frame_refl | done]).
      intros E. destruct (extends_build _ _ _ _ E) as [extra Hextra].
      split; [by eapply extends_frame | done].
    + destruct (Z.of_nat 0 >? maxDepth); [intros [= <- <-]; split; [apply frame_refl | done]|].
      intros E. destruct (translate_frame _ _ _ _ _ _ _ _ _ Hp Hnc E). done.
  - simpl Nat.eqb. cbv iota. unfold bind at 1, ret at 1.
    destruct (Z.of_nat (S d) >? maxDepth); [intros [= <- <-]; split; [apply frame_refl | done]|].
    intros E. destruct (translate_frame _ _ _ _ _ _ _ _ _ Hp Hnc E). done.
Qed.

(** A call on a store none of whose objects has a key named [constructor]
    changes no cell that existed before the call: whatever it returns or
    throws, it has only added cells. *)
Theorem parseQuery_frame env query idProp maxDepth d st :
  no_constructor (cells st) ->
  forall l, (l < length (cells st))%nat ->
    cells (parseQuery env query idProp maxDepth d st).2 !! l = cells st !! l.
Proof.
  intros Hnc l Hl. unfold parseQuery.
  destruct (parseQuery_fuel _ env query idProp maxDepth d st) as [r st'] eqn:E.
  destruct (parseQuery_fuel_frame _ _ _ _ _ _ _ _ _ Hnc E) as [[_ Hsame] _]. by apply Hsame.
Qed.


End StoreFacts.

(** ** C10: what a call does to the caller's objects *)

(** C10 at the filter [{constructor: {x: 1}, a: 2}]: the key [constructor]
    resolves to the inherited [Object] function, whose result, the caller's
    nested object, becomes the accumulator; the next key then adds a
    [filter] section to it.  After the call the caller's nested object has
    changed from [{x: 1}] to [{x: 1, filter: [{term: {a: 2}}]}] and is also
    what the call returns. *)
Theorem constructor_key_mutates_input :
  let out := Store.parseQuery quiet (Store.SRef 0%nat) "id" 50 0 caller_store in
  out.1 = Ok (Store.SRef 1%nat)
  /\ (Store.snapshot (Store.SRef 1%nat) caller_store).1 = Ok (VObj [("x", VNum 1)])
  /\ (Store.snapshot (Store.SRef 1%nat) out.2).1
     = Ok (VObj [("x", VNum 1); ("filter", VArr [term_clause "a" (VNum 2)])]).
Proof.
  cbv zeta. split; [vm_compute; reflexivity|].
  split; vm_compute; reflexivity.
Qed.

(** On filters without such a key the store run and the tree run agree:
    the object returned in the store reads back as the bool query of the
    tree run, and the caller's cells are as before. *)
Example store_run_agrees :
  let st := Store.mkState
              [ Store.CObj [("tags", Store.SRef 1%nat); ("$or", Store.SRef 2%nat);
                            ("$nested", Store.SRef 4%nat); ("n", Store.SRef 5%nat)];
                Store.CArr [Store.SStr "a"; Store.SStr "b"];
                Store.CArr [Store.SRef 3%nat; Store.SNull];
                Store.CObj [("p", Store.SNum 1)];
                Store.CObj [("$path", Store.SStr "q"); ("r", Store.SBool true)];
                Store.CObj [("$gt", Store.SNum 3); ("$in", Store.SRef 1%nat)] ] [] in
  let out := Store.parseQuery quiet (Store.SRef 0%nat) "id" 50 0 st in
  let tree := VObj [("tags", VArr [VStr "a"; VStr "b"]);
                    ("$or", VArr [VObj [("p", VNum 1)]; VNull]);
                    ("$nested", VObj [("$path", VStr "q"); ("r", VBool true)]);
                    ("n", VObj [("$gt", VNum 3); ("$in", VArr [VStr "a"; VStr "b"])])] in
  (Store.snapshot (Store.SRef 0%nat) st).1 = Ok tree
  /\ match out.1, (parseQuery quiet tree "id" 50 0 []).1 with
     | Ok r, Ok (Some q) =>
         match (Store.snapshot r out.2).1 with
         | Ok v => deep_equal v (esquery_value q) = true
         | _ => False
         end
     | _, _ => False
     end
  /\ take 6 (Store.cells out.2) = Store.cells st.
Proof.
  cbv zeta. split; [vm_compute; reflexivity|].
  split; vm_compute; reflexivity.
Qed.

Example store_run_agrees_on_operators :
  let st := Store.mkState
              [ Store.CObj [("uid", Store.SStr "x"); ("$and", Store.SRef 1%nat);
                            ("$sqs", Store.SRef 4%nat); ("$exists", Store.SRef 6%nat);
                            ("$missing", Store.SRef 7%nat); ("$child", Store.SRef 8%nat);
                            ("$all", Store.SBool true)];
                Store.CArr [Store.SRef 2%nat; Store.SRef 3%nat];
                Store.CObj [("$or", Store.SRef 9%nat)];
                Store.CObj [("b", Store.SRef 10%nat)];
                Store.CObj [("$fields", Store.SRef 5%nat); ("$query", Store.SStr "doc")];
                Store.CArr [Store.SStr "title^2"];
                Store.CArr [Store.SStr "f"];
                Store.CArr [Store.SStr "g"; Store.SStr "h"];
                Store.CObj [("$type", Store.SStr "kid"); ("age", Store.SNum 3)];
                Store.CArr [Store.SRef 3%nat];
                Store.CObj [("$ne", Store.SNum 2); ("$phrase", Store.SStr "w")] ] [] in
  let out := Store.parseQuery quiet (Store.SRef 0%nat) "uid" 50 0 st in
  let b := VObj [("b", VObj [("$ne", VNum 2); ("$phrase", VStr "w")])] in
  let tree := VObj [("uid", VStr "x");
                    ("$and", VArr [VObj [("$or", VArr [b])]; b]);
                    ("$sqs", VObj [("$fields", VArr [VStr "title^2"]); ("$query", VStr "doc")]);
                    ("$exists", VArr [VStr "f"]);
                    ("$missing", VArr [VStr "g"; VStr "h"]);
                    ("$child", VObj [("$type", VStr "kid"); ("age", VNum 3)]);
                    ("$all", VBool true)] in
  (Store.snapshot (Store.SRef 0%nat) st).1 = Ok tree
  /\ match out.1, (parseQuery quiet tree "uid" 50 0 []).1 with
     | Ok r, Ok (Some q) =>
         match (Store.snapshot r out.2).1 with
         | Ok v => deep_equal v (esquery_value q) = true
         | _ => False
         end
     | _, _ => False
     end
  /\ take 11 (Store.cells out.2) = Store.cells st.
Proof.
  cbv zeta. split; [vm_compute; reflexivity|].
  split; vm_compute; reflexivity.
Qed.

(** ** Runs that leave the handler table

    A run over trees ends where the code calls a member inherited from
    [Object.prototype].  The store follows the call of [constructor], and
    shows on three filters how the code goes on: this is why the statements
    about results, about the cache across calls and about the accumulator
    are made for runs that stay within the table. *)

(** The tree run of [{constructor: {x: 1}, a: 2}] ends at the call. *)
Example tree_run_ends_at_inherited_call :
  (parseQuery quiet (VObj [("constructor", VObj [("x", VNum 1)]); ("a", VNum 2)]) "id" 50 0 []).1
  = Inherited "constructor".
Proof. vm_compute. reflexivity. Qed.

(** One level of [$and] does not return what its element translates to:
    alone, at depth 1, the inner filter translates to the caller's nested
    object with a [filter] section added; the [$and] around it copies the
    array sections of that object and leaves [x] behind. *)
Example and_keeps_only_the_sections :
  let alone := Store.parseQuery quiet (Store.SRef 2%nat) "id" 50 1 wrapped_store in
  let wrapped := Store.parseQuery quiet (Store.SRef 0%nat) "id" 50 0 wrapped_store in
  alone.1 = Ok (Store.SRef 3%nat)
  /\ (Store.snapshot (Store.SRef 3%nat) alone.2).1
     = Ok (VObj [("x", VNum 1); ("filter", VArr [term_clause "a" (VNum 2)])])
  /\ match wrapped.1 with
     | Ok r => (Store.snapshot r wrapped.2).1 = Ok (VObj [("filter", VArr [term_clause "a" (VNum 2)])])
     | _ => False
     end.
Proof.
  cbv zeta. split; [vm_compute; reflexivity|].
  split; vm_compute; reflexivity.
Qed.

(** The reduction drops what earlier keys produced: with [constructor] as
    the last key, the accumulator that held the clause of [a] is replaced by
    the caller's nested object, and the call returns [{x: 1}]. *)
Example constructor_replaces_the_accumulator :
  let out := Store.parseQuery quiet (Store.SRef 0%nat) "id" 50 0 late_constructor_store in
  out.1 = Ok (Store.SRef 1%nat)
  /\ (Store.snapshot (Store.SRef 1%nat) out.2).1 = Ok (VObj [("x", VNum 1)]).
Proof. cbv zeta. split; vm_compute; reflexivity. Qed.

(** The result is stored under the key of the filter as the call left it,
    not as the caller wrote it: a later call on a copy of the original
    filter, in any key order, finds no entry. *)
Example stored_under_the_changed_filter :
  let original := VObj [("constructor", VObj [("x", VNum 1)]); ("a", VNum 2)] in
  let changed :=
    VObj [("constructor", VObj [("x", VNum 1); ("filter", VArr [term_clause "a" (VNum 2)])]);
          ("a", VNum 2)] in
  let out := Store.parseQuery quiet (Store.SRef 0%nat) "id" 50 0 caller_store in
  (Store.snapshot (Store.SRef 0%nat) caller_store).1 = Ok original
  /\ cache_get (hashQuery original "id") (Store.queryCache out.2) = None
  /\ cache_get (hashQuery changed "id") (Store.queryCache out.2)
     = Some (mkCacheEntry (Store.SRef 1%nat) 0).
Proof.
  cbv zeta. split; [vm_compute; reflexivity|].
  split; vm_compute; reflexivity.
Qed.

(** * Further properties of the translator and its cache *)

(** ** Sorting, as the cache key and the eviction pass use it *)

Section Sorting.

Context {A : Type} (le : A -> A -> bool).

Hypothesis le_total : forall x y, le x y = true \/ le y x = true.

Hypothesis le_trans : forall x y z, le x y = true -> le y z = true -> le x z = true.

Lemma insert_by_perm (x : A) (l : list A) : insert_by le x l ≡ₚ x :: l.
Proof.
  induction l as [|y l IH]; simpl; [done|].
  destruct (le x y); [done|]. rewrite IH. apply Permutation_swap.
Qed.

Lemma stable_sort_perm (l : list A) : stable_sort le l ≡ₚ l.
Proof.
  induction l as [|x l IH]; simpl; [done|].
  unfold stable_sort in *. simpl. by rewrite insert_by_perm, IH.
Qed.

Lemma insert_by_sorted (x : A) (l : list A) :
  StronglySorted (fun a b => le a b = true) l ->
  StronglySorted (fun a b => le a b = true) (insert_by le x l).
Proof.
  induction 1 as [|y l Hs IH Hy]; simpl.
  - repeat constructor.
  - destruct (le x y) eqn:E.
    + constructor; [by constructor|]. constructor; [done|].
      eapply Forall_impl; [exact Hy|]. intros z Hz. by eapply le_trans.
    + constructor; [done|]. rewrite insert_by_perm. constructor; [|done].
      by destruct (le_total x y) as [H|H]; [congruence|].
Qed.

Lemma stable_sort_sorted (l : list A) :
  StronglySorted (fun a b => le a b = true) (stable_sort le l).
Proof.
  induction l as [|x l IH]; [constructor|]. by apply insert_by_sorted.
Qed.

Lemma sorted_unique (l1 l2 : list A) :
  StronglySorted (fun a b => le a b = true) l1 ->
  StronglySorted (fun a b => le a b = true) l2 ->
  l1 ≡ₚ l2 ->
  (forall x y, x ∈ l1 -> y ∈ l1 -> le x y = true -> le y x = true -> x = y) ->
  l1 = l2.
Proof.
  intros H1. revert l2. induction H1 as [|x l1 Hs IH Hx]; intros l2 H2 Hp Hanti.
  - by apply Permutation_nil_l in Hp.
  - destruct H2 as [|y l2 Hs2 Hy].
    { by apply Permutation_nil_r in Hp. }
    assert (x = y) as <-.
    { assert (x ∈ y :: l2) as Hin by (rewrite <- Hp; left).
      assert (y ∈ x :: l1) as Hin' by (rewrite Hp; left).
      apply elem_of_cons in Hin as [->|Hin]; [done|].
      apply elem_of_cons in Hin' as [->|Hin']; [done|].
      apply Hanti; [left | by right | |].
      - by eapply Forall_forall in Hx.
      - by eapply Forall_forall in Hy. }
    f_equal. apply IH; [done | by eapply Permutation_cons_inv |].
    intros a b Ha Hb. apply Hanti; by right.
Qed.

Lemma stable_sort_unique (l1 l2 : list A) :
  l1 ≡ₚ l2 ->
  (forall x y, x ∈ l1 -> y ∈ l1 -> le x y = true -> le y x = true -> x = y) ->
  stable_sort le l1 = stable_sort le l2.
Proof.
  intros Hp Hanti. apply sorted_unique; try apply stable_sort_sorted.
  - by rewrite !stable_sort_perm.
  - intros x y. rewrite !stable_sort_perm. apply Hanti.
Qed.

End Sorting.

(** ** The cache key does not depend on the order of the keys *)

Lemma ascii_compare_N (a b : ascii) :
  Ascii.compare a b = N.compare (Ascii.N_of_ascii a) (Ascii.N_of_ascii b).
Proof. reflexivity. Qed.

Lemma string_compare_trans (s1 s2 s3 : string) :
  String.compare s1 s2 <> Gt -> String.compare s2 s3 <> Gt -> String.compare s1 s3 <> Gt.
Proof.
  revert s2 s3. induction s1 as [|a s1 IH]; intros [|b s2] [|c s3]; simpl; try done.
  rewrite !ascii_compare_N.
  destruct (N.compare_spec (Ascii.N_of_ascii a) (Ascii.N_of_ascii b)) as [E1|E1|E1];
    destruct (N.compare_spec (Ascii.N_of_ascii b) (Ascii.N_of_ascii c)) as [E2|E2|E2];
    try done; intros H1 H2.
  - rewrite E1, E2 in *. rewrite N.compare_refl. by eapply IH.
  - rewrite E1. by apply N.compare_lt_iff in E2 as ->.
  - rewrite <- E2. by apply N.compare_lt_iff in E1 as ->.
  - assert (Ascii.N_of_ascii a < Ascii.N_of_ascii c)%N as E by lia.
    by apply N.compare_lt_iff in E as ->.
Qed.

Lemma string_leb_trans (s1 s2 s3 : string) :
  String.leb s1 s2 = true -> String.leb s2 s3 = true -> String.leb s1 s3 = true.
Proof.
  unfold String.leb. intros H1 H2.
  pose proof (string_compare_trans s1 s2 s3) as H.
  destruct (String.compare s1 s2), (String.compare s2 s3), (String.compare s1 s3);
    try done; exfalso; by apply H.
Qed.

Lemma same_key_same_entry {A} (l : list (string * A)) (x y : string * A) :
  NoDup (fst <$> l) -> x ∈ l -> y ∈ l -> x.1 = y.1 -> x = y.
Proof.
  induction l as [|z l IH]; intros Hnd Hx Hy E; [by apply elem_of_nil in Hx|].
  rewrite fmap_cons in Hnd. apply NoDup_cons in Hnd as [Hz Hnd].
  apply elem_of_cons in Hx as [->|Hx]; apply elem_of_cons in Hy as [->|Hy]; try done.
  - exfalso. apply Hz. rewrite E. apply list_elem_of_fmap. by exists y.
  - exfalso. apply Hz. rewrite <- E. apply list_elem_of_fmap. by exists x.
  - by apply IH.
Qed.

Lemma sort_keys_unique {A} (l1 l2 : list (string * A)) :
  NoDup (fst <$> l1) -> l1 ≡ₚ l2 ->
  stable_sort (fun p q => String.leb p.1 q.1) l1 = stable_sort (fun p q => String.leb p.1 q.1) l2.
Proof.
  intros Hnd Hp. apply stable_sort_unique; [| | done |].
  - intros x y. apply String.leb_total.
  - intros x y z. apply string_leb_trans.
  - intros x y Hx Hy H1 H2. eapply same_key_same_entry; [done..|].
    by apply String.leb_antisym.
Qed.

Lemma forallb_Forall {A} (f : A -> bool) (l : list A) :
  forallb f l = true <-> Forall (fun x => f x = true) l.
Proof.
  induction l as [|x l IH]; simpl; [by split; [constructor|]|].
  rewrite andb_true_iff, Forall_cons. by rewrite IH.
Qed.

Lemma normalize_key_order (a : value) :
  forall a', distinct_keys a = true -> reordered a a' -> normalizeObject a = normalizeObject a'.
Proof.
  induction a as [| |?|?| |?|items IH|props IH] using value_ind'; intros a' Hd Hr;
    inversion Hr; subst; try done.
  - simpl. f_equal. simpl in Hd. apply forallb_Forall in Hd.
    clear Hr. revert IH Hd. match goal with H : Forall2 _ _ _ |- _ => induction H as [|x y xs ys Hxy Hrest IH2] end;
      intros IH Hd; [done|].
    apply Forall_cons in IH as [IHx IH]. apply Forall_cons in Hd as [Hdx Hd].
    rewrite !fmap_cons. f_equal; [by apply IHx | by apply IH2].
  - simpl. f_equal. f_equal. f_equal.
    simpl in Hd. apply andb_prop in Hd as [Hnd Hd]. apply bool_decide_eq_true in Hnd.
    apply forallb_Forall in Hd.
    match goal with H : Forall2 _ props ?qs |- _ => rename H into HF; rename qs into qs0 end.
    match goal with H : _ ≡ₚ _ |- _ => rename H into HP end.
    assert (((fun kv : string * value => (kv.1, normalizeObject kv.2)) <$> props)
            = ((fun kv : string * value => (kv.1, normalizeObject kv.2)) <$> qs0)) as E.
    { clear Hnd Hr HP. revert IH Hd. induction HF as [|x y xs ys [Hk Hxy] Hrest IH2]; intros IH Hd; [done|].
      apply Forall_cons in IH as [IHx IH]. apply Forall_cons in Hd as [Hdx Hd].
      rewrite !fmap_cons. f_equal; [|by apply IH2].
      rewrite Hk. f_equal. by apply IHx. }
    rewrite E. apply sort_keys_unique.
    + rewrite <- E. rewrite <- list_fmap_compose. exact Hnd.
    + by apply fmap_Permutation.
Qed.

(** X1: two filters that differ only in the order in which their objects,
    at any depth, list their properties have the same cache key. *)
Theorem hashQuery_key_order (a b : value) (idProp : string) :
  distinct_keys a = true -> reordered a b -> hashQuery a idProp = hashQuery b idProp.
Proof. intros Hd Hr. unfold hashQuery. by rewrite (normalize_key_order a b). Qed.

Lemma reordered_example :
  reordered (VObj [("a", VNum 1); ("b", VObj [("x", VNum 1); ("y", VNum 2)])])
            (VObj [("b", VObj [("y", VNum 2); ("x", VNum 1)]); ("a", VNum 1)]).
Proof.
  apply (reordered_object _ [("a", VNum 1); ("b", VObj [("y", VNum 2); ("x", VNum 1)])]).
  - repeat constructor.
    apply (reordered_object _ [("x", VNum 1); ("y", VNum 2)]); [|apply Permutation_swap].
    repeat constructor.
  - apply Permutation_swap.
Defined.

Lemma hashQuery_key_order_witness :
  hashQuery (VObj [("a", VNum 1); ("b", VObj [("x", VNum 1); ("y", VNum 2)])]) "id"
  = hashQuery (VObj [("b", VObj [("y", VNum 2); ("x", VNum 1)]); ("a", VNum 1)]) "id".
Proof.
  apply hashQuery_key_order; [vm_compute; reflexivity | apply reordered_example].
Defined.

(** X2: after a top-level call that missed the cache, reached no call of a
    member inherited from [Object.prototype] and returned [r], a call on
    the same filter with its keys in another order is a cache hit: it
    returns the JSON round trip of [r], not a translation of its own.  The
    first call is a run with outcome [Ok], which is a run of the code that
    stays within the handler table; a run that leaves it may change the
    filter before the key of the entry is computed. *)
Theorem reordered_query_is_served_from_cache
    env1 env2 props props' idProp maxDepth1 maxDepth2 c r c1 :
  distinct_keys (VObj props) = true ->
  reordered (VObj props) (VObj props') ->
  cache_get (hashQuery (VObj props) idProp) c = None ->
  parseQuery env1 (VObj props) idProp maxDepth1 0 c = (Ok r, c1) ->
  parseQuery env2 (VObj props') idProp maxDepth2 0 c1 = (Ok (clone_esquery <$> r), c1).
Proof.
  intros Hd Hr Hmiss Hfirst.
  destruct (decide (maxDepth1 < 0)) as [Hneg|Hneg].
  { rewrite parseQuery_too_deep in Hfirst; [discriminate | by intros _ | lia]. }
  rewrite parseQuery_miss in Hfirst; [| by intros _ | lia].
  destruct (reduce_entries _ _ _ _ _ _) as [[bool|e|k|] c'']; try discriminate.
  injection Hfirst as <- <-. unfold after_store. simpl Nat.eqb. cbv iota.
  pose proof (cache_get_set (hashQuery (VObj props) idProp)
                (mkCacheEntry (sentinel_or bool) (store_time env1)) c'') as Hhit.
  rewrite (hashQuery_key_order _ _ idProp Hd Hr) in Hhit at 1.
  by rewrite (parseQuery_hit _ _ _ _ _ _ Hhit).
Qed.

Lemma reordered_query_is_served_from_cache_witness :
  let c1 := (parseQuery quiet (VObj [("a", VNum 1); ("b", VNum 2)]) "id" 50 0 []).2 in
  parseQuery quiet (VObj [("b", VNum 2); ("a", VNum 1)]) "id" 50 0 c1
  = (Ok (Some (mkESQuery None (Some [term_clause "a" (VNum 1); term_clause "b" (VNum 2)])
                 None None None)), c1).
Proof.
  cbv zeta.
  apply (reordered_query_is_served_from_cache quiet quiet
           [("a", VNum 1); ("b", VNum 2)] [("b", VNum 2); ("a", VNum 1)] "id" 50 50 []
           (Some (mkESQuery None (Some [term_clause "a" (VNum 1); term_clause "b" (VNum 2)])
                    None None None))).
  - vm_compute. reflexivity.
  - apply (reordered_object _ [("a", VNum 1); ("b", VNum 2)]); [|apply Permutation_swap].
    repeat constructor.
  - reflexivity.
  - vm_compute. reflexivity.
Defined.

(** ** The cache key does not see undefined properties *)

Section FilterSort.

Context {A : Type} (le : A -> A -> bool).

Hypothesis le_total : forall x y, le x y = true \/ le y x = true.

Hypothesis le_trans : forall x y z, le x y = true -> le y z = true -> le x z = true.

Context (P : A -> Prop) `{forall x, Decision (P x)}.

Lemma insert_by_least (x : A) (l : list A) :
  Forall (fun y => le x y = true) l -> insert_by le x l = x :: l.
Proof. destruct 1 as [|y l Hy _]; simpl; [done|]. by rewrite Hy. Qed.

Lemma filter_insert_by (x : A) (l : list A) :
  StronglySorted (fun a b => le a b = true) l ->
  filter P (insert_by le x l)
  = if decide (P x) then insert_by le x (filter P l) else filter P l.
Proof.
  induction 1 as [|y l Hs IH Hy]; simpl.
  - rewrite filter_cons, filter_nil. by destruct (decide (P x)).
  - destruct (le x y) eqn:E.
    + rewrite filter_cons. destruct (decide (P x)); [|done].
      symmetry. apply insert_by_least.
      apply Forall_forall. intros z Hz. apply list_elem_of_filter in Hz as [_ Hz].
      apply elem_of_cons in Hz as [->|Hz]; [done|].
      eapply le_trans; [exact E|]. by eapply Forall_forall in Hy.
    + rewrite !(filter_cons _ y), IH. destruct (decide (P y)), (decide (P x)); simpl; try done.
      by rewrite E.
Qed.

Lemma filter_stable_sort (l : list A) :
  filter P (stable_sort le l) = stable_sort le (filter P l).
Proof.
  induction l as [|x l IH]; [done|].
  change (stable_sort le (x :: l)) with (insert_by le x (stable_sort le l)).
  rewrite filter_insert_by by by apply stable_sort_sorted.
  rewrite filter_cons. destruct (decide (P x)); [|done].
  by rewrite IH.
Qed.

End FilterSort.

Lemma filter_own_property_order {A} (P : string * A -> Prop) `{forall x, Decision (P x)}
    (props : list (string * A)) :
  filter P (own_property_order props) = own_property_order (filter P props).
Proof.
  unfold own_property_order. rewrite filter_app. f_equal.
  - rewrite filter_stable_sort.
    + f_equal. rewrite !list_filter_filter. apply list_filter_iff. intros x. tauto.
    + intros x y. destruct (Z.leb_spec (default 0 (array_index x.1)) (default 0 (array_index y.1)));
        [by left | right; apply Z.leb_le; lia].
    + intros x y z. rewrite !Z.leb_le. lia.
  - rewrite !list_filter_filter. apply list_filter_iff. intros x. tauto.
Qed.

Lemma filter_normal_form {A} (P : string * A -> Prop) `{forall x, Decision (P x)}
    (props : list (string * A)) :
  filter P (own_property_order (assign_fresh (stable_sort (fun p q => String.leb p.1 q.1) props)))
  = own_property_order (assign_fresh (stable_sort (fun p q => String.leb p.1 q.1) (filter P props))).
Proof.
  rewrite filter_own_property_order. f_equal. unfold assign_fresh.
  rewrite <- filter_stable_sort.
  - rewrite !list_filter_filter. apply list_filter_iff. intros x. tauto.
  - intros x y. apply String.leb_total.
  - intros x y z. apply string_leb_trans.
Qed.

Lemma omap_filter {A B} (f : A -> option B) (P : A -> Prop) `{forall x, Decision (P x)}
    (l : list A) :
  (forall x, ~ P x -> f x = None) -> omap f (filter P l) = omap f l.
Proof.
  intros Hf. induction l as [|x l IH]; [done|].
  rewrite filter_cons. destruct (decide (P x)).
  - by rewrite !omap_cons_eq, IH.
  - by rewrite omap_cons_eq, (Hf x), IH.
Qed.

(** X3: a property whose value is [undefined] does not reach the cache
    key, since [JSON.stringify] leaves it out: the filter with it and the
    filter without it share one key. *)
Theorem hashQuery_ignores_undefined props1 props2 (k : string) (idProp : string) :
  hashQuery (VObj (props1 ++ (k, VUndefined) :: props2)) idProp
  = hashQuery (VObj (props1 ++ props2)) idProp.
Proof.
  unfold hashQuery. do 3 f_equal. f_equal. f_equal.
  change (normalizeObject (VObj ?ps))
    with (VObj (own_property_order (assign_fresh
            (stable_sort (fun p q => String.leb p.1 q.1)
               ((fun kv => (kv.1, normalizeObject kv.2)) <$> ps))))).
  set (defined := fun kv : string * value => is_undefined kv.2 = false).
  unfold json_text; fold json_text. do 2 f_equal.
  rewrite <- (omap_filter _ defined (own_property_order _)).
  2:{ intros x Hx. unfold defined in Hx. by destruct (is_undefined x.2). }
  symmetry. rewrite <- (omap_filter _ defined (own_property_order _)).
  2:{ intros x Hx. unfold defined in Hx. by destruct (is_undefined x.2). }
  rewrite !filter_normal_form. do 4 f_equal.
  by rewrite !fmap_app, fmap_cons, !filter_app, filter_cons.
Qed.

(** ** The eviction pass *)

Lemma filter_all {A} (P : A -> Prop) `{forall x, Decision (P x)} (l : list A) :
  (forall x, x ∈ l -> P x) -> filter P l = l.
Proof.
  induction l as [|x l IH]; intros HP; [done|].
  rewrite filter_cons_True by (apply HP; left). f_equal. apply IH. intros y Hy. apply HP. by right.
Qed.

Lemma filter_none {A} (P : A -> Prop) `{forall x, Decision (P x)} (l : list A) :
  (forall x, x ∈ l -> ~ P x) -> filter P l = [].
Proof.
  induction l as [|x l IH]; intros HP; [done|].
  rewrite filter_cons_False by (apply HP; left). apply IH. intros y Hy. apply HP. by right.
Qed.

Section Clean.

Context {R : Type}.

Implicit Types c : list (string * CacheEntry R).

Lemma delete_all_filter (keys : list string) c :
  foldl (fun c key => cache_delete key c) c keys = filter (fun kv => kv.1 ∉ keys) c.
Proof.
  revert c. induction keys as [|k keys IH]; intros c; simpl.
  - symmetry. apply filter_all. intros x _ H. by apply elem_of_nil in H.
  - rewrite IH. unfold cache_delete. rewrite list_filter_filter.
    apply list_filter_iff. intros x. rewrite not_elem_of_cons. tauto.
Qed.

Lemma delete_entries_filter (entries : list (string * CacheEntry R)) c :
  foldl (fun c kv => cache_delete kv.1 c) c entries = filter (fun kv => kv.1 ∉ entries.*1) c.
Proof.
  rewrite <- delete_all_filter. revert c. induction entries as [|e entries IH]; intros c; [done|].
  simpl. apply IH.
Qed.

Lemma cleanCache_sublist now c : cleanCache now c `sublist_of` c.
Proof.
  unfold cleanCache. rewrite delete_all_filter.
  destruct (_ >? _).
  - rewrite delete_entries_filter. etrans; apply sublist_filter.
  - apply sublist_filter.
Qed.

Lemma expired_deleted now c kv :
  kv ∈ filter (fun kv => kv.1 ∉ (filter (fun kv => CACHE_MAX_AGE < now - entry_timestamp kv.2) c).*1) c ->
  ~ expired now kv.
Proof.
  intros Hin Hexp. apply list_elem_of_filter in Hin as [Hk Hin]. apply Hk.
  apply list_elem_of_fmap. exists kv. split; [done|]. by apply list_elem_of_filter.
Qed.

Lemma filter_keys_length (l1 l2 : list (string * CacheEntry R)) :
  NoDup (l1 ++ l2).*1 ->
  filter (fun kv => kv.1 ∉ l1.*1) (l1 ++ l2) = l2.
Proof.
  intros Hnd. rewrite fmap_app in Hnd. apply NoDup_app in Hnd as (_ & Hdisj & _).
  rewrite filter_app.
  rewrite (filter_none _ l1), (filter_all _ l2); [done| |].
  - intros x Hx Hin. apply (Hdisj x.1); [done|]. apply list_elem_of_fmap. by exists x.
  - intros x Hx Hnot. apply Hnot. apply list_elem_of_fmap. by exists x.
Qed.

Lemma ts_total (x y : string * CacheEntry R) :
  (entry_timestamp x.2 <=? entry_timestamp y.2) = true
  \/ (entry_timestamp y.2 <=? entry_timestamp x.2) = true.
Proof. rewrite !Z.leb_le. lia. Qed.

Lemma ts_trans (x y z : string * CacheEntry R) :
  (entry_timestamp x.2 <=? entry_timestamp y.2) = true ->
  (entry_timestamp y.2 <=? entry_timestamp z.2) = true ->
  (entry_timestamp x.2 <=? entry_timestamp z.2) = true.
Proof. rewrite !Z.leb_le. lia. Qed.

Lemma evict_oldest_length c (n : nat) :
  NoDup c.*1 -> (n <= length c)%nat ->
  let entries := stable_sort (fun a b => entry_timestamp a.2 <=? entry_timestamp b.2) c in
  length (filter (fun kv => kv.1 ∉ (take n entries).*1) c) = (length c - n)%nat.
Proof.
  intros Hnd Hn entries.
  assert (entries ≡ₚ c) as Hp by apply stable_sort_perm.
  rewrite <- (filter_Permutation _ _ _ Hp).
  pose proof (filter_keys_length (take n entries) (drop n entries)) as E.
  rewrite take_drop in E. rewrite E by by rewrite Hp.
  rewrite length_drop. by rewrite Hp.
Qed.

End Clean.

(** X4: [cleanCache] only deletes, and no entry older than
    [CACHE_MAX_AGE] survives it. *)
Theorem cleanCache_drops_expired {R} now (c : list (string * CacheEntry R)) :
  cleanCache now c `sublist_of` c
  /\ Forall (fun kv => now - entry_timestamp kv.2 <= CACHE_MAX_AGE) (cleanCache now c).
Proof.
  split; [apply cleanCache_sublist|].
  apply Forall_forall. intros kv Hin.
  assert (~ expired now kv) as H; [|unfold expired in H; lia].
  apply expired_deleted with (c := c).
  unfold cleanCache in Hin. rewrite delete_all_filter in Hin.
  destruct (_ >? _); [|done].
  rewrite delete_entries_filter in Hin. by apply list_elem_of_filter in Hin as [_ Hin].
Qed.

(** X5: after [cleanCache] the cache holds at most [CACHE_MAX_SIZE]
    entries. *)
Theorem cleanCache_size {R} now (c : list (string * CacheEntry R)) :
  NoDup c.*1 -> Z.of_nat (length (cleanCache now c)) <= CACHE_MAX_SIZE.
Proof.
  intros Hnd. unfold cleanCache. rewrite delete_all_filter.
  set (c1 := filter _ c).
  assert (NoDup c1.*1) as Hnd1.
  { eapply sublist_NoDup; [exact Hnd|]. apply fmap_sublist, sublist_filter. }
  destruct (Z.of_nat (length c1) >? CACHE_MAX_SIZE) eqn:E; [|lia].
  rewrite delete_entries_filter.
  rewrite evict_oldest_length; [|done|]; unfold CACHE_MAX_SIZE in *; lia.
Qed.

Lemma cleanCache_size_witness :
  Z.of_nat (length (cleanCache 400000
                      [("k1", mkCacheEntry (@None ESQuery) 0);
                       ("k2", mkCacheEntry None 399999)])) <= CACHE_MAX_SIZE.
Proof.
  apply cleanCache_size.
  refine (bool_decide_unpack _ _); vm_compute; exact I.
Defined.

Lemma sorted_app_le {A} (R : A -> A -> Prop) (l1 l2 : list A) (x y : A) :
  StronglySorted R (l1 ++ l2) -> x ∈ l1 -> y ∈ l2 -> R x y.
Proof.
  induction l1 as [|z l1 IH]; intros Hs Hx Hy; [by apply elem_of_nil in Hx|].
  simpl in Hs. apply StronglySorted_inv in Hs as [Hs Hz].
  apply elem_of_cons in Hx as [->|Hx]; [|by apply IH].
  eapply Forall_forall in Hz; [exact Hz|]. apply elem_of_app. by right.
Qed.

(** X6: an entry that [cleanCache] removes for size alone is no younger
    than any entry it keeps. *)
Theorem cleanCache_evicts_oldest {R} now (c : list (string * CacheEntry R)) x y :
  NoDup c.*1 -> x ∈ c -> ~ expired now x ->
  x ∉ cleanCache now c -> y ∈ cleanCache now c ->
  entry_timestamp x.2 <= entry_timestamp y.2.
Proof.
  intros Hnd Hx Hfresh Hout Hin. unfold cleanCache in *. rewrite delete_all_filter in *.
  set (c1 := filter _ c) in *.
  assert (NoDup c1.*1) as Hnd1.
  { eapply sublist_NoDup; [exact Hnd|]. apply fmap_sublist, sublist_filter. }
  assert (x ∈ c1) as Hx1.
  { apply list_elem_of_filter. split; [|done]. intros Hk.
    apply list_elem_of_fmap in Hk as (z & Hz & Hzin). apply list_elem_of_filter in Hzin as [Hexp Hzin].
    assert (x = z) as -> by by apply (same_key_same_entry c). by apply Hfresh. }
  destruct (_ >? _); [|done].
  rewrite delete_entries_filter in *.
  set (entries := stable_sort _ c1) in *. set (n := Z.to_nat _) in *.
  assert (entries ≡ₚ c1) as Hp by apply stable_sort_perm.
  assert (x ∈ take n entries) as Hxt.
  { destruct (decide (x.1 ∈ (take n entries).*1)) as [Hk|Hk].
    - apply list_elem_of_fmap in Hk as (z & Hz & Hzin).
      assert (x = z) as ->; [|done].
      eapply same_key_same_entry; [exact Hnd1 | done | | done].
      rewrite <- Hp, <- (take_drop n entries). apply elem_of_app. by left.
    - exfalso. apply Hout. by apply list_elem_of_filter. }
  apply list_elem_of_filter in Hin as [Hyk Hy1].
  assert (y ∈ drop n entries) as Hyd.
  { rewrite <- Hp, <- (take_drop n entries) in Hy1. apply elem_of_app in Hy1 as [Hy1|Hy1]; [|done].
    exfalso. apply Hyk. apply list_elem_of_fmap. by exists y. }
  apply Z.leb_le.
  apply (sorted_app_le (fun a b => (entry_timestamp a.2 <=? entry_timestamp b.2) = true)
           (take n entries) (drop n entries)); [|done..].
  rewrite take_drop. apply stable_sort_sorted; [apply ts_total | apply ts_trans].
Qed.

Lemma cleanCache_evicts_oldest_witness :
  entry_timestamp (mkCacheEntry (@None ESQuery) 0) <= entry_timestamp (mkCacheEntry (@None ESQuery) 7).
Proof.
  apply (cleanCache_evicts_oldest 1000 full_cache ("0", mkCacheEntry None 0)
           ("7", mkCacheEntry None 7)).
  - unfold full_cache. rewrite <- list_fmap_compose.
    apply (NoDup_fmap_2 (pretty : nat -> string)), NoDup_seq.
  - apply (list_elem_of_lookup_2 _ 0%nat). vm_compute. reflexivity.
  - unfold expired. vm_compute. discriminate.
  - intros Hin. apply (list_elem_of_fmap_2 fst) in Hin. revert Hin.
    refine (bool_decide_unpack _ _); vm_compute; exact I.
  - apply (list_elem_of_lookup_2 _ 6%nat). vm_compute. reflexivity.
Defined.

(** ** What a call leaves in the cache *)

Lemma reduce_entries_pure env query idProp maxDepth currentDepth c :
  (reduce_entries env query idProp maxDepth currentDepth c).2 = c.
Proof.
  unfold reduce_entries.
  pose proof (R_reduce pure_same (fun A r _ => pure_lift A r) pure_bind
                (parseQuery env) (parseQuery env) idProp maxDepth currentDepth query es_empty) as H.
  destruct (H (fun sub _ c1 c2 => ltac:(rewrite !parseQuery_nested; done)) c c) as (_ & E & _).
  exact E.
Qed.

Lemma cache_set_length {R} key (entry : CacheEntry R) c :
  (length (cache_set key entry c) <= S (length c))%nat.
Proof.
  induction c as [|[k e] c IH]; simpl; [lia|].
  destruct (String.eqb key k); simpl; lia.
Qed.

Lemma parseQuery_not_object env query idProp maxDepth currentDepth c :
  getType query <> TObject ->
  (parseQuery env query idProp maxDepth currentDepth c).2 = c.
Proof.
  intros Hq. rewrite parseQuery_unfold. unfold parseQuery_body, bind at 1, lift at 1, validateType.
  by destruct query.
Qed.

(** X7: a call that throws stores nothing: the cache is left as it was,
    or as the cleaning pass left it. *)
Theorem failed_call_stores_nothing env query idProp maxDepth currentDepth c e c' :
  parseQuery env query idProp maxDepth currentDepth c = (Throw e, c') ->
  c' `sublist_of` c.
Proof.
  intros Hrun.
  destruct (decide (getType query = TObject)) as [Hq|Hq].
  2:{ pose proof (parseQuery_not_object env query idProp maxDepth currentDepth c Hq) as E.
      rewrite Hrun in E. simpl in E. by subst. }
  destruct query as [| | | | | | |props]; try discriminate. clear Hq.
  destruct currentDepth as [|d].
  2:{ rewrite parseQuery_nested in Hrun. by injection Hrun as _ <-. }
  destruct (cache_get (hashQuery (VObj props) idProp) c) as [cached|] eqn:Hget.
  { by rewrite (parseQuery_hit _ _ _ _ _ _ Hget) in Hrun. }
  destruct (decide (maxDepth < 0)) as [Hneg|Hneg].
  { rewrite parseQuery_too_deep in Hrun; [| by intros _ | lia]. by injection Hrun as _ <-. }
  rewrite parseQuery_miss in Hrun; [| by intros _ | lia].
  pose proof (reduce_entries_pure env (VObj props) idProp maxDepth 0 (after_clean env 0 c)) as Hp.
  destruct (reduce_entries _ _ _ _ _ _) as [[bool|e0|k|] c0]; try discriminate.
  injection Hrun as _ <-. simpl in Hp. subst c0.
  unfold after_clean. destruct (_ && _); [apply cleanCache_sublist | done].
Qed.

Lemma failed_call_stores_nothing_witness :
  (parseQuery (mkEnv true 400000 400000) (VObj [("$or", VNum 1)]) "id" 50 0
     [("k1", mkCacheEntry None 0)]).2
  `sublist_of` [("k1", mkCacheEntry None 0)].
Proof.
  apply (failed_call_stores_nothing (mkEnv true 400000 400000) (VObj [("$or", VNum 1)]) "id" 50 0
           [("k1", mkCacheEntry None 0)]
           (BadRequest (invalid_type_message "$or" [TArray] TNumber))).
  vm_compute. reflexivity.
Defined.

(** ** The reduction only appends *)

Lemma post_any {A} (m : M A) : post m (fun _ => True).
Proof. done. Qed.

Lemma post_ret {A} (a : A) (Q : A -> Prop) : Q a -> post (ret a) Q.
Proof. intros H c a' c' [= <- _]. done. Qed.

Lemma post_lift {A} (r : result A) (Q : A -> Prop) :
  (forall a, r = Ok a -> Q a) -> post (lift r) Q.
Proof. intros H c a c' [= E _]. by apply H. Qed.

Lemma post_bind {A B} (m : M A) (k : A -> M B) (Q1 : A -> Prop) (Q : B -> Prop) :
  post m Q1 -> (forall a, Q1 a -> post (k a) Q) -> post (bind m k) Q.
Proof.
  intros Hm Hk c b c'. unfold bind. destruct (m c) as [[a|e|key|] c1] eqn:E; try discriminate.
  apply Hk. by eapply Hm.
Qed.

Lemma post_foldM {A B} (f : A -> B -> M A) (l : list B) (R : A -> A -> Prop) :
  (forall a, R a a) -> (forall a b c, R a b -> R b c -> R a c) ->
  (forall a x, post (f a x) (R a)) ->
  forall a, post (foldM f a l) (R a).
Proof.
  intros Hrefl Htrans Hf. induction l as [|x l IH]; intros a; simpl.
  - by apply post_ret.
  - eapply post_bind; [apply Hf|]. intros a' Ha c b c' Hrun.
    eapply Htrans; [exact Ha|]. by eapply IH.
Qed.

Lemma grows_refl q : grows q q.
Proof. by split. Qed.

Lemma grows_trans q1 q2 q3 : grows q1 q2 -> grows q2 q3 -> grows q1 q3.
Proof.
  intros [H1 M1] [H2 M2]. split; [|tauto]. intros s.
  destruct (H1 s) as [P1 K1], (H2 s) as [P2 K2]. split; [by etrans | tauto].
Qed.

Lemma get_set_section s s' clauses q :
  get_section s (set_section s' clauses q)
  = if bool_decide (s = s') then Some clauses else get_section s q.
Proof. by destruct s, s'. Qed.

Lemma grows_append s clauses q :
  grows q (set_section s (section_or_empty s q ++ clauses) q).
Proof.
  split; [|by destruct s]. intros s'. unfold section_or_empty. rewrite get_set_section.
  case_bool_decide as E; [subst s'|done].
  split; [by apply prefix_app_r | by eauto].
Qed.

Lemma grows_push s clauses q : grows q (push_section s clauses q).
Proof. apply grows_append. Qed.

Lemma grows_minimum n q : grows q (set_minimum_should_match n q).
Proof. split; [by intros []|by eauto]. Qed.

Lemma grows_merge_section s parsed q : grows q (merge_section s parsed q).
Proof. unfold merge_section. destruct (get_section s parsed); [apply grows_append | apply grows_refl]. Qed.

Lemma grows_merge_parsed q parsed : grows q (merge_parsed q parsed).
Proof.
  unfold merge_parsed.
  eapply grows_trans; [apply (grows_merge_section Must parsed)|].
  eapply grows_trans; [apply (grows_merge_section Filter parsed)|].
  eapply grows_trans; [apply (grows_merge_section Should parsed)|].
  eapply grows_trans; [apply (grows_merge_section MustNot parsed)|].
  destruct (es_minimum_should_match parsed); [apply grows_minimum | apply grows_refl].
Qed.

Lemma grows_merge_all rs q : grows q (foldl merge_parsed q rs).
Proof.
  revert q. induction rs as [|r rs IH]; intros q; simpl; [apply grows_refl|].
  eapply grows_trans; [apply grows_merge_parsed | apply IH].
Qed.

Lemma grows_processCriteria key v q q' :
  processCriteria key v q = Ok q' -> grows q q'.
Proof.
  unfold processCriteria. generalize (fst <$> v) as criteria. intros criteria. revert q.
  induction criteria as [|criterion criteria IH]; intros q; simpl.
  - intros [= <-]. apply grows_refl.
  - destruct (criterion_step key v q criterion) as [q1| | |] eqn:E; try discriminate.
    intros H. eapply grows_trans; [|by apply IH].
    unfold criterion_step in E. destruct (assoc criterion queryCriteriaMap) as [[[sec term] operand]|].
    + injection E as <-. apply grows_push.
    + case_bool_decide; [discriminate|]. injection E as <-. apply grows_refl.
Qed.

Ltac post_skip := eapply post_bind with (Q1 := fun _ => True); [apply post_any | intros ? _].

Lemma post_join queryType P v q idProp maxDepth d :
  post (handle_childOrParent queryType P v q idProp maxDepth d) (grows q).
Proof.
  unfold handle_childOrParent. case_match; [apply post_ret, grows_refl|].
  do 3 post_skip. case_match; apply post_ret; [apply grows_push | apply grows_refl].
Qed.

Lemma post_handler key (handler : HandlerFn) P v q idProp maxDepth d :
  assoc key handlerTable = Some handler ->
  post (handler P v q idProp maxDepth d) (grows q).
Proof.
  intros Hk. unfold handlerTable in Hk. simpl in Hk.
  repeat (case_match; [injection Hk as <- | ]); try discriminate.
  - unfold handle_or. do 2 post_skip. apply post_ret.
    eapply grows_trans; [apply grows_push | apply grows_minimum].
  - unfold handle_and. do 2 post_skip. apply post_ret, grows_merge_all.
  - unfold handle_all. case_match; apply post_ret; [apply grows_refl | apply grows_push].
  - unfold handle_sqs. case_match; [apply post_ret, grows_refl|].
    do 5 post_skip. apply post_ret, grows_push.
  - unfold handle_nested. case_match; [apply post_ret, grows_refl|].
    do 3 post_skip. case_match; apply post_ret; [apply grows_push | apply grows_refl].
  - unfold handle_existsOrMissing. case_match; [apply post_ret, grows_refl|].
    do 2 post_skip. apply post_ret, grows_append.
  - unfold handle_existsOrMissing. case_match; [apply post_ret, grows_refl|].
    do 2 post_skip. apply post_ret, grows_append.
  - apply post_join.
  - apply post_join.
Qed.

Lemma post_reduce_step P idProp maxDepth d q entry :
  post (reduce_step P idProp maxDepth d q entry) (grows q).
Proof.
  unfold reduce_step, specialQueryHandlers.
  destruct (assoc _ handlerTable) as [handler|] eqn:Hk.
  - by eapply post_handler.
  - case_bool_decide; [by apply post_lift|].
    post_skip. case_bool_decide.
    + apply post_ret. unfold processTermQuery. destruct entry.2; apply grows_push.
    + apply post_lift. apply grows_processCriteria.
Qed.

(** X10: a reduction that reaches no call of a member inherited from
    [Object.prototype] never drops or reorders what earlier keys have
    produced: when it returns, every section of the accumulator it started
    from is a prefix of the section it ends with, and no key of the
    accumulator has gone away.  This holds with any function that returns
    bool queries in the place of the recursive call.  The reduction is a
    run with outcome [Ok], which is a run of the code that stays within the
    handler table; a call of the inherited [constructor] replaces the
    accumulator. *)
Theorem reduction_only_appends P idProp maxDepth d entries q c q' c' :
  foldM (reduce_step P idProp maxDepth d) q entries c = (Ok q', c') ->
  grows q q'.
Proof.
  apply (post_foldM _ _ grows grows_refl grows_trans).
  intros a x. apply post_reduce_step.
Qed.

Lemma reduction_only_appends_witness :
  grows (mkESQuery None (Some [term_clause "a" (VNum 1)]) None None None)
        (mkESQuery None (Some [term_clause "a" (VNum 1); term_clause "b" (VNum 2)])
           (Some []) None (Some 1)).
Proof.
  apply (reduction_only_appends (parseQuery quiet) "id" 50 0
           [("b", VNum 2); ("$or", VArr [])]
           (mkESQuery None (Some [term_clause "a" (VNum 1)]) None None None) [] _ []).
  vm_compute. reflexivity.
Defined.

(** * Properties of the security helpers *)

(** ** [sanitizeObject] *)

Lemma sanitize_clean (v : value) : has_dangerous_key (sanitizeObject v) = false.
Proof.
  induction v as [| |?|?| |?|items IH|props IH] using value_ind'; try done.
  - change (existsb has_dangerous_key (sanitizeObject <$> items) = false).
    induction IH as [|x items Hx _ IH]; [done|].
    rewrite fmap_cons. cbn [existsb]. by rewrite Hx, IH.
  - change (existsb (fun kv => bool_decide (kv.1 ∈ DANGEROUS_KEYS) || has_dangerous_key kv.2)
              (omap (fun kv => if bool_decide (kv.1 ∈ DANGEROUS_KEYS) then None
                               else Some (kv.1, sanitizeObject kv.2)) props) = false).
    induction IH as [|[k x] props Hx _ IH]; [done|].
    rewrite omap_cons_eq. cbn [fst snd] in *. case_bool_decide as Hk; [exact IH|].
    cbn [existsb fst snd]. rewrite bool_decide_eq_false_2 by done. by rewrite Hx, IH.
Qed.

(** X15: the result of [sanitizeObject] has none of [DANGEROUS_KEYS] as a
    key, at any depth. *)
Theorem sanitizeObject_removes_dangerous_keys (v : value) :
  has_dangerous_key (sanitizeObject v) = false.
Proof. apply sanitize_clean. Qed.

(** X16: [sanitizeObject] returns a value equal to its argument exactly
    when the argument has none of [DANGEROUS_KEYS] at any depth. *)
Theorem sanitizeObject_fixes_clean_values (v : value) :
  sanitizeObject v = v <-> has_dangerous_key v = false.
Proof.
  split.
  - intros E. rewrite <- E. apply sanitize_clean.
  - induction v as [| |?|?| |?|items IH|props IH] using value_ind'; try done.
    + change (existsb has_dangerous_key items = false ->
              VArr (sanitizeObject <$> items) = VArr items).
      intros H. f_equal. induction IH as [|x items Hx _ IH]; [done|].
      cbn [existsb] in H. apply orb_false_elim in H as [H1 H2]. by rewrite fmap_cons, Hx, IH.
    + change (existsb (fun kv => bool_decide (kv.1 ∈ DANGEROUS_KEYS) || has_dangerous_key kv.2)
                props = false ->
              VObj (omap (fun kv => if bool_decide (kv.1 ∈ DANGEROUS_KEYS) then None
                                    else Some (kv.1, sanitizeObject kv.2)) props) = VObj props).
      intros H. f_equal. induction IH as [|[k x] props Hx _ IH]; [done|].
      cbn [existsb fst snd] in *. apply orb_false_elim in H as [H1 H2].
      apply orb_false_elim in H1 as [Hk H1].
      rewrite omap_cons_eq. cbn [fst snd]. rewrite Hk. by rewrite Hx, IH.
Qed.

Lemma sanitizeObject_fixes_clean_values_witness :
  sanitizeObject (VObj [("a", VArr [VObj [("b", VNum 1)]])])
  = VObj [("a", VArr [VObj [("b", VNum 1)]])]
  /\ has_dangerous_key (sanitizeObject (VObj [("constructor", VNum 1)])) = false.
Proof.
  split.
  - apply sanitizeObject_fixes_clean_values. vm_compute. reflexivity.
  - apply sanitizeObject_fixes_clean_values. vm_compute. reflexivity.
Defined.

(** ** [validateQueryDepth] *)

Lemma all_ok_Forall (checks : list (result unit)) :
  all_ok checks = Ok tt <-> Forall (fun r => r = Ok tt) checks.
Proof.
  induction checks as [|r checks IH]; simpl; [by split; [constructor|]|].
  rewrite Forall_cons. destruct r as [[]| | |]; [rewrite IH; tauto | | |];
    split; try discriminate; by intros [? _].
Qed.

Lemma all_ok_fmap {A} (f : A -> result unit) (l : list A) :
  all_ok (f <$> l) = Ok tt <-> Forall (fun x => f x = Ok tt) l.
Proof. by rewrite all_ok_Forall, Forall_fmap. Qed.

Lemma validateQueryDepth_object props maxDepth d :
  validateQueryDepth (VObj props) maxDepth d
  = if Z.of_nat d >? maxDepth then Throw (BadRequest (depth_message maxDepth))
    else all_ok ((fun kv => visit_key (fun sub => validateQueryDepth sub maxDepth (S d))
                                      kv.1 kv.2) <$> props).
Proof. reflexivity. Qed.

Lemma validateQueryDepth_array items maxDepth d :
  validateQueryDepth (VArr items) maxDepth d
  = if Z.of_nat d >? maxDepth then Throw (BadRequest (depth_message maxDepth))
    else all_ok ((fun item => match item with
                              | VObj _ => validateQueryDepth item maxDepth (S d)
                              | _ => Ok tt
                              end) <$> items).
Proof. reflexivity. Qed.

Lemma visit_key_mono (f g : value -> result unit) key v :
  (forall sub, (height sub < S (height v))%nat -> f sub = Ok tt -> g sub = Ok tt) ->
  visit_key f key v = Ok tt -> visit_key g key v = Ok tt.
Proof.
  intros H. unfold visit_key.
  destruct (bool_decide _), v as [| | | | | |items|props]; try done.
  - rewrite !all_ok_fmap. intros HF. apply Forall_forall. intros x Hx.
    apply H; [apply height_item in Hx; lia | by eapply Forall_forall in HF].
  - apply H. lia.
  - apply H. lia.
Qed.

Lemma depth_shift_below (n : nat) :
  forall q maxDepth maxDepth' d d',
    (height q < n)%nat ->
    maxDepth - Z.of_nat d <= maxDepth' - Z.of_nat d' ->
    validateQueryDepth q maxDepth d = Ok tt -> validateQueryDepth q maxDepth' d' = Ok tt.
Proof.
  induction n as [|n IH]; intros q maxDepth maxDepth' d d' Hh Hle; [lia|].
  destruct q as [| | | | | |items|props]; try done.
  - rewrite !validateQueryDepth_array.
    destruct (Z.of_nat d >? maxDepth) eqn:E; [discriminate|].
    assert ((Z.of_nat d' >? maxDepth') = false) as -> by lia.
    rewrite !all_ok_fmap. intros HF. apply Forall_forall. intros x Hx.
    eapply Forall_forall in HF; [|exact Hx]. apply height_item in Hx.
    destruct x; try done; (eapply IH; [| |exact HF]; lia).
  - rewrite !validateQueryDepth_object.
    destruct (Z.of_nat d >? maxDepth) eqn:E; [discriminate|].
    assert ((Z.of_nat d' >? maxDepth') = false) as -> by lia.
    rewrite !all_ok_fmap. intros HF. apply Forall_forall. intros [k v] Hx.
    eapply Forall_forall in HF; [|exact Hx]. apply height_prop in Hx.
    cbn [fst snd] in *. revert HF. apply visit_key_mono.
    intros sub Hsub. apply IH; lia.
Qed.

(** X17: the verdict of [validateQueryDepth] depends on the remaining
    budget [maxDepth - currentDepth] only, and a query accepted with some
    budget is accepted with any larger one. *)
Theorem validateQueryDepth_monotone q maxDepth maxDepth' d d' :
  maxDepth - Z.of_nat d <= maxDepth' - Z.of_nat d' ->
  validateQueryDepth q maxDepth d = Ok tt -> validateQueryDepth q maxDepth' d' = Ok tt.
Proof. apply (depth_shift_below (S (height q))). lia. Qed.

Lemma validateQueryDepth_monotone_witness :
  validateQueryDepth (VObj [("$or", VArr [VObj [("a", VObj [("$gt", VNum 1)])]])]) 5 3 = Ok tt.
Proof.
  apply (validateQueryDepth_monotone _ 2 5 0 3); [lia | vm_compute; reflexivity].
Defined.

Lemma shallow_accepted_below (n : nat) :
  forall q maxDepth d,
    (height q < n)%nat ->
    Z.of_nat d + Z.of_nat (height q) <= maxDepth + 1 ->
    validateQueryDepth q maxDepth d = Ok tt.
Proof.
  induction n as [|n IH]; intros q maxDepth d Hh Hle; [lia|].
  destruct q as [| | | | | |items|props]; try done.
  - rewrite validateQueryDepth_array.
    assert (0 < height (VArr items))%nat by (simpl; lia).
    assert ((Z.of_nat d >? maxDepth) = false) as -> by lia.
    apply all_ok_fmap, Forall_forall. intros x Hx. apply height_item in Hx.
    destruct x; try done; (apply IH; lia).
  - rewrite validateQueryDepth_object.
    assert (0 < height (VObj props))%nat by (simpl; lia).
    assert ((Z.of_nat d >? maxDepth) = false) as -> by lia.
    apply all_ok_fmap, Forall_forall. intros [k v] Hx. apply height_prop in Hx.
    cbn [fst snd]. unfold visit_key.
    destruct (bool_decide _), v as [| | | | | |sub|sub]; try done; try (apply IH; lia).
    apply all_ok_fmap, Forall_forall. intros y Hy. apply height_item in Hy. apply IH; lia.
Qed.

(** X18: a query whose nesting height, counting objects and arrays, fits
    in the remaining budget is accepted. *)
Theorem validateQueryDepth_accepts_shallow q maxDepth d :
  Z.of_nat d + Z.of_nat (height q) <= maxDepth + 1 ->
  validateQueryDepth q maxDepth d = Ok tt.
Proof. apply (shallow_accepted_below (S (height q))). lia. Qed.

Lemma validateQueryDepth_accepts_shallow_witness :
  validateQueryDepth (VObj [("a", VObj [("$gt", VNum 1)])]) 1 0 = Ok tt.
Proof. apply validateQueryDepth_accepts_shallow. vm_compute. discriminate. Defined.

(** ** The depth validator is at least as strict as the translator *)

Section NoDepthError.

Variable maxDepth : Z.

Local Abbreviation nde := (no_depth_error maxDepth).

Lemma nde_lift {A} (r : result A) :
  r <> Throw (BadRequest (depth_message maxDepth)) -> nde (lift r).
Proof. intros H c. exact H. Qed.

Lemma nde_ret {A} (a : A) : nde (ret a).
Proof. intros c. discriminate. Qed.

Lemma nde_bind {A B} (m : M A) (k : A -> M B) :
  nde m -> (forall a c c', m c = (Ok a, c') -> nde (k a)) -> nde (bind m k).
Proof.
  intros Hm Hk c. unfold bind. specialize (Hm c).
  destruct (m c) as [[a|e|key|] c'] eqn:E; simpl in *;
    [eapply Hk; exact E | intros [= ->]; by apply Hm | discriminate | discriminate].
Qed.

Lemma nde_mapM {A B} (f : A -> M B) (l : list A) :
  Forall (fun x => nde (f x)) l -> nde (mapM f l).
Proof.
  induction 1 as [|x l Hx _ IH]; simpl; [apply nde_ret|].
  apply nde_bind; [done|]. intros y _ _ _. apply nde_bind; [done|]. intros ys _ _ _. apply nde_ret.
Qed.

Lemma nde_foldM {A B} (f : A -> B -> M A) (l : list B) :
  Forall (fun x => forall a, nde (f a x)) l -> forall a, nde (foldM f a l).
Proof.
  induction 1 as [|x l Hx _ IH]; intros a; simpl; [apply nde_ret|].
  apply nde_bind; [apply Hx|]. intros a' _ _ _. apply IH.
Qed.

Lemma validateType_not_depth v name validators :
  validateType v name validators <> Throw (BadRequest (depth_message maxDepth)).
Proof. unfold validateType. case_bool_decide; [discriminate|]. by intros [= E]. Qed.

Lemma sanitizeQueryString_not_depth q n :
  sanitizeQueryString q n <> Throw (BadRequest (depth_message maxDepth)).
Proof.
  unfold sanitizeQueryString. destruct (_ >? _); [by intros [= E]|].
  destruct (existsb _ _); [by intros [= E] | discriminate].
Qed.

Lemma exists_clauses_not_depth op i vals :
  exists_clauses op i vals <> Throw (BadRequest (depth_message maxDepth)).
Proof.
  revert i. induction vals as [|val vals IH]; intros i; simpl; [discriminate|].
  pose proof (validateType_not_depth val (op +:+ "[" +:+ pretty i +:+ "]") [TString]) as Hv.
  destruct (validateType val _ _); [|intros [= ->]; by apply Hv|done|done].
  specialize (IH (S i)). by destruct (exists_clauses op (S i) vals).
Qed.

Lemma processCriteria_not_depth key v q :
  processCriteria key v q <> Throw (BadRequest (depth_message maxDepth)).
Proof.
  unfold processCriteria. generalize (fst <$> v). intros criteria. revert q.
  induction criteria as [|criterion criteria IH]; intros q; simpl; [discriminate|].
  destruct (criterion_step key v q criterion) as [q'|e| |] eqn:E; try done.
  unfold criterion_step in E. destruct (assoc criterion queryCriteriaMap) as [[[? ?] ?]|];
    [discriminate|]. case_bool_decide; [|discriminate]. by injection E as <-.
Qed.

Variables (P : Parser) (idProp : string) (d : nat).

Hypothesis P_safe : forall sub,
  validateQueryDepth sub maxDepth (S d) = Ok tt -> nde (P sub idProp maxDepth (S d)).

Local Abbreviation visit := (visit_key (fun sub => validateQueryDepth sub maxDepth (S d))).

Lemma lift_ok {A} (r : result A) (a : A) c c' : lift r c = (Ok a, c') -> r = Ok a.
Proof. by intros [= ->]. Qed.

Lemma nde_sub_items v key :
  key ∈ nestedOperators -> visit key v = Ok tt ->
  nde (mapM (fun subQuery => P subQuery idProp maxDepth (S d)) (array_items v)).
Proof.
  intros Hk Hv. apply nde_mapM. unfold visit_key in Hv. rewrite bool_decide_eq_true_2 in Hv by done.
  destruct v; try by constructor. simpl. apply all_ok_fmap in Hv.
  eapply Forall_impl; [exact Hv|]. intros x. apply P_safe.
Qed.

Lemma validate_removeProps props names depth :
  validateQueryDepth (VObj props) maxDepth depth = Ok tt ->
  validateQueryDepth (VObj (removeProps props names)) maxDepth depth = Ok tt.
Proof.
  rewrite !validateQueryDepth_object. destruct (_ >? _); [done|].
  rewrite !all_ok_fmap. intros HF. unfold removeProps, assign_fresh.
  apply Forall_forall. intros x Hx. eapply Forall_forall in HF; [exact HF|].
  by do 2 apply list_elem_of_filter in Hx as [_ Hx].
Qed.

Lemma nde_sub_object v key names a c c' name :
  key ∈ nestedOperators -> visit key v = Ok tt ->
  lift (validateType v name [TObject]) c = (Ok a, c') ->
  nde (P (VObj (removeProps (object_props v) names)) idProp maxDepth (S d)).
Proof.
  intros Hk Hv Ht. apply lift_ok in Ht. unfold validateType in Ht.
  case_bool_decide as Hobj; [|discriminate]. apply list_elem_of_singleton in Hobj.
  destruct v; try discriminate. simpl.
  unfold visit_key in Hv. rewrite bool_decide_eq_true_2 in Hv by done.
  apply P_safe. by apply validate_removeProps.
Qed.

Ltac nde_check :=
  apply nde_lift;
  first [ apply validateType_not_depth | apply sanitizeQueryString_not_depth
        | apply exists_clauses_not_depth | apply processCriteria_not_depth ].

Lemma nde_join queryType v q :
  visit (join_operator queryType) v = Ok tt ->
  nde (handle_childOrParent queryType P v q idProp maxDepth d).
Proof.
  intros Hv. unfold handle_childOrParent. case_match; [apply nde_ret|].
  apply nde_bind; [nde_check|]. intros a c c' Ht.
  apply nde_bind; [nde_check|]. intros ? ? ? ?.
  apply nde_bind.
  - eapply nde_sub_object; [|exact Hv|exact Ht]. destruct queryType; simpl; repeat constructor.
  - intros [sub|] _ _ _; apply nde_ret.
Qed.

Lemma nde_handler key (handler : HandlerFn) v q :
  assoc key handlerTable = Some handler -> visit key v = Ok tt ->
  nde (handler P v q idProp maxDepth d).
Proof.
  intros Hk Hv. unfold handlerTable in Hk. simpl in Hk.
  repeat (case_match; [injection Hk as <- | ]); try discriminate;
    repeat match goal with H : String.eqb _ _ = true |- _ => apply String.eqb_eq in H; subst end.
  - unfold handle_or. apply nde_bind; [nde_check|]. intros ? ? ? ?.
    apply nde_bind; [|intros; apply nde_ret].
    eapply nde_sub_items; [|exact Hv]. repeat constructor.
  - unfold handle_and. apply nde_bind; [nde_check|]. intros ? ? ? ?.
    apply nde_bind; [|intros; apply nde_ret].
    eapply nde_sub_items; [|exact Hv]. repeat constructor.
  - unfold handle_all. case_match; apply nde_ret.
  - unfold handle_sqs. case_match; [apply nde_ret|].
    do 3 (apply nde_bind; [nde_check|]; intros ? ? ? ?).
    apply nde_bind; [case_match; [nde_check | apply nde_ret]|]. intros ? ? ? ?.
    apply nde_bind; [nde_check|]. intros; apply nde_ret.
  - unfold handle_nested. case_match; [apply nde_ret|].
    apply nde_bind; [nde_check|]. intros a c c' Ht.
    apply nde_bind; [nde_check|]. intros ? ? ? ?.
    apply nde_bind.
    + eapply nde_sub_object; [|exact Hv|exact Ht]. repeat constructor.
    + intros [sub|] _ _ _; apply nde_ret.
  - unfold handle_existsOrMissing. case_match; [apply nde_ret|].
    do 2 (apply nde_bind; [nde_check|]; intros ? ? ? ?). apply nde_ret.
  - unfold handle_existsOrMissing. case_match; [apply nde_ret|].
    do 2 (apply nde_bind; [nde_check|]; intros ? ? ? ?). apply nde_ret.
  - by apply (nde_join Child).
  - by apply (nde_join Parent).
Qed.

Lemma nde_reduce_step q entry :
  visit entry.1 entry.2 = Ok tt ->
  nde (reduce_step P idProp maxDepth d q entry).
Proof.
  intros Hv. unfold reduce_step, specialQueryHandlers.
  destruct (String.eqb entry.1 idProp) eqn:Hid.
  - simpl. apply nde_bind; [nde_check|]. intros ? ? ? ?.
    case_bool_decide; [apply nde_ret | nde_check].
  - destruct (assoc _ handlerTable) as [handler|] eqn:Hk.
    + by eapply nde_handler.
    + case_bool_decide; [by apply nde_lift|].
      apply nde_bind; [nde_check|]. intros ? ? ? ?.
      case_bool_decide; [apply nde_ret | nde_check].
Qed.

End NoDepthError.

Lemma fuel_no_depth_error (fuel : nat) env idProp maxDepth :
  forall query d,
    validateQueryDepth query maxDepth d = Ok tt ->
    no_depth_error maxDepth (parseQuery_fuel fuel env query idProp maxDepth d).
Proof.
  induction fuel as [|fuel IH]; intros query d Hv.
  { intros c. discriminate. }
  cbn [parseQuery_fuel]. unfold parseQuery_body.
  apply nde_bind; [apply nde_lift, validateType_not_depth|]. intros a c0 c0' Ht.
  destruct (is_nullish query) eqn:Hn; [apply nde_ret|].
  apply lift_ok in Ht.
  destruct query as [| | | | | | |props]; try discriminate;
    try (by unfold validateType in Ht; rewrite bool_decide_eq_false_2 in Ht
              by (rewrite !elem_of_cons, elem_of_nil; simpl; intuition discriminate)).
  rewrite validateQueryDepth_object in Hv.
  destruct (Z.of_nat d >? maxDepth) eqn:Hd; [discriminate|].
  apply all_ok_fmap in Hv.
  intros c1. destruct (if Nat.eqb d 0 then _ else _); [discriminate|].
  revert c1. apply nde_bind; [destruct (_ && _); intros c1; discriminate|]. intros ? ? ? ?.
  apply nde_bind.
  - apply nde_foldM. simpl. eapply Forall_impl; [exact Hv|].
    intros entry He q. apply nde_reduce_step; [|exact He]. intros sub. apply IH.
  - intros bool ? ? ?. apply nde_bind; [destruct (Nat.eqb d 0); intros ?; discriminate|].
    intros; apply nde_ret.
Qed.

(** X20: a query that [validateQueryDepth] accepts never makes
    [parseQuery], called with the same limit and depth, fail with the depth
    error. *)
Theorem validated_query_passes_depth_check env query idProp maxDepth d c :
  validateQueryDepth query maxDepth d = Ok tt ->
  (parseQuery env query idProp maxDepth d c).1 <> Throw (BadRequest (depth_message maxDepth)).
Proof. intros Hv. by apply fuel_no_depth_error. Qed.

Lemma validated_query_passes_depth_check_witness :
  (parseQuery quiet (VObj [("$and", VArr [VObj [("a", VNum 1)]])]) "id" 1 0 []).1
  <> Throw (BadRequest (depth_message 1)).
Proof. apply validated_query_passes_depth_check. vm_compute. reflexivity. Defined.

(** ** The complexity budget *)

Lemma sumZ_nonneg (l : list Z) : Forall (fun x => 0 <= x) l -> 0 <= sumZ l.
Proof. induction 1; simpl; [done|]. unfold sumZ in *. simpl. lia. Qed.

Lemma sumZ_cons (x : Z) (l : list Z) : sumZ (x :: l) = x + sumZ l.
Proof. reflexivity. Qed.

Lemma sumZ_le {A} (f g : A -> Z) (l : list A) :
  Forall (fun x => f x <= g x) l -> sumZ (f <$> l) <= sumZ (g <$> l).
Proof. induction 1; [done|]. rewrite !fmap_cons, !sumZ_cons. lia. Qed.

Lemma sumZ_at_least {A} (f : A -> Z) (l : list A) :
  Forall (fun x => 1 <= f x) l -> Z.of_nat (length l) <= sumZ (f <$> l).
Proof. induction 1; [done|]. rewrite fmap_cons, sumZ_cons. simpl length. lia. Qed.

Lemma key_surcharge_nonneg (calc : value -> Z) (k : string) (v : value) :
  (forall sub, (height sub < S (height v))%nat -> 0 <= calc sub) ->
  0 <= key_surcharge calc k v.
Proof.
  intros H. unfold key_surcharge.
  repeat (case_match; [lia|]).
  assert (0 <= calc v) by (apply H; lia).
  case_match.
  { destruct v as [| | | | | |items|]; try lia.
    apply sumZ_nonneg, Forall_fmap, Forall_forall. intros x Hx. simpl.
    apply height_item in Hx. assert (0 <= calc x) by (apply H; lia). lia. }
  repeat (case_match; [case_match; lia|]).
  destruct v; lia.
Qed.

Lemma complexity_nonneg_below (n : nat) :
  forall q, (height q < n)%nat -> 0 <= calculateQueryComplexity q.
Proof.
  induction n as [|n IH]; intros q Hq; [lia|].
  destruct q as [| | | | | |items|props]; try done.
  - rewrite complexity_array. apply sumZ_nonneg, Forall_fmap, Forall_forall.
    intros x Hx. simpl. apply height_item in Hx.
    assert (0 <= calculateQueryComplexity x) by (apply IH; lia).
    destruct x; lia.
  - rewrite complexity_object. apply sumZ_nonneg, Forall_fmap, Forall_forall.
    intros [k v] Hx. simpl. apply height_prop in Hx.
    assert (0 <= key_surcharge calculateQueryComplexity k v); [|lia].
    apply key_surcharge_nonneg. intros sub Hsub. apply IH. lia.
Qed.

Lemma complexity_nonneg (q : value) : 0 <= calculateQueryComplexity q.
Proof. apply (complexity_nonneg_below (S (height q))). lia. Qed.

(** X21: a query within the complexity budget has no more own keys than
    the budget, and no query is within a negative budget. *)
Theorem complexity_budget_bounds_key_count (query : value) (maxComplexity : Z) :
  validateQueryComplexity query maxComplexity = Ok tt ->
  Z.of_nat (length (object_props query)) <= maxComplexity /\ 0 <= maxComplexity.
Proof.
  unfold validateQueryComplexity. destruct (_ >? _) eqn:E; [discriminate|]. intros _.
  pose proof (complexity_nonneg query). split; [|lia].
  destruct query as [| | | | | | |props]; simpl length; try lia.
  rewrite complexity_object in E.
  assert (Z.of_nat (length props)
          <= sumZ ((fun kv => 1 + key_surcharge calculateQueryComplexity kv.1 kv.2) <$> props));
    [|lia].
  apply sumZ_at_least, Forall_forall. intros [k v] _. simpl.
  assert (0 <= key_surcharge calculateQueryComplexity k v); [|lia].
  apply key_surcharge_nonneg. intros. apply complexity_nonneg.
Qed.

Lemma complexity_budget_bounds_key_count_witness :
  Z.of_nat (length (object_props (VObj [("a", VNum 1); ("$wildcard", VStr "x*")]))) <= 7
  /\ 0 <= 7.
Proof. apply complexity_budget_bounds_key_count. vm_compute. reflexivity. Defined.

Lemma sumZ_perm (l1 l2 : list Z) : l1 ≡ₚ l2 -> sumZ l1 = sumZ l2.
Proof. induction 1; rewrite ?sumZ_cons; lia. Qed.

Lemma reordered_array_inv items v' :
  reordered (VArr items) v' -> exists items', v' = VArr items' /\ Forall2 reordered items items'.
Proof.
  inversion 1; subst; [|by eauto].
  exists items. split; [done|]. apply Forall_Forall2_diag, Forall_forall. intros. constructor.
Qed.

Lemma reordered_object_inv props v' :
  reordered (VObj props) v' ->
  exists qs qs', v' = VObj qs' /\ qs ≡ₚ qs'
    /\ Forall2 (fun p q => p.1 = q.1 /\ reordered p.2 q.2) props qs.
Proof.
  inversion 1; subst; [|by eauto].
  exists props, props. split; [done|]. split; [done|].
  apply Forall_Forall2_diag, Forall_forall. intros. split; [done|constructor].
Qed.

Lemma reordered_atom v v' :
  height v = 0%nat -> reordered v v' -> v' = v.
Proof. intros Hh. by inversion 1; subst. Qed.

Ltac reordered_atom :=
  match goal with
  | Hr : reordered ?x ?y |- _ => by rewrite (reordered_atom x y eq_refl Hr)
  end.

Lemma sumZ_Forall2 {A} (f : A -> Z) (l1 l2 : list A) :
  Forall2 (fun x y => f x = f y) l1 l2 -> sumZ (f <$> l1) = sumZ (f <$> l2).
Proof. induction 1; [done|]. rewrite !fmap_cons, !sumZ_cons. lia. Qed.

Lemma key_surcharge_reordered (calc : value -> Z) (k : string) (v v' : value) :
  (forall sub sub', (height sub < S (height v))%nat -> reordered sub sub' -> calc sub = calc sub') ->
  reordered v v' -> key_surcharge calc k v = key_surcharge calc k v'.
Proof.
  intros H Hr.
  assert (calc v = calc v') as Ev by (apply H; [lia|done]).
  assert (is_object_type v = is_object_type v') as Et.
  { destruct v; try reordered_atom.
    - by apply reordered_array_inv in Hr as (? & -> & _).
    - by apply reordered_object_inv in Hr as (? & ? & -> & _). }
  unfold key_surcharge. rewrite <- Et, <- Ev.
  repeat (case_match; [done|]).
  destruct v as [| | | | | |items|props]; try reordered_atom.
  - apply reordered_array_inv in Hr as (items' & -> & HF).
    assert (sumZ ((fun item => calc item * 2) <$> items)
            = sumZ ((fun item => calc item * 2) <$> items')) as ->.
    { apply sumZ_Forall2. apply Forall2_same_length_lookup. split; [by eapply Forall2_length|].
      intros i x y Hx Hy. rewrite (H x y); [done| |by eapply Forall2_lookup_lr].
      apply list_elem_of_lookup_2, height_item in Hx. lia. }
    by rewrite (Forall2_length _ _ _ HF).
  - by apply reordered_object_inv in Hr as (? & ? & -> & _).
Qed.

Lemma complexity_reordered_below (n : nat) :
  forall a b, (height a < n)%nat -> reordered a b ->
    calculateQueryComplexity a = calculateQueryComplexity b.
Proof.
  induction n as [|n IH]; intros a b Hh Hr; [lia|].
  destruct a as [| | | | | |items|props]; try reordered_atom.
  - apply reordered_array_inv in Hr as (items' & -> & HF).
    rewrite !complexity_array. apply sumZ_Forall2.
    apply Forall2_same_length_lookup. split; [by eapply Forall2_length|].
    intros i x y Hx Hy. pose proof (Forall2_lookup_lr _ _ _ _ _ _ HF Hx Hy) as Hxy.
    apply list_elem_of_lookup_2, height_item in Hx.
    destruct x as [| | | | | |sub|sub]; try reordered_atom.
    + apply reordered_array_inv in Hxy as (sub' & -> & HF'). by rewrite (Forall2_length _ _ _ HF').
    + pose proof Hxy as Hxy'. apply reordered_object_inv in Hxy' as (? & sub' & -> & _).
      f_equal. apply IH; [lia|done].
  - apply reordered_object_inv in Hr as (qs & qs' & -> & Hp & HF).
    rewrite !complexity_object. rewrite <- (sumZ_perm _ _ (fmap_Permutation _ _ _ Hp)).
    apply sumZ_Forall2. apply Forall2_same_length_lookup. split; [by eapply Forall2_length|].
    intros i [k v] [k' v'] Hx Hy. destruct (Forall2_lookup_lr _ _ _ _ _ _ HF Hx Hy) as [Hk Hv].
    cbn [fst snd] in *. subst k'. f_equal. apply key_surcharge_reordered; [|done].
    intros sub sub' Hsub. apply IH. apply list_elem_of_lookup_2, height_prop in Hx. lia.
Qed.

(** X22: the complexity score does not depend on the order in which
    objects list their properties. *)
Theorem complexity_ignores_key_order (a b : value) :
  reordered a b -> calculateQueryComplexity a = calculateQueryComplexity b.
Proof. apply (complexity_reordered_below (S (height a))). lia. Qed.

Lemma complexity_ignores_key_order_witness :
  calculateQueryComplexity (VObj [("a", VNum 1); ("b", VObj [("x", VNum 1); ("y", VNum 2)])])
  = calculateQueryComplexity (VObj [("b", VObj [("y", VNum 2); ("x", VNum 1)]); ("a", VNum 1)]).
Proof. apply complexity_ignores_key_order, reordered_example. Defined.

(** ** Sanitizing and the two validators *)

Lemma sanitizeObject_array items : sanitizeObject (VArr items) = VArr (sanitizeObject <$> items).
Proof. reflexivity. Qed.

Lemma sanitizeObject_object props :
  sanitizeObject (VObj props)
  = VObj (omap (fun kv => if bool_decide (kv.1 ∈ DANGEROUS_KEYS) then None
                          else Some (kv.1, sanitizeObject kv.2)) props).
Proof. reflexivity. Qed.

Lemma sumZ_omap_le {A B} (f : A -> Z) (g : B -> Z) (h : A -> option B) (l : list A) :
  Forall (fun x => match h x with Some y => g y <= f x | None => 0 <= f x end) l ->
  sumZ (g <$> omap h l) <= sumZ (f <$> l).
Proof.
  induction 1 as [|x l Hx _ IH]; [done|].
  rewrite omap_cons_eq, fmap_cons, sumZ_cons. destruct (h x); [rewrite fmap_cons, sumZ_cons|]; lia.
Qed.

Lemma key_surcharge_sanitized (k : string) (v : value) :
  (forall sub, (height sub < S (height v))%nat ->
     calculateQueryComplexity (sanitizeObject sub) <= calculateQueryComplexity sub) ->
  key_surcharge calculateQueryComplexity k (sanitizeObject v)
  <= key_surcharge calculateQueryComplexity k v.
Proof.
  intros H.
  assert (calculateQueryComplexity (sanitizeObject v) <= calculateQueryComplexity v)
    by (apply H; lia).
  assert (is_object_type (sanitizeObject v) = is_object_type v) as Et by by destruct v.
  unfold key_surcharge. rewrite Et.
  repeat (case_match; [lia|]).
  case_match.
  { destruct v as [| | | | | |items|]; try done. rewrite sanitizeObject_array.
    rewrite <- list_fmap_compose. apply sumZ_le, Forall_forall. intros x Hx. simpl.
    apply height_item in Hx. specialize (H x). lia. }
  repeat (case_match; [case_match; lia|]).
  destruct v as [| | | | | |items|]; try done.
  rewrite sanitizeObject_array, length_fmap. lia.
Qed.

Lemma complexity_sanitized_below (n : nat) :
  forall q, (height q < n)%nat ->
    calculateQueryComplexity (sanitizeObject q) <= calculateQueryComplexity q.
Proof.
  induction n as [|n IH]; intros q Hh; [lia|].
  destruct q as [| | | | | |items|props]; try done.
  - rewrite sanitizeObject_array, !complexity_array. rewrite <- list_fmap_compose.
    apply sumZ_le, Forall_forall. intros x Hx. cbn beta. unfold compose.
    apply height_item in Hx.
    assert (calculateQueryComplexity (sanitizeObject x) <= calculateQueryComplexity x)
      by (apply IH; lia).
    destruct x as [| | | | | |sub|sub]; try done;
      rewrite ?sanitizeObject_array, ?sanitizeObject_object in *; [|lia].
    rewrite length_fmap. lia.
  - rewrite sanitizeObject_object, !complexity_object.
    apply sumZ_omap_le, Forall_forall. intros [k v] Hx. cbn [fst snd].
    apply height_prop in Hx.
    assert (0 <= key_surcharge calculateQueryComplexity k v)
      by (apply key_surcharge_nonneg; intros; apply complexity_nonneg).
    case_bool_decide; [lia|]. cbn [fst snd].
    assert (key_surcharge calculateQueryComplexity k (sanitizeObject v)
            <= key_surcharge calculateQueryComplexity k v); [|lia].
    apply key_surcharge_sanitized. intros sub Hsub. apply IH. lia.
Qed.

Lemma visit_key_sanitized (f g : value -> result unit) (k : string) (v : value) :
  (forall sub, (height sub < S (height v))%nat -> f sub = Ok tt -> g (sanitizeObject sub) = Ok tt) ->
  visit_key f k v = Ok tt -> visit_key g k (sanitizeObject v) = Ok tt.
Proof.
  intros H. unfold visit_key.
  destruct (bool_decide _), v as [| | | | | |items|props]; try done.
  - rewrite sanitizeObject_array, !all_ok_fmap. intros HF. apply Forall_fmap, Forall_forall.
    intros x Hx. simpl. apply H; [apply height_item in Hx; lia | by eapply Forall_forall in HF].
  - rewrite sanitizeObject_object. rewrite <- sanitizeObject_object. apply H. lia.
  - rewrite sanitizeObject_object. rewrite <- sanitizeObject_object. apply H. lia.
Qed.

Lemma depth_sanitized_below (n : nat) :
  forall q maxDepth d, (height q < n)%nat ->
    validateQueryDepth q maxDepth d = Ok tt ->
    validateQueryDepth (sanitizeObject q) maxDepth d = Ok tt.
Proof.
  induction n as [|n IH]; intros q maxDepth d Hh; [lia|].
  destruct q as [| | | | | |items|props]; try done.
  - rewrite sanitizeObject_array, !validateQueryDepth_array. destruct (_ >? _); [done|].
    rewrite !all_ok_fmap. intros HF. apply Forall_fmap, Forall_forall. intros x Hx. simpl.
    eapply Forall_forall in HF; [|exact Hx]. apply height_item in Hx.
    destruct x as [| | | | | |sub|sub]; try done.
    rewrite sanitizeObject_object, <- sanitizeObject_object. apply IH; [lia|done].
  - rewrite sanitizeObject_object, !validateQueryDepth_object. destruct (_ >? _); [done|].
    rewrite !all_ok_fmap. intros HF. apply Forall_forall. intros [k v] Hx.
    apply list_elem_of_omap in Hx as ([k0 v0] & Hin & Hx). cbn [fst snd] in *.
    case_bool_decide; [discriminate|]. injection Hx as <- <-.
    eapply Forall_forall in HF; [|exact Hin]. apply height_prop in Hin. cbn [fst snd] in *.
    revert HF. apply visit_key_sanitized. intros sub Hsub. apply IH. lia.
Qed.

(** X23: sanitizing keeps a query valid: what [validateQueryDepth]
    accepts it accepts after [sanitizeObject], and likewise
    [validateQueryComplexity]. *)
Theorem sanitizing_keeps_a_query_valid (query : value) (maxDepth : Z) (d : nat)
    (maxComplexity : Z) :
  (validateQueryDepth query maxDepth d = Ok tt ->
   validateQueryDepth (sanitizeObject query) maxDepth d = Ok tt)
  /\ (validateQueryComplexity query maxComplexity = Ok tt ->
      validateQueryComplexity (sanitizeObject query) maxComplexity = Ok tt).
Proof.
  split.
  - apply (depth_sanitized_below (S (height query))). lia.
  - unfold validateQueryComplexity.
    pose proof (complexity_sanitized_below (S (height query)) query ltac:(lia)).
    destruct (calculateQueryComplexity query >? maxComplexity) eqn:E; [discriminate|].
    intros _. by assert ((calculateQueryComplexity (sanitizeObject query) >? maxComplexity) = false)
      as -> by lia.
Qed.

Lemma sanitizing_keeps_a_query_valid_witness :
  validateQueryDepth (sanitizeObject (VObj [("constructor", VObj []); ("a", VNum 1)])) 1 0 = Ok tt
  /\ validateQueryComplexity (sanitizeObject (VObj [("constructor", VObj []); ("a", VNum 1)])) 2
     = Ok tt.
Proof.
  split.
  - apply (proj1 (sanitizing_keeps_a_query_valid _ 1 0 2)). vm_compute. reflexivity.
  - apply (proj2 (sanitizing_keeps_a_query_valid _ 1 0 2)). vm_compute. reflexivity.
Defined.

(** ** Chains of [$and] under the depth validator *)

(** X19: on [n] levels of [$and] around an object without nested values,
    [validateQueryDepth] fails exactly when [n] exceeds [maxDepth]. *)
Theorem validateQueryDepth_and_chain (n : nat) (props : list (string * value)) (maxDepth : Z) :
  Forall (fun kv => height kv.2 = 0%nat) props ->
  validateQueryDepth (nest_and n (VObj props)) maxDepth 0
  = if Z.of_nat n >? maxDepth then Throw (BadRequest (depth_message maxDepth)) else Ok tt.
Proof.
  intros Hflat.
  assert (forall d, validateQueryDepth (nest_and n (VObj props)) maxDepth d
                    = if Z.of_nat (d + n) >? maxDepth
                      then Throw (BadRequest (depth_message maxDepth)) else Ok tt) as H;
    [|apply (H 0%nat)].
  induction n as [|n IH]; intros d.
  - cbn [nest_and]. rewrite validateQueryDepth_object, Nat.add_0_r.
    destruct (_ >? _); [done|]. apply all_ok_fmap.
    eapply Forall_impl; [exact Hflat|]. intros [k v] Hv. unfold visit_key. cbn [fst snd] in *.
    by destruct (bool_decide _), v.
  - cbn [nest_and]. rewrite validateQueryDepth_object.
    destruct (Z.of_nat d >? maxDepth) eqn:E.
    { apply Z.gtb_lt in E. by rewrite (proj2 (Z.gtb_lt _ _)) by lia. }
    rewrite fmap_cons, fmap_nil. unfold visit_key. cbn [fst snd].
    rewrite bool_decide_eq_true_2 by (unfold nestedOperators; repeat constructor).
    rewrite fmap_cons, fmap_nil. rewrite IH.
    replace (S d + n)%nat with (d + S n)%nat by lia.
    by destruct (Z.of_nat (d + S n) >? maxDepth).
Qed.

Lemma validateQueryDepth_and_chain_witness :
  validateQueryDepth (nest_and 2 (VObj [("a", VNum 1)])) 1 0
  = Throw (BadRequest (depth_message 1)).
Proof.
  apply (validateQueryDepth_and_chain 2 [("a", VNum 1)] 1). repeat constructor.
Defined.

(** * Further properties of the handlers *)

(** ** [$exists] and [$missing] *)

Lemma exists_clauses_strings op (fields : list string) :
  forall i, exists_clauses op i (VStr <$> fields) = Ok (exists_clause <$> fields).
Proof.
  induction fields as [|f fields IH]; intros i; [done|].
  rewrite !fmap_cons. cbn [exists_clauses]. unfold validateType at 1. cbn [getType].
  rewrite bool_decide_eq_true_2 by repeat constructor. by rewrite IH.
Qed.

Lemma exists_clauses_first_bad op (fields : list string) (bad : value) (rest : list value) :
  getType bad <> TString ->
  forall i, exists_clauses op i ((VStr <$> fields) ++ bad :: rest)
            = Throw (BadRequest (invalid_type_message
                                   (op +:+ "[" +:+ pretty (i + length fields)%nat +:+ "]")
                                   [TString] (getType bad))).
Proof.
  intros Hbad. induction fields as [|f fields IH]; intros i.
  - cbn [fmap list_fmap app exists_clauses length]. rewrite Nat.add_0_r.
    by rewrite validateType_bad by by rewrite list_elem_of_singleton.
  - rewrite fmap_cons. cbn [app exists_clauses]. unfold validateType at 1. cbn [getType].
    rewrite bool_decide_eq_true_2 by repeat constructor. rewrite IH.
    cbn [length]. by replace (S i + length fields)%nat with (i + S (length fields))%nat by lia.
Qed.

(** X12: [$exists] and [$missing] on an array of strings append one
    [exists] clause per field, in order; when an element is no string the
    handler throws, naming the index and the type of the first such
    element. *)
Theorem exists_and_missing_check_every_field
    (clause : SectionName) (fields : list string) (bad : value) (rest : list value)
    (esQuery : ESQuery) (c : Cache) :
  getType bad <> TString ->
  handle_existsOrMissing clause (VArr (VStr <$> fields)) esQuery c
  = (Ok (set_section clause (section_or_empty clause esQuery ++ (exists_clause <$> fields))
           esQuery), c)
  /\ handle_existsOrMissing clause (VArr ((VStr <$> fields) ++ bad :: rest)) esQuery c
     = (Throw (BadRequest (invalid_type_message
                             (exists_operator clause +:+ "[" +:+ pretty (length fields) +:+ "]")
                             [TString] (getType bad))), c).
Proof.
  intros Hbad. unfold handle_existsOrMissing. cbn [is_nullish array_items].
  fold (exists_operator clause).
  rewrite !validateType_ok by (simpl; repeat constructor).
  unfold bind, lift, ret. split.
  - by rewrite exists_clauses_strings.
  - by rewrite (exists_clauses_first_bad _ _ _ _ Hbad 0).
Qed.

Lemma exists_and_missing_check_every_field_witness :
  handle_existsOrMissing Must (VArr (VStr <$> ["a"; "b"])) es_empty []
  = (Ok (mkESQuery (Some [exists_clause "a"; exists_clause "b"]) None None None None), [])
  /\ handle_existsOrMissing Must (VArr ((VStr <$> ["a"; "b"]) ++ VNum 3 :: [VStr "c"])) es_empty []
     = (Throw (BadRequest "Invalid type for '$exists[2]': expected string, got 'number'"), []).
Proof.
  apply (exists_and_missing_check_every_field Must ["a"; "b"] (VNum 3) [VStr "c"] es_empty []).
  discriminate.
Defined.

(** ** [$sqs] *)




(** ** [processCriteria] *)

Lemma clause_count_push s clauses q :
  clause_count (push_section s clauses q) = (clause_count q + length clauses)%nat.
Proof.
  unfold clause_count, push_section, section_or_empty.
  destruct s; simpl; rewrite length_app; lia.
Qed.

(** X14: [processCriteria] adds exactly one clause per criterion that
    [queryCriteriaMap] lists and nothing for any other, and leaves
    [minimum_should_match] alone. *)
Theorem processCriteria_counts_known_operators
    (key : string) (v : list (string * value)) (esQuery esQuery' : ESQuery) :
  processCriteria key v esQuery = Ok esQuery' ->
  clause_count esQuery' = (clause_count esQuery + length (known_criteria v))%nat
  /\ es_minimum_should_match esQuery' = es_minimum_should_match esQuery.
Proof.
  unfold processCriteria, known_criteria. generalize (fst <$> v). intros criteria.
  revert esQuery. induction criteria as [|criterion criteria IH]; intros esQuery.
  - intros [= <-]. simpl. split; [lia|done].
  - cbn [fold_result]. destruct (criterion_step key v esQuery criterion) as [q1| | |] eqn:E;
      try discriminate.
    intros H. apply IH in H as [-> ->]. rewrite filter_cons.
    unfold criterion_step in E.
    destruct (assoc criterion queryCriteriaMap) as [[[sec term] operand]|] eqn:Ea.
    + injection E as <-. rewrite decide_True by eauto. rewrite clause_count_push.
      cbn [length]. split; [lia|by destruct sec].
    + case_bool_decide; [discriminate|]. injection E as <-.
      rewrite decide_False by (by intros [? ?]). done.
Qed.

Lemma processCriteria_counts_known_operators_witness :
  clause_count (mkESQuery None (Some [VObj [("range", VObj [("age", VObj [("gt", VNum 1)])])]])
                  None None None)
  = (clause_count es_empty
     + length (known_criteria [("$gt", VNum 1); ("$near", VNum 2)]))%nat
  /\ es_minimum_should_match
       (mkESQuery None (Some [VObj [("range", VObj [("age", VObj [("gt", VNum 1)])])]])
          None None None)
     = es_minimum_should_match es_empty.
Proof.
  apply (processCriteria_counts_known_operators "age" [("$gt", VNum 1); ("$near", VNum 2)]).
  vm_compute. reflexivity.
Defined.

(** * Properties of [src/utils/core.ts] *)

(** ** [removeProps] *)

(** X25: the result of [removeProps] is the object without the named
    keys: it has none of them, it keeps every other own property but
    [__proto__], in order, and it has nothing else. *)
Theorem removeProps_removes_only_the_named_keys
    (object : list (string * value)) (props : list string) :
  removeProps object props `sublist_of` object
  /\ (forall k, k ∈ props -> k ∉ (removeProps object props).*1)
  /\ (forall k v, (k, v) ∈ object -> k ∉ props -> k <> "__proto__" ->
        (k, v) ∈ removeProps object props).
Proof.
  unfold removeProps, assign_fresh. split; [|split].
  - etrans; apply sublist_filter.
  - intros k Hk Hin. apply list_elem_of_fmap in Hin as ([k' v] & -> & Hin).
    by apply list_elem_of_filter in Hin as [Hnot _].
  - intros k v Hin Hk Hp. apply list_elem_of_filter. split; [done|].
    by apply list_elem_of_filter.
Qed.

Lemma removeProps_removes_only_the_named_keys_witness :
  ("$path" ∉ (removeProps [("$path", VStr "p"); ("a", VNum 1)] ["$path"]).*1)
  /\ ("a", VNum 1) ∈ removeProps [("$path", VStr "p"); ("a", VNum 1)] ["$path"].
Proof.
  destruct (removeProps_removes_only_the_named_keys
              [("$path", VStr "p"); ("a", VNum 1)] ["$path"]) as (_ & Hgone & Hkept).
  split.
  - apply Hgone. repeat constructor.
  - apply Hkept; [repeat constructor | | discriminate].
    intros H. apply list_elem_of_singleton in H. discriminate.
Defined.

(** X26: removing two lists of names one after the other is removing
    both at once. *)
Theorem removeProps_composes (object : list (string * value)) (props1 props2 : list string) :
  removeProps (removeProps object props1) props2 = removeProps object (props1 ++ props2).
Proof.
  unfold removeProps, assign_fresh. rewrite !list_filter_filter.
  apply list_filter_iff. intros [k v]. rewrite not_elem_of_app. simpl. tauto.
Qed.

(** ** [getQueryLength] *)

(** X27: [getQueryLength] is zero exactly when every key of the query is
    the routing field, the parent field, the empty name that stands for a
    field not configured, or [__proto__]. *)
Theorem getQueryLength_counts_other_keys (service : Service) (query : list (string * value)) :
  getQueryLength service query = 0%nat
  <-> Forall (fun k => k ∈ [or_empty (service_routing service);
                            or_empty (service_parent service); "__proto__"]) query.*1.
Proof.
  unfold getQueryLength, removeProps, assign_fresh. rewrite list_filter_filter.
  rewrite length_zero_iff_nil. split.
  - intros E. apply Forall_fmap, Forall_forall. intros [k v] Hin. simpl.
    destruct (decide (k ∈ [or_empty (service_routing service);
                           or_empty (service_parent service); "__proto__"])) as [|Hk]; [done|].
    exfalso. eapply filter_nil_not_elem_of; [exact E| |exact Hin]. simpl.
    rewrite !not_elem_of_cons in Hk. rewrite !not_elem_of_cons. tauto.
  - intros HF. apply filter_none. intros [k v] Hin [H1 H2]. simpl in *.
    apply Forall_fmap in HF. eapply Forall_forall in HF; [|exact Hin]. simpl in HF.
    rewrite !elem_of_cons in HF. rewrite !not_elem_of_cons in H1.
    destruct HF as [->|[->|[->|HF]]]; [tauto..|by apply elem_of_nil in HF].
Qed.

Lemma getQueryLength_counts_other_keys_witness :
  getQueryLength (mkService "_id" (Some "_parent") (Some "_routing") None "_meta")
    [("_routing", VStr "r"); ("_parent", VStr "p")] = 0%nat.
Proof.
  apply getQueryLength_counts_other_keys. repeat constructor.
Defined.

(** ** [getDocDescriptor] *)

Lemma and_then_ok {A B} (r : result A) (k : A -> result B) (b : B) :
  and_then r k = Ok b -> exists a, r = Ok a /\ k a = Ok b.
Proof. destruct r; try discriminate. eauto. Qed.

(** X28: the document of a descriptor is the data without the meta, id,
    parent, routing and join fields of the service, whatever the
    supplementary data are. *)
Theorem descriptor_doc_leaves_out_service_fields
    (service : Service) (data : list (string * value))
    (supplementaryData : list (list (string * value))) (descriptor : DocDescriptor) :
  getDocDescriptor service data supplementaryData = Ok descriptor ->
  dd_doc descriptor `sublist_of` data
  /\ Forall (fun k => k ∉ (dd_doc descriptor).*1)
        [service_meta service; service_id service; or_empty (service_parent service);
         or_empty (service_routing service); or_empty (service_join service)]
  /\ (forall k v, (k, v) ∈ data ->
         k ∉ [service_meta service; service_id service; or_empty (service_parent service);
              or_empty (service_routing service); or_empty (service_join service);
              "__proto__"] ->
         (k, v) ∈ dd_doc descriptor).
Proof.
  unfold getDocDescriptor. intros H.
  repeat (apply and_then_ok in H as (? & _ & H)). injection H as <-. cbn [dd_doc].
  unfold removeProps, assign_fresh. split; [|split].
  - etrans; apply sublist_filter.
  - apply Forall_forall. intros k Hk Hin.
    apply list_elem_of_fmap in Hin as ([k' v] & -> & Hin).
    by apply list_elem_of_filter in Hin as [Hnot _].
  - intros k v Hin Hk. apply list_elem_of_filter. split.
    + simpl. intros Hk'. apply Hk. rewrite !elem_of_cons in Hk'. rewrite !elem_of_cons. tauto.
    + apply list_elem_of_filter. split; [|done]. simpl. intros ->. apply Hk.
      rewrite !elem_of_cons. tauto.
Qed.

Lemma descriptor_doc_leaves_out_service_fields_witness :
  [("name", VStr "Bob")] `sublist_of` [("id", VNum 7); ("name", VStr "Bob"); ("parent", VStr "p")]
  /\ Forall (fun k => k ∉ [("name", VStr "Bob")].*1) ["_meta"; "id"; "parent"; "routing"; "aka"]
  /\ (forall k v, (k, v) ∈ [("id", VNum 7); ("name", VStr "Bob"); ("parent", VStr "p")] ->
        k ∉ ["_meta"; "id"; "parent"; "routing"; "aka"; "__proto__"] ->
        (k, v) ∈ [("name", VStr "Bob")]).
Proof.
  apply (descriptor_doc_leaves_out_service_fields people
           [("id", VNum 7); ("name", VStr "Bob"); ("parent", VStr "p")] []
           (mkDocDescriptor (Some "7") (Some "p") (Some "p") None [("name", VStr "Bob")])).
  vm_compute. reflexivity.
Defined.

Lemma named_string_fallback (name : option string) (mergedData : list (string * value))
    (fallback r : option string) :
  (forall field, name = Some field -> truthy (lookup_prop field mergedData) = false) ->
  named_string name mergedData fallback = Ok r -> r = fallback.
Proof.
  intros Hf. unfold named_string. destruct name as [field|]; [|by intros [= <-]].
  destruct (String.eqb field ""); [by intros [= <-]|].
  specialize (Hf field eq_refl). unfold read_member.
  assert (lookup_prop field mergedData = default VUndefined (assoc field mergedData)) as E.
  { clear. induction mergedData as [|[k v] l IH]; simpl; [done|]. by destruct (String.eqb field k). }
  rewrite E in Hf. destruct (assoc field mergedData) as [v|]; simpl in *.
  - rewrite Hf. by intros [= <-].
  - case_bool_decide; [discriminate|]. simpl. by intros [= <-].
Qed.

(** X29: when the merged data hold no truthy routing field, the routing
    of a descriptor is its parent. *)
Theorem descriptor_routing_defaults_to_parent
    (service : Service) (data mergedData : list (string * value))
    (supplementaryData : list (list (string * value))) (descriptor : DocDescriptor) :
  fold_result object_assign data supplementaryData = Ok mergedData ->
  (forall field, service_routing service = Some field ->
     truthy (lookup_prop field mergedData) = false) ->
  getDocDescriptor service data supplementaryData = Ok descriptor ->
  dd_routing descriptor = dd_parent descriptor.
Proof.
  intros Hm Hr. unfold getDocDescriptor. rewrite Hm. cbn [and_then]. intros H.
  apply and_then_ok in H as (idValue & _ & H).
  apply and_then_ok in H as (id & _ & H).
  apply and_then_ok in H as (parent & _ & H).
  apply and_then_ok in H as (routing & Hrouting & H).
  apply and_then_ok in H as (join & _ & H).
  injection H as <-. cbn [dd_routing dd_parent].
  by eapply named_string_fallback.
Qed.

Lemma descriptor_routing_defaults_to_parent_witness :
  dd_routing (mkDocDescriptor (Some "7") (Some "p") (Some "p") None [("name", VStr "Bob")])
  = dd_parent (mkDocDescriptor (Some "7") (Some "p") (Some "p") None [("name", VStr "Bob")]).
Proof.
  apply (descriptor_routing_defaults_to_parent people
           [("id", VNum 7); ("name", VStr "Bob"); ("parent", VStr "p")]
           [("id", VNum 7); ("name", VStr "Bob"); ("parent", VStr "p")] []).
  - reflexivity.
  - intros field [= <-]. reflexivity.
  - vm_compute. reflexivity.
Defined.

Lemma assoc_head {A} (k : string) (l : list (string * A)) :
  assoc k l = snd <$> head (filter (fun kv => kv.1 = k) l).
Proof.
  induction l as [|[k' v] l IH]; [done|]. simpl. rewrite filter_cons. simpl.
  destruct (String.eqb_spec k k') as [->|Hne].
  - by rewrite decide_True.
  - by rewrite decide_False by congruence.
Qed.

Lemma stable_sort_trivial {A} (le : A -> A -> bool) (l : list A) :
  (forall x y, x ∈ l -> y ∈ l -> le x y = true) -> stable_sort le l = l.
Proof.
  induction l as [|x l IH]; intros H; [done|].
  change (stable_sort le (x :: l)) with (insert_by le x (stable_sort le l)).
  rewrite IH by (intros a b Ha Hb; apply H; by right).
  destruct l as [|y l]; [done|]. simpl. rewrite H; [done|left|right; left].
Qed.

Lemma own_property_order_one_key {A} (k : string) (l : list (string * A)) :
  Forall (fun kv => kv.1 = k) l -> own_property_order l = l.
Proof.
  intros Hk. unfold own_property_order. destruct (array_index k) as [n|] eqn:E.
  - rewrite (filter_all _ l), (filter_none _ l).
    + rewrite app_nil_r. apply stable_sort_trivial. intros x y Hx Hy.
      eapply Forall_forall in Hx, Hy; [|exact Hk..]. simpl in *. rewrite Hx, Hy. lia.
    + intros x Hx Hn. eapply Forall_forall in Hx; [|exact Hk]. simpl in *. apply Hn.
      rewrite Hx, E. eauto.
    + intros x Hx. eapply Forall_forall in Hx; [|exact Hk]. simpl in *. rewrite Hx, E. eauto.
  - rewrite (filter_none _ l), (filter_all _ l); [done| |].
    + intros x Hx [? Hs]. eapply Forall_forall in Hx; [|exact Hk]. simpl in *. congruence.
    + intros x Hx [? Hs]. eapply Forall_forall in Hx; [|exact Hk]. simpl in *. congruence.
Qed.

Lemma assoc_own_property_order {A} (k : string) (l : list (string * A)) :
  assoc k (own_property_order l) = assoc k l.
Proof.
  rewrite !assoc_head, filter_own_property_order.
  rewrite (own_property_order_one_key k); [done|].
  apply Forall_forall. intros x Hx. by apply list_elem_of_filter in Hx as [? _].
Qed.

Lemma assoc_replace_prop k v (l : list (string * value)) :
  is_Some (assoc k l) -> assoc k (replace_prop k v l) = Some v.
Proof.
  induction l as [|[k' v'] l IH]; simpl; [by intros [? ?]|].
  destruct (String.eqb k k') eqn:E; simpl; rewrite E; [done|exact IH].
Qed.

Lemma assoc_append k v (l : list (string * value)) :
  assoc k l = None -> assoc k (l ++ [(k, v)]) = Some v.
Proof.
  induction l as [|[k' v'] l IH]; simpl; [by rewrite String.eqb_refl|].
  by destruct (String.eqb k k').
Qed.

Lemma read_after_assign k v (target merged : list (string * value)) :
  object_assign target [(k, v)] = Ok merged -> read_member k merged = Ok v.
Proof.
  unfold object_assign, write_member. cbn [fold_result fst snd].
  destruct (assoc k target) as [old|] eqn:E.
  - intros [= <-]. unfold read_member. rewrite assoc_own_property_order.
    by rewrite assoc_replace_prop by by rewrite E.
  - destruct (String.eqb k "__proto__"); [discriminate|]. intros [= <-].
    unfold read_member. rewrite assoc_own_property_order. by rewrite assoc_append.
Qed.

Lemma fold_result_snoc {A B} (f : A -> B -> result A) (a : A) (l : list B) (x : B) :
  fold_result f a (l ++ [x]) = and_then (fold_result f a l) (fun a' => f a' x).
Proof.
  revert a. induction l as [|y l IH]; intros a; simpl.
  - by destruct (f a x).
  - by destruct (f a y).
Qed.

(** X30: an id given in the last supplement, as [update] gives the id of
    the call, is the id of the descriptor, whatever the data and the other
    supplements say. *)
Theorem descriptor_id_comes_from_the_last_supplement
    (service : Service) (data : list (string * value))
    (supplementaryData : list (list (string * value))) (idValue : value) (id : string)
    (descriptor : DocDescriptor) :
  is_undefined idValue = false ->
  to_string idValue = Ok id ->
  getDocDescriptor service data (supplementaryData ++ [[(service_id service, idValue)]])
  = Ok descriptor ->
  dd_id descriptor = Some id.
Proof.
  intros Hdef Hid. unfold getDocDescriptor. rewrite fold_result_snoc. intros H.
  apply and_then_ok in H as (mergedData & Hm & H).
  apply and_then_ok in Hm as (before & _ & Hm).
  rewrite (read_after_assign _ _ _ _ Hm) in H. cbn [and_then] in H.
  rewrite Hdef, Hid in H. cbn [and_then] in H.
  repeat (apply and_then_ok in H as (? & _ & H)). by injection H as <-.
Qed.

Lemma descriptor_id_comes_from_the_last_supplement_witness :
  dd_id (mkDocDescriptor (Some "9") None None None [("name", VStr "Bob")]) = Some "9".
Proof.
  apply (descriptor_id_comes_from_the_last_supplement people
           [("id", VNum 7); ("name", VStr "Bob")] [[("q", VNum 1)]] (VNum 9) "9").
  - reflexivity.
  - vm_compute. reflexivity.
  - vm_compute. reflexivity.
Defined.

(** * The cache across calls *)

(** X9: a call below the top level returns the cache it was given, and
    its result depends on neither the cache nor the environment. *)
Theorem nested_call_ignores_cache env1 env2 query idProp maxDepth d c1 c2 :
  parseQuery env1 query idProp maxDepth (S d) c1
  = ((parseQuery env2 query idProp maxDepth (S d) c2).1, c1).
Proof. by rewrite !parseQuery_nested. Qed.

(** X8: a top-level call whose random draw triggers cleaning either
    leaves the cache as it was (a hit, or a rejection before the draw) or
    ends with at most [CACHE_MAX_SIZE + 1] entries. *)
Theorem cache_is_bounded_after_cleaning env query idProp maxDepth c r c' :
  NoDup c.*1 -> random_below env = true ->
  parseQuery env query idProp maxDepth 0 c = (r, c') ->
  c' = c \/ Z.of_nat (length c') <= CACHE_MAX_SIZE + 1.
Proof.
  intros Hnd Hrand Hrun.
  destruct (decide (getType query = TObject)) as [Hq|Hq].
  2:{ left. pose proof (parseQuery_not_object env query idProp maxDepth 0 c Hq) as E.
      by rewrite Hrun in E. }
  destruct query as [| | | | | | |props]; try discriminate. clear Hq.
  destruct (cache_get (hashQuery (VObj props) idProp) c) as [cached|] eqn:Hget.
  { left. rewrite (parseQuery_hit _ _ _ _ _ _ Hget) in Hrun. by injection Hrun as _ <-. }
  destruct (decide (maxDepth < 0)) as [Hneg|Hneg].
  { left. rewrite parseQuery_too_deep in Hrun; [| by intros _ | lia]. by injection Hrun as _ <-. }
  right. rewrite parseQuery_miss in Hrun; [| by intros _ | lia].
  pose proof (reduce_entries_pure env (VObj props) idProp maxDepth 0 (after_clean env 0 c)) as Hp.
  unfold after_clean in *. rewrite Hrand in *. simpl andb in *. cbv iota in *.
  pose proof (cleanCache_size (clean_time env) c Hnd) as Hsize.
  destruct (reduce_entries _ _ _ _ _ _) as [[bool|e0|k|] c0]; simpl in Hp; subst c0;
    injection Hrun as _ <-; try lia.
  unfold after_store. simpl Nat.eqb. cbv iota.
  pose proof (cache_set_length (hashQuery (VObj props) idProp)
                (mkCacheEntry (sentinel_or bool) (store_time env))
                (cleanCache (clean_time env) c)). lia.
Qed.

Lemma cache_is_bounded_after_cleaning_witness :
  let c' := (parseQuery (mkEnv true 0 0) (VObj [("a", VNum 1)]) "id" 50 0 []).2 in
  c' = [] \/ Z.of_nat (length c') <= CACHE_MAX_SIZE + 1.
Proof.
  cbv zeta.
  apply (cache_is_bounded_after_cleaning (mkEnv true 0 0) (VObj [("a", VNum 1)]) "id" 50 []
           (parseQuery (mkEnv true 0 0) (VObj [("a", VNum 1)]) "id" 50 0 []).1).
  - constructor.
  - reflexivity.
  - apply surjective_pairing.
Defined.

(** * Searchable fields and plain fields *)

(** ** [validateSearchableFields] *)

Lemma strip_boost_suffix (name boost : string) :
  has_caret name = false -> has_line_terminator boost = false ->
  strip_boost (name +:+ "^" +:+ boost) = name.
Proof.
  intros Hn Hb. induction name as [|a name IH].
  - change (strip_boost (String "^" boost) = ""). cbn [strip_boost].
    change (char_code "^" =? 94) with true. by rewrite Hb.
  - cbn [has_caret] in Hn. apply orb_false_elim in Hn as [Ha Hn].
    change (strip_boost (String a (name +:+ "^" +:+ boost)) = String a name).
    cbn [strip_boost]. rewrite Ha. cbn [andb]. by rewrite IH.
Qed.

(** X24: with a boost suffix, a caret followed by characters on the same
    line, a field is accepted exactly when the list of allowed fields is
    empty or holds the field without the suffix. *)
Theorem searchable_fields_ignore_the_boost (name boost : string) (allowedFields : list string) :
  has_caret name = false -> has_line_terminator boost = false ->
  (validateSearchableFields [name +:+ "^" +:+ boost] allowedFields = Ok tt
   <-> allowedFields = [] \/ name ∈ allowedFields).
Proof.
  intros Hn Hb. unfold validateSearchableFields.
  destruct allowedFields as [|f allowed]; [by split; [left|]|].
  cbn [length Nat.eqb check_fields]. rewrite strip_boost_suffix by done.
  case_bool_decide; split; try done; [by right | by intros [|]].
Qed.

Lemma searchable_fields_ignore_the_boost_witness :
  validateSearchableFields ["title^2"] ["title"; "body"] = Ok tt.
Proof.
  apply (proj2 (searchable_fields_ignore_the_boost "title" "2" ["title"; "body"]
                  eq_refl eq_refl)).
  right. repeat constructor.
Defined.

(** ** Filters made of plain fields *)

Lemma plain_reduce_step P idProp maxDepth d q kv c :
  plain_entry idProp kv ->
  reduce_step P idProp maxDepth d q kv c
  = (Ok (push_section Filter (term_clauses (alias_key idProp kv.1) kv.2) q), c).
Proof.
  intros [Hk Ht]. unfold reduce_step. fold (alias_key idProp kv.1). rewrite Hk.
  rewrite validateType_ok.
  2:{ revert Ht. rewrite !elem_of_cons, !elem_of_nil. tauto. }
  unfold bind, lift. rewrite bool_decide_eq_true_2.
  2:{ intros E. rewrite E in Ht. revert Ht. rewrite !elem_of_cons, elem_of_nil.
      intuition discriminate. }
  unfold ret, processTermQuery, term_clauses. by destruct kv.2.
Qed.

Lemma push_push s l1 l2 q :
  push_section s l2 (push_section s l1 q) = push_section s (l1 ++ l2) q.
Proof.
  unfold push_section, section_or_empty. rewrite get_set_section, bool_decide_eq_true_2 by done.
  simpl. rewrite app_assoc. by destruct s.
Qed.

Lemma plain_reduce P idProp maxDepth d props q c :
  Forall (plain_entry idProp) props ->
  foldM (reduce_step P idProp maxDepth d) q props c
  = (Ok (match props with
         | [] => q
         | _ => push_section Filter
                  (concat ((fun kv => term_clauses (alias_key idProp kv.1) kv.2) <$> props)) q
         end), c).
Proof.
  intros HF. revert q. induction HF as [|kv props Hkv _ IH]; intros q; [done|].
  cbn [foldM]. unfold bind. rewrite plain_reduce_step by done. rewrite IH.
  destruct props as [|kv' props]; [by rewrite fmap_cons, fmap_nil, concat_cons, app_nil_r|].
  by rewrite push_push.
Qed.

(** X11: a filter whose keys no handler takes and whose values are
    numbers, strings, booleans, [undefined] or arrays translates, on a cache
    miss, to a [filter] section alone: one [term] clause per scalar and one
    per array element, in key order, the alias replaced by [_id]. *)
Theorem plain_fields_become_term_filters env props idProp maxDepth d c :
  Forall (plain_entry idProp) props -> props <> [] ->
  cache_miss (VObj props) idProp d c -> Z.of_nat d <= maxDepth ->
  (parseQuery env (VObj props) idProp maxDepth d c).1
  = Ok (Some (mkESQuery None
                (Some (concat ((fun kv => term_clauses (alias_key idProp kv.1) kv.2) <$> props)))
                None None None)).
Proof.
  intros HF Hne Hmiss Hd. rewrite parseQuery_miss by done.
  unfold reduce_entries. cbn [object_props]. rewrite plain_reduce by done.
  destruct props; done.
Qed.

Lemma plain_fields_become_term_filters_witness :
  (parseQuery quiet (VObj [("id", VNum 5); ("tags", VArr [VStr "a"; VStr "b"])]) "id" 50 0 []).1
  = Ok (Some (mkESQuery None
                (Some [term_clause "_id" (VNum 5); term_clause "tags" (VStr "a");
                       term_clause "tags" (VStr "b")])
                None None None)).
Proof.
  apply (plain_fields_become_term_filters quiet
           [("id", VNum 5); ("tags", VArr [VStr "a"; VStr "b"])] "id" 50 0 []).
  - repeat constructor.
  - discriminate.
  - intros _. reflexivity.
  - lia.
Defined.
